(** * Schedule-directed loop transformations of the HCL dialect

    A shallow embedding of the schedule primitives of
    [lib/Transforms/LoopTransformations.cpp], of the dead-memref pass of
    [lib/Transforms/MemRefDCE.cpp] and of the signature conversion of
    [lib/Transforms/AnyWidthInteger.cpp], together with the properties their
    specification states about them and further properties of the code.

    Conventions of the embedding:
    - [int64_t] values are integers of [Z]; arithmetic that the source
      performs on them is wrapped with [wrap64];
    - SSA values are identified by natural numbers;
    - a function of the source that returns [LogicalResult] and emits
      diagnostics returns its result together with the list of emitted
      diagnostics, or an [option] when no diagnostic matters. *)

From stdpp Require Import base list strings gmap pretty.
From Stdlib Require Import ZArith Lia.

Local Open Scope Z_scope.

(** ** Machine integers *)

Definition INT64_MAX : Z := 2 ^ 63 - 1.

(** Two's complement wrap-around of a 64 bit signed integer. *)
Definition wrap64 (z : Z) : Z := (z + 2 ^ 63) mod 2 ^ 64 - 2 ^ 63.

(** ** Affine expressions (the part of MLIR's [AffineExpr] the passes use) *)

Inductive AffineExprKind := Add | Mul | Mod | FloorDiv | CeilDiv.

Inductive AffineExpr :=
| AffineDimExpr (position : nat)
| AffineSymbolExpr (position : nat)
| AffineConstantExpr (value : Z)
| AffineBinaryOpExpr (kind : AffineExprKind) (lhs rhs : AffineExpr).

Global Instance AffineExprKind_eq_dec : EqDecision AffineExprKind.
Proof. solve_decision. Defined.
Global Instance AffineExpr_eq_dec : EqDecision AffineExpr.
Proof. solve_decision. Defined.

Definition evalBinary (k : AffineExprKind) (a b : Z) : Z :=
  match k with
  | Add => a + b
  | Mul => a * b
  | Mod => a mod b
  | FloorDiv => a / b
  | CeilDiv => - ((- a) / b)
  end.

(** Value of an expression for given dimension and symbol operands; a
    position outside the operand list reads as 0. *)
Fixpoint evalAffineExpr (dims syms : list Z) (e : AffineExpr) : Z :=
  match e with
  | AffineDimExpr p => dims !!! p
  | AffineSymbolExpr p => syms !!! p
  | AffineConstantExpr v => v
  | AffineBinaryOpExpr k l r =>
      evalBinary k (evalAffineExpr dims syms l) (evalAffineExpr dims syms r)
  end.

(** ** Loops *)

(** SSA values are numbered. *)
Definition Value := nat.

Inductive AffineBound :=
| ConstantBound (c : Z)
| MapBound (results : list AffineExpr) (operands : list Value).

Record AffineForOp := mkFor {
  loop_name : string;
  stage_name : option string;
  step : Z;
  lowerBound : AffineBound;
  upperBound : AffineBound;
  inductionVar : Value;
  attrs : list string   (* unit attributes: reduction, spatial, buffer *)
}.

Definition hasConstantLowerBound (l : AffineForOp) : bool :=
  match lowerBound l with ConstantBound _ => true | _ => false end.
Definition hasConstantUpperBound (l : AffineForOp) : bool :=
  match upperBound l with ConstantBound _ => true | _ => false end.
Definition getConstantLowerBound (l : AffineForOp) : option Z :=
  match lowerBound l with ConstantBound c => Some c | _ => None end.
Definition getConstantUpperBound (l : AffineForOp) : option Z :=
  match upperBound l with ConstantBound c => Some c | _ => None end.
Definition setConstantUpperBound (l : AffineForOp) (c : Z) : AffineForOp :=
  mkFor (loop_name l) (stage_name l) (step l) (lowerBound l)
        (ConstantBound c) (inductionVar l) (attrs l).
Definition hasAttr (l : AffineForOp) (a : string) : bool :=
  bool_decide (a ∈ attrs l).

(** ** Index computations created by the passes *)

(** Index-typed SSA values as the operations that define them. *)
#[warnings="-register-all"]
Inductive IndexValue :=
| InductionVarOf (iv : Value)
| ConstantIndexOp (c : Z)
| AffineApplyOp (numDims : nat) (map : AffineExpr) (operands : list IndexValue).

Fixpoint evalIndexValue (env : Value → Z) (v : IndexValue) : Z :=
  match v with
  | InductionVarOf i => env i
  | ConstantIndexOp c => c
  | AffineApplyOp nd m ops =>
      let vals := List.map (evalIndexValue env) ops in
      evalAffineExpr (take nd vals) (drop nd vals) m
  end.

(** ** Fuse: [coalesceLoops] *)

(** "We only work on normalized loops." *)
Definition isNormalizedLoop (l : AffineForOp) : bool :=
  bool_decide (step l = 1) && hasConstantLowerBound l &&
  bool_decide (getConstantLowerBound l = Some 0) && hasConstantUpperBound l.

Definition constantUpperBoundOr0 (l : AffineForOp) : Z :=
  default 0 (getConstantUpperBound l).

(** Step 2: [prod *= cstUb] over the loops, on [int64_t]. *)
Definition coalescedUpperBound (loops : list AffineForOp) : Z :=
  fold_left (λ prod l, wrap64 (prod * constantUpperBoundOr0 l)) loops 1.

(** Step 1/2: one [arith.constant] per loop. *)
Definition upperBoundSymbols (loops : list AffineForOp) : list IndexValue :=
  List.map (λ l, ConstantIndexOp (constantUpperBoundOr0 l)) loops.

Definition floorDivMap : AffineExpr :=
  AffineBinaryOpExpr FloorDiv (AffineDimExpr 0) (AffineSymbolExpr 0).
Definition modMap : AffineExpr :=
  AffineBinaryOpExpr Mod (AffineDimExpr 0) (AffineSymbolExpr 0).

(** Step 3, the loop [for (idx = loops.size(); idx > 0; --idx)]: [n] is
    [loops.size()], the recursion argument is [idx].  The result lists the
    replacement of the induction variable of [loops[0]], ..., [loops[idx-1]]. *)
Fixpoint remapInductionVars (syms : list IndexValue) (n idx : nat)
    (previous : IndexValue) : option (list IndexValue) :=
  match idx with
  | O => Some []
  | S i =>
      previous' ←
        (if decide (idx ≠ n) then
           s ← syms !! idx; Some (AffineApplyOp 1 floorDivMap [previous; s])
         else Some previous);
      inductionVariable ←
        (if decide (idx = 1%nat) then Some previous'
         else s ← syms !! i; Some (AffineApplyOp 1 modMap [previous'; s]));
      rest ← remapInductionVars syms n i previous';
      Some (rest ++ [inductionVariable])
  end.

Record CoalescedLoop := mkCoalesced {
  fusedLoop : AffineForOp;           (* loops[0] with its new upper bound *)
  remappedIVs : list IndexValue      (* replacement of each loop's IV *)
}.

Definition coalesceLoops (loops : list AffineForOp) : option CoalescedLoop :=
  if decide (length loops < 2)%nat then None
  else
    match loops with
    | [] => None
    | outermost :: _ =>
        if forallb isNormalizedLoop loops then
          let prod := coalescedUpperBound loops in
          ivs ← remapInductionVars (upperBoundSymbols loops) (length loops)
                  (length loops) (InductionVarOf (inductionVar outermost));
          Some (mkCoalesced (setConstantUpperBound outermost prod) ivs)
        else None
    end.

(** Iteration space of a normalized loop nest: the tuples of induction
    variable values in execution order, outermost loop first. *)
Fixpoint loopNestIterations (ubs : list Z) : list (list Z) :=
  match ubs with
  | [] => [[]]
  | ub :: inner =>
      flat_map (λ i, List.map (cons i) (loopNestIterations inner)) (seqZ 0 ub)
  end.

(** Environment in which one induction variable has a value. *)
Definition ivEnv (iv : Value) (x : Z) : Value → Z :=
  λ v, if decide (v = iv) then x else 0.

(** The tuples the coalesced loop hands to the original body. *)
Definition coalescedIterations (c : CoalescedLoop) : list (list Z) :=
  List.map
    (λ x, List.map (evalIndexValue (ivEnv (inductionVar (fusedLoop c)) x))
            (remappedIVs c))
    (seqZ 0 (constantUpperBoundOr0 (fusedLoop c))).

Definition product (l : list Z) : Z := fold_right Z.mul 1 l.

(** De-linearization of a coalesced index: the outermost component is the
    quotient by the trip counts nested in it, every other component the
    quotient by the trip counts nested in it modulo its own trip count. *)
Fixpoint mixedRadixDigits (ubs : list Z) (x : Z) : list Z :=
  match ubs with
  | [] => []
  | ub :: inner => (x / product inner) mod ub :: mixedRadixDigits inner x
  end.

Definition delinearize (ubs : list Z) (x : Z) : list Z :=
  match ubs with
  | [] => []
  | _ :: inner => x / product inner :: mixedRadixDigits inner x
  end.

Definition constantUpperBounds (loops : list AffineForOp) : list Z :=
  List.map constantUpperBoundOr0 loops.

(** ** Building affine expressions

    MLIR folds expressions while it builds them.  The builders below apply
    the folding rules that matter for the expressions the passes build; an
    expression they leave unfolded is built as it is.  [evalAffineExpr] is
    preserved by every rule. *)

Fixpoint isSymbolicOrConstant (e : AffineExpr) : bool :=
  match e with
  | AffineDimExpr _ => false
  | AffineSymbolExpr _ | AffineConstantExpr _ => true
  | AffineBinaryOpExpr _ l r => isSymbolicOrConstant l && isSymbolicOrConstant r
  end.

(** A divisor of every value of the expression (dimensions, symbols and
    everything but products and constants count 1). *)
Fixpoint knownDivisor (e : AffineExpr) : Z :=
  match e with
  | AffineConstantExpr v => Z.abs v
  | AffineBinaryOpExpr Mul l r => knownDivisor l * knownDivisor r
  | _ => 1
  end.

(** [lhs % c] *)
Definition affineMod (lhs : AffineExpr) (c : Z) : AffineExpr :=
  if decide (c < 1) then AffineBinaryOpExpr Mod lhs (AffineConstantExpr c)
  else match lhs with
       | AffineConstantExpr l => AffineConstantExpr (l mod c)
       | _ => if decide (knownDivisor lhs mod c = 0) then AffineConstantExpr 0
              else AffineBinaryOpExpr Mod lhs (AffineConstantExpr c)
       end.

(** [lhs.floorDiv(c)] *)
Definition affineFloorDiv (lhs : AffineExpr) (c : Z) : AffineExpr :=
  if decide (c < 1) then AffineBinaryOpExpr FloorDiv lhs (AffineConstantExpr c)
  else match lhs with
       | AffineConstantExpr l => AffineConstantExpr (l / c)
       | _ => if decide (c = 1) then lhs
              else AffineBinaryOpExpr FloorDiv lhs (AffineConstantExpr c)
       end.

(** [lhs * c] *)
Fixpoint affineMulConst (lhs : AffineExpr) (c : Z) : AffineExpr :=
  match lhs with
  | AffineConstantExpr l => AffineConstantExpr (l * c)
  | _ =>
      if decide (c = 1) then lhs
      else if decide (c = 0) then AffineConstantExpr 0
      else match lhs with
           | AffineBinaryOpExpr Mul ll (AffineConstantExpr lr) =>
               affineMulConst ll (lr * c)
           | _ => AffineBinaryOpExpr Mul lhs (AffineConstantExpr c)
           end
  end.

Definition isConstantExpr (e : AffineExpr) : bool :=
  match e with AffineConstantExpr _ => true | _ => false end.
Definition isDimExpr (e : AffineExpr) : bool :=
  match e with AffineDimExpr _ => true | _ => false end.
Definition isBinaryOpExpr (e : AffineExpr) : bool :=
  match e with AffineBinaryOpExpr _ _ _ => true | _ => false end.

(** [c * expr] read as the pair of [c] and [expr]; an expression that is
    not a product by a constant is [1 * expr]. *)
Definition mulParts (e : AffineExpr) : Z * AffineExpr :=
  match e with
  | AffineBinaryOpExpr Mul l (AffineConstantExpr c) => (c, l)
  | _ => (1, e)
  end.

(** [lhs + rhs]: the rules of MLIR's [simplifyAdd] in their order (constant
    folding, constants and symbols to the right, addition of zero,
    [(x + c1) + c2], [c1 * x + c2 * x], [(x + c) + y]); the rule that turns
    [x - q * (x floordiv q)] into [x mod q] is left out.  The recursion of
    the rules is bounded by [fuel]; without fuel the sum is built as it is.
    Constants are folded in [Z]. *)
Fixpoint affineAddFuel (fuel : nat) (lhs rhs : AffineExpr) : AffineExpr :=
  match fuel with
  | O => AffineBinaryOpExpr Add lhs rhs
  | S fuel =>
      match lhs, rhs with
      | AffineConstantExpr a, AffineConstantExpr b => AffineConstantExpr (a + b)
      | _, _ =>
          if isConstantExpr lhs
             || (isSymbolicOrConstant lhs && negb (isSymbolicOrConstant rhs))
          then affineAddFuel fuel rhs lhs
          else if decide (rhs = AffineConstantExpr 0) then lhs
          else
            match lhs, rhs with
            | AffineBinaryOpExpr Add ll (AffineConstantExpr lr),
              AffineConstantExpr r =>
                affineAddFuel fuel ll (AffineConstantExpr (lr + r))
            | _, _ =>
                let '(c1, firstExpr) := mulParts lhs in
                let '(c2, secondExpr) := mulParts rhs in
                if decide (firstExpr = secondExpr)
                then affineMulConst firstExpr (c1 + c2)
                else
                  match lhs with
                  | AffineBinaryOpExpr Add ll (AffineConstantExpr lr) =>
                      affineAddFuel fuel (affineAddFuel fuel ll rhs)
                                    (AffineConstantExpr lr)
                  | _ => AffineBinaryOpExpr Add lhs rhs
                  end
            end
      end
  end.

Fixpoint exprSize (e : AffineExpr) : nat :=
  match e with
  | AffineBinaryOpExpr _ l r => S (exprSize l + exprSize r)
  | _ => 1%nat
  end.

Definition affineAdd (lhs rhs : AffineExpr) : AffineExpr :=
  affineAddFuel (2 * (exprSize lhs + exprSize rhs)) lhs rhs.

(** [lhs - rhs] is [lhs + rhs * -1]. *)
Definition affineSub (lhs rhs : AffineExpr) : AffineExpr :=
  affineAdd lhs (affineMulConst rhs (-1)).

(** [getAffineBinaryOpExpr]: the builder of each kind. *)
Definition affineBinary (k : AffineExprKind) (lhs rhs : AffineExpr)
    : AffineExpr :=
  match k, rhs with
  | Add, _ => affineAdd lhs rhs
  | Mul, AffineConstantExpr c => affineMulConst lhs c
  | Mod, AffineConstantExpr c => affineMod lhs c
  | FloorDiv, AffineConstantExpr c => affineFloorDiv lhs c
  | _, _ => AffineBinaryOpExpr k lhs rhs
  end.

Fixpoint isFunctionOfDim (e : AffineExpr) (position : nat) : bool :=
  match e with
  | AffineDimExpr p => bool_decide (p = position)
  | AffineBinaryOpExpr _ l r =>
      isFunctionOfDim l position || isFunctionOfDim r position
  | _ => false
  end.

(** [expr.replace(getAffineDimExpr(position), replacement)] *)
Fixpoint replaceDim (e : AffineExpr) (position : nat) (replacement : AffineExpr)
    : AffineExpr :=
  match e with
  | AffineDimExpr p => if decide (p = position) then replacement else e
  | AffineBinaryOpExpr k l r =>
      let newLHS := replaceDim l position replacement in
      let newRHS := replaceDim r position replacement in
      if decide (newLHS = l ∧ newRHS = r) then e
      else affineBinary k newLHS newRHS
  | _ => e
  end.

(** [expr.walk(...)]: the sub-expressions in post-order. *)
Fixpoint walkExpr (e : AffineExpr) : list AffineExpr :=
  match e with
  | AffineBinaryOpExpr _ l r => walkExpr l ++ walkExpr r ++ [e]
  | _ => [e]
  end.

(** ** Diagnostics *)

Inductive Diagnostic :=
| EmitError (msg : string)
| EmitWarning (msg : string).

Definition isError (d : Diagnostic) : bool :=
  match d with EmitError _ => true | EmitWarning _ => false end.

(** ** Partition: [runPartition] *)

Inductive PartitionKindEnum := CompletePartition | BlockPartition | CyclicPartition.

Global Instance PartitionKindEnum_eq_dec : EqDecision PartitionKindEnum.
Proof. solve_decision. Defined.

(** A memref type: its shape and the results of its layout map (the map
    has as many dimensions as the shape has extents; the identity map when
    no layout was given). *)
Record MemRefType := mkMemRef {
  shape : list Z;
  layout : list AffineExpr
}.

Definition getRank (t : MemRefType) : nat := length (shape t).

Definition identityLayout (rank : nat) : list AffineExpr :=
  AffineDimExpr <$> seq 0 rank.

Record PartitionOp := mkPartitionOp {
  partition_kind : PartitionKindEnum;
  partition_dim : nat;              (* [unsigned int target_dim] *)
  partition_factor : option Z       (* optional attribute, read into [int] *)
}.

(** The test of the loop over the dimensions:
    [target_dim == 0 || (target_dim > 0 && dim == target_dim - 1)]. *)
Definition isSelectedDim (target_dim dim : nat) : bool :=
  bool_decide (target_dim = 0%nat) ||
  (bool_decide (0 < target_dim)%nat && bool_decide (dim = (target_dim - 1)%nat)).

(** [(shape[dim] + factor - 1) / factor] on [int64_t]; a division by zero
    has no result. *)
Definition blockFactorOf (extent factor : Z) : option Z :=
  if decide (factor = 0) then None
  else Some (wrap64 (Z.quot (wrap64 (wrap64 (extent + factor) - 1)) factor)).

(** The branch of the loop body taken for a selected dimension: the
    partition index and the address index pushed for [dim].  [None] when the
    branch has no result (division by zero, a dimension without extent). *)
Definition partitionSelected (kind : PartitionKindEnum) (factor : Z)
    (arrayType : MemRefType) (dim : nat) : option (AffineExpr * AffineExpr) :=
  match kind with
  | CyclicPartition =>
      Some (affineMod (AffineDimExpr dim) factor,
            affineFloorDiv (AffineDimExpr dim) factor)
  | BlockPartition =>
      extent ← shape arrayType !! dim;
      blockFactor ← blockFactorOf extent factor;
      Some (affineFloorDiv (AffineDimExpr dim) blockFactor,
            affineMod (AffineDimExpr dim) blockFactor)
  | CompletePartition =>
      Some (AffineDimExpr dim, AffineConstantExpr 0)
  end.

(** The branch taken for a dimension that is not selected; [None] when the
    old layout map has no result [dim]. *)
Definition partitionUnselected (arrayType : MemRefType) (dim : nat)
    : option (AffineExpr * AffineExpr) :=
  if decide (length (layout arrayType) = getRank arrayType) then
    Some (AffineConstantExpr 0, AffineDimExpr dim)
  else (* already had one layout map before *)
    e ← layout arrayType !! dim; Some (e, e).

(** One iteration of the loop over the dimensions. *)
Definition partitionDim (kind : PartitionKindEnum) (target_dim : nat)
    (factor : Z) (arrayType : MemRefType) (dim : nat)
    : option (AffineExpr * AffineExpr) :=
  if isSelectedDim target_dim dim
  then partitionSelected kind factor arrayType dim
  else partitionUnselected arrayType dim.

(** The result is the diagnostics emitted and, on success, the new type of
    the array.  The kind enumeration has three cases, so the source's last
    branch ("No this partition kind") cannot be reached. *)
Definition runPartition (partitionOp : PartitionOp) (arrayType : MemRefType)
    : list Diagnostic * option MemRefType :=
  let kind := partition_kind partitionOp in
  let target_dim := partition_dim partitionOp in
  match
    match partition_factor partitionOp with
    | Some f => inr f
    | None =>
        if decide (kind ≠ CompletePartition)
        then inl (EmitError "Should pass in `factor' for array partition")
        else inr (-1)
    end
  with
  | inl err => ([err], None)
  | inr factor =>
      let rank := getRank arrayType in
      let warn :=
        if decide (length (layout arrayType) ≠ rank)
        then [EmitWarning "Partition on the array partitioned before. The original layout map will be rewritten!"]
        else [] in
      match mapM (partitionDim kind target_dim factor arrayType) (seq 0 rank) with
      | None => (warn, None)
      | Some indices =>
          let partitionIndices := fst <$> indices in
          let addressIndices := snd <$> indices in
          (warn, Some (mkMemRef (shape arrayType)
                                (partitionIndices ++ addressIndices)))
      end
  end.

(** The ceiling of [E / f], for a positive [f]. *)
Definition ceilDiv (E f : Z) : Z := - ((- E) / f).

(** ** The loop-nest IR *)

Record AffineMap := mkMap {
  numDims : nat;
  results : list AffineExpr
}.

(** An integer set: each constraint is [expr >= 0], or [expr == 0] when
    its flag is set. *)
Record IntegerSet := mkSet {
  dimCount : nat;
  constraints : list AffineExpr;
  eqFlags : list bool
}.

#[warnings="-register-all"]
Inductive Operation :=
| AffineFor (loop : AffineForOp) (body : list Operation)
| AffineIf (set : IntegerSet) (setOperands : list Value)
           (thenBody : list Operation)
| AffineLoad (result : Value) (memref : Value) (map : AffineMap)
             (mapOperands : list Value)
| AffineStore (value : Value) (memref : Value) (map : AffineMap)
              (mapOperands : list Value)
| OtherOp (name : string) (opOperands : list Value) (opResults : list Value).

(** The top-level operations of a function body. *)
Definition FuncOp := list Operation.

Inductive LogicalResult := success | failure.

Definition getLoopName (l : AffineForOp) : string := loop_name l.

(** [op->walk([&](AffineForOp forOp) ...)]: the loops nested in an
    operation, the operation itself included, innermost first (post-order). *)
Fixpoint walkForOps (o : Operation) : list Operation :=
  match o with
  | AffineFor l body => flat_map walkForOps body ++ [o]
  | AffineIf _ _ body => flat_map walkForOps body
  | _ => []
  end.

Definition forHeader (o : Operation) : option AffineForOp :=
  match o with AffineFor l _ => Some l | _ => None end.

Definition walkLoops (o : Operation) : list AffineForOp :=
  omap forHeader (walkForOps o).

(** Modelled from the spec: [getStage] of hcl/Support/Utils is not among the
    sources.  "A stage is a top-level named loop band"; "the outermost
    ForLoop of a computation carries stage_name"; a stage handle resolves to
    the loop whose live name matches.  The result is the position of the
    stage's loop among the operations of the function. *)
Fixpoint getStage (f : FuncOp) (stage : string) : option nat :=
  match f with
  | [] => None
  | AffineFor l _ :: rest =>
      if decide (stage_name l = Some stage) then Some 0%nat
      else S <$> getStage rest stage
  | _ :: rest => S <$> getStage rest stage
  end.

(** MLIR's [getPerfectlyNestedLoops]: the loops of the maximal perfect nest
    rooted at a loop, outermost first, and the body of the innermost one. *)
Fixpoint getPerfectlyNestedLoops (root : Operation)
    : list AffineForOp * list Operation :=
  match root with
  | AffineFor l body =>
      match body with
      | [AffineFor _ _ as inner] =>
          let '(nest, innerBody) := getPerfectlyNestedLoops inner in
          (l :: nest, innerBody)
      | _ => ([l], body)
      end
  | _ => ([], [])
  end.

(** The nest made of the given loops around a body. *)
Definition buildNest (nest : list AffineForOp) (innerBody : list Operation)
    : list Operation :=
  fold_right (λ l body, [AffineFor l body]) innerBody nest.

(** ** Reorder: [runReordering] *)

Record ReorderOp := mkReorderOp {
  reorder_stage : string;
  reorder_loops : list string     (* the loop names of the handle operands *)
}.

(** [std::find(v.begin(), v.end(), x) - v.begin()] *)
Fixpoint findIndex {A} `{EqDecision A} (v : list A) (x : A) : nat :=
  match v with
  | [] => 0%nat
  | y :: rest => if decide (y = x) then 0%nat else S (findIndex rest x)
  end.

(** Step 5.2: fill in the loops that the arguments do not name.  [None]
    when [nameOfLoopsToReorder[cntInArgs]] does not exist. *)
Fixpoint fillMissingLoops (oldLoopNames nameOfLoopsToReorder : list string)
    (cntInArgs : nat) : option (list string) :=
  match oldLoopNames with
  | [] => Some []
  | name :: rest =>
      if decide (name ∈ nameOfLoopsToReorder) then
        new ← nameOfLoopsToReorder !! cntInArgs;
        tail ← fillMissingLoops rest nameOfLoopsToReorder (S cntInArgs);
        Some (new :: tail)
      else
        tail ← fillMissingLoops rest nameOfLoopsToReorder cntInArgs;
        Some (name :: tail)
  end.

(** Step 5.3: [permMap[i]] is the new position of the [i]-th loop. *)
Definition buildPermMap (oldLoopNames nameOfAllLoopsWithNewOrder : list string)
    : list nat :=
  findIndex nameOfAllLoopsWithNewOrder <$> oldLoopNames.

(** Step 5.3: [outerMostIdx] is the last [i] with [permMap[i] == 0], and 0
    when there is none. *)
Definition outerMostIdxOf (permMap : list nat) : nat :=
  fold_left (λ acc '(i, idx), if decide (idx = 0%nat) then i else acc)
            (imap (λ i idx, (i, idx)) permMap) 0%nat.

(** MLIR's [permuteLoops]: [input[i]] moves to depth [permMap[i]]; the map
    has to be a permutation of the depths (checked by an assertion). *)
Definition permuteLoops {A} (input : list A) (permMap : list nat)
    : option (list A) :=
  if decide (permMap ≡ₚ seq 0 (length input)) then
    mapM (λ depth, input !! findIndex permMap depth) (seq 0 (length input))
  else None.

Definition removeStageName (l : AffineForOp) : AffineForOp :=
  mkFor (loop_name l) None (step l) (lowerBound l) (upperBound l)
        (inductionVar l) (attrs l).
Definition setStageName (l : AffineForOp) (name : string) : AffineForOp :=
  mkFor (loop_name l) (Some name) (step l) (lowerBound l) (upperBound l)
        (inductionVar l) (attrs l).

(** The result of a primitive: the diagnostics it emitted, what it
    returned, and the function after the call.  [None] stands for a run
    that the source does not define (an assertion of MLIR, an access outside
    a vector). *)
Definition PrimitiveResult : Type :=
  option (list Diagnostic * LogicalResult * FuncOp).

Definition runReordering (f : FuncOp) (reorderOp : ReorderOp)
    : PrimitiveResult :=
  let loopsToReorder := reorder_loops reorderOp in
  if decide (length loopsToReorder < 2)%nat then
    Some ([EmitError "Should at least input 2 loops to be reordered"],
          failure, f)
  else
    match getStage f (reorder_stage reorderOp) with
    | None =>
        Some ([EmitError ("Cannot find Stage " +:+ reorder_stage reorderOp)],
              failure, f)
    | Some pos =>
        rootForOp ← f !! pos;
        let '(nest, innerBody) := getPerfectlyNestedLoops rootForOp in
        let oldLoopNames := getLoopName <$> nest in
        nameOfAllLoopsWithNewOrder ←
          fillMissingLoops oldLoopNames loopsToReorder 0;
        let permMap := buildPermMap oldLoopNames nameOfAllLoopsWithNewOrder in
        let outerMostIdx := outerMostIdxOf permMap in
        if decide (2 ≤ length nest ∧ length nest = length permMap)%nat then
          (* the loops keep their attributes while [permuteLoops] moves
             them, so both attribute updates are applied to [nest] first *)
          let nest1 :=
            if decide (outerMostIdx ≠ 0%nat)
            then alter removeStageName 0%nat nest else nest in
          let nest2 :=
            if decide (outerMostIdx ≠ 0%nat)
            then alter (λ l, setStageName l (reorder_stage reorderOp))
                       outerMostIdx nest1
            else nest1 in
          permuted ← permuteLoops nest2 permMap;
          Some ([], success,
                take pos f ++ buildNest permuted innerBody ++ drop (S pos) f)
        else
          Some ([EmitError
                   ("Cannot permute the loops because the size of the perfectly nested loop band ("
                    +:+ pretty (length nest)
                    +:+ ") is not consistent with the size of permutation mapping ("
                    +:+ pretty (length permMap) +:+ ")")],
                failure, f)
    end.

(** ** Split and tile: [runSplitting], [runTiling] *)

Record SplitOp := mkSplitOp {
  split_stage : string;
  split_loop : string;
  split_factor : Z                  (* [unsigned int factor] *)
}.

Record TileOp := mkTileOp {
  tile_stage : string;
  tile_x_loop : string;
  tile_y_loop : string;
  tile_x_factor : Z;
  tile_y_factor : Z
}.

Definition lookupStage (f : FuncOp) (stage : string) : option Operation :=
  pos ← getStage f stage; f !! pos.

(** Step 3 of [runSplitting]: the walk keeps the first loop with the
    requested name ([band.size() == 0 && loop_name == getLoopName(forOp)]). *)
Definition findLoop (rootForOp : Operation) (name : string)
    : option AffineForOp :=
  head (filter (λ l, getLoopName l = name) (walkLoops rootForOp)).

Definition tilingFactorError (factor ub : Z) : Diagnostic :=
  EmitError ("The requested tiling factor (" +:+ pretty factor
             +:+ ") is larger than the upper bound (" +:+ pretty ub
             +:+ ") of the loop").

(** The steps 4) to 9) of both primitives rewrite the nest with MLIR's
    [tilePerfectlyNested] and [normalizeAffineFor], sink the affine.apply
    operations, rename the loops and create the handles.  They are the
    argument [rewriteNest], which receives the function, the band and the
    tile sizes. *)
Definition RewriteNest : Type :=
  FuncOp → list AffineForOp → list Z → PrimitiveResult.

Definition runSplitting (rewriteNest : RewriteNest) (f : FuncOp)
    (splitOp : SplitOp) : PrimitiveResult :=
  let factor := split_factor splitOp in
  match lookupStage f (split_stage splitOp) with
  | None =>
      Some ([EmitError ("Cannot find Stage " +:+ split_stage splitOp)],
            failure, f)
  | Some rootForOp =>
      match findLoop rootForOp (split_loop splitOp) with
      | None =>
          Some ([EmitError ("Cannot find Loop " +:+ split_loop splitOp
                            +:+ " in Stage " +:+ split_stage splitOp)],
                failure, f)
      | Some band0 =>
          ub ← getConstantUpperBound band0;
          if decide (ub ≤ factor) then
            Some ([tilingFactorError factor ub], failure, f)
          else rewriteNest f [band0] [factor]
      end
  end.

(** [findContiguousNestedLoops] of hcl/Support/Utils is not among the
    sources; it is the argument [findContiguousNestedLoops] of the
    primitives that call it: from a loop and the requested names it gives
    the band it found, or nothing. *)
Definition FindContiguousNestedLoops : Type :=
  Operation → list string → option (list AffineForOp).

(** [rootForOp.walk(...)] interrupted by the first loop from which the
    band is found. *)
Definition walkFindBand (find : FindContiguousNestedLoops)
    (rootForOp : Operation) (nameArr : list string)
    : option (list AffineForOp) :=
  head (omap (λ forOp, find forOp nameArr) (walkForOps rootForOp)).

Definition runTiling (find : FindContiguousNestedLoops)
    (rewriteNest : RewriteNest) (f : FuncOp) (tileOp : TileOp)
    : PrimitiveResult :=
  let x_factor := tile_x_factor tileOp in
  let y_factor := tile_y_factor tileOp in
  match lookupStage f (tile_stage tileOp) with
  | None =>
      Some ([EmitError ("Cannot find Stage " +:+ tile_stage tileOp)],
            failure, f)
  | Some rootForOp =>
      match walkFindBand find rootForOp
              [tile_x_loop tileOp; tile_y_loop tileOp] with
      | None =>
          Some ([EmitError
                   ("Cannot find contiguous nested loops starting from Loop "
                    +:+ tile_x_loop tileOp)],
                failure, f)
      | Some band =>
          band0 ← band !! 0%nat;
          ub0 ← getConstantUpperBound band0;
          if decide (ub0 ≤ x_factor) then
            Some ([tilingFactorError x_factor ub0], failure, f)
          else
            band1 ← band !! 1%nat;
            ub1 ← getConstantUpperBound band1;
            if decide (ub1 ≤ y_factor) then
              Some ([tilingFactorError y_factor ub1], failure, f)
            else rewriteNest f band [x_factor; y_factor]
      end
  end.

(** A run that is rejected: whatever the rewriting steps would do, the
    primitive returns failure with one error and the function as it was. *)
Definition rejects (run : RewriteNest → PrimitiveResult) (f : FuncOp) : Prop :=
  ∃ msg, ∀ rewriteNest, run rewriteNest = Some ([EmitError msg], failure, f).

(** A run that goes on to rewrite the band with the tile sizes. *)
Definition proceeds (run : RewriteNest → PrimitiveResult) (f : FuncOp)
    (band : list AffineForOp) (tileSizes : list Z) : Prop :=
  ∀ rewriteNest, run rewriteNest = rewriteNest f band tileSizes.

(** A band finder for examples: the loops named [names], each the first
    operation in the body of the one before, starting at the given loop. *)
Fixpoint nestByNames (names : list string) (o : Operation)
    : option (list AffineForOp) :=
  match names, o with
  | [], _ => Some []
  | name :: rest, AffineFor l body =>
      if decide (getLoopName l = name) then
        match rest, body with
        | [], _ => Some [l]
        | _, inner :: _ => cons l <$> nestByNames rest inner
        | _, [] => None
        end
      else None
  | _, _ => None
  end.

(** ** Reuse buffers: [runReuseAt]

    The model follows the validation of the primitive (steps 2 to 8) and
    the three effects that the properties below are about: the type of the
    buffer (step 9), the new bound of the loop at the reuse axis (step 11)
    and the guard (step 14).  The steps 12, 13 and 15 to 17 rewrite the loads
    and stores and emit the shift loops; they have no exit with failure and
    touch neither the buffer type, nor that bound, nor the guard's set.
    Values of type [int] are integers of [Z]. *)

Record ReuseAtOp := mkReuseAtOp {
  reuse_target : Value;
  reuse_axis : string;
  reuse_stage : string
}.

Record LoadInfo := mkLoad {
  load_memref : Value;
  load_map : AffineMap;
  load_operands : list Value
}.

(** [op.walk([&](AffineLoadOp loadOp) ...)]: the loads in program order. *)
Fixpoint walkLoads (o : Operation) : list LoadInfo :=
  match o with
  | AffineFor _ body => flat_map walkLoads body
  | AffineIf _ _ body => flat_map walkLoads body
  | AffineLoad _ m map ops => [mkLoad m map ops]
  | _ => []
  end.

(** [getLoop] of hcl/Support/Utils is not among the sources; it is the
    argument [getLoop] of the primitive: from the loop of the stage and a
    loop name it gives the axis id and the loop of that name, or nothing
    (the source's -1). *)
Definition GetLoop : Type := Operation → string → option (nat * Operation).

Record LoopClasses := mkClasses {
  nonReductionLoops : list AffineForOp;
  previousShiftLoops : list AffineForOp;
  reductionVars : gmap Value Z      (* induction variable -> upper bound *)
}.

Definition classifyLoop (forOp : AffineForOp) (c : LoopClasses) : LoopClasses :=
  if negb (hasAttr forOp "reduction") && negb (hasAttr forOp "spatial")
     && negb (hasAttr forOp "buffer")
  then mkClasses (nonReductionLoops c ++ [forOp]) (previousShiftLoops c)
                 (reductionVars c)
  else if hasAttr forOp "spatial"
  then mkClasses (nonReductionLoops c) (previousShiftLoops c ++ [forOp])
                 (reductionVars c)
  else if hasAttr forOp "reduction"
  then mkClasses (nonReductionLoops c) (previousShiftLoops c)
                 (<[inductionVar forOp := constantUpperBoundOr0 forOp]>
                    (reductionVars c))
  else c.

(** Step 4: the walk over the loops of the stage; [inl forOp] when it is
    interrupted at a loop that is not normalized. *)
Fixpoint classifyLoops (loops : list AffineForOp) (c : LoopClasses)
    : AffineForOp + LoopClasses :=
  match loops with
  | [] => inr c
  | forOp :: rest =>
      if negb (isNormalizedLoop forOp) then inl forOp
      else classifyLoops rest (classifyLoop forOp c)
  end.

(** Step 5: [dim2iv], from the operands of the loads of the target. *)
Definition dim2ivOf (loads : list LoadInfo) : gmap nat Value :=
  fold_left
    (λ m loadOp,
       fold_left (λ m' '(index, value), <[index := value]> m')
                 (imap (λ index value, (index, value)) (load_operands loadOp))
                 m)
    loads ∅.

(** The bound of the reduction loop whose induction variable a dimension
    stands for, when there is one. *)
Definition reductionBoundOfDim (reductionVars : gmap Value Z)
    (dim2iv : gmap nat Value) (position : nat) : option Z :=
  v ← dim2iv !! position; reductionVars !! v.

(** The loops [for j < cntLoad] of step 5 for a base that is a dimension or
    a constant; [None] is the assertion "Load order is not strict". *)
Definition constantDiffSpan (exprs : list AffineExpr) (baseExpr : AffineExpr)
    : option Z :=
  foldl (λ acc e,
           span ← acc;
           match affineSub e baseExpr with
           | AffineConstantExpr diff => Some (Z.max span (diff + 1))
           | _ => None
           end)
        (Some 0) exprs.

(** The walk over a base that is a binary expression: the state is
    [(span, baseCst)], [cntDim] counts the visited sub-expressions. *)
Definition binarySpan (reductionVars : gmap Value Z) (dim2iv : gmap nat Value)
    (baseExpr : AffineExpr) : Z :=
  fst (foldl
         (λ '(span, baseCst) '(cntDim, expr),
            match expr with
            | AffineDimExpr p =>
                if decide (cntDim = 1%nat) then
                  match reductionBoundOfDim reductionVars dim2iv p with
                  | Some ub => (ub, baseCst)
                  | None => (span, baseCst)
                  end
                else (span, baseCst)
            | AffineConstantExpr cst =>
                let baseCst' := if decide (baseCst = 0) then cst else baseCst in
                (Z.max span (cst - baseCst' + 1), baseCst')
            | _ => (span, baseCst)
            end)
         (0, 0)
         (imap (λ cntDim expr, (cntDim, expr)) (walkExpr baseExpr))).

(** Step 5 for one dimension of the array: the span of the expressions
    that the loads have at this dimension.  [None] when the source has no
    defined result (no load, an assertion). *)
Definition spanOfDim (reductionVars : gmap Value Z) (dim2iv : gmap nat Value)
    (exprs : list AffineExpr) : option Z :=
  baseExpr ← head exprs;
  span ←
    match baseExpr with
    | AffineDimExpr p =>
        span ← constantDiffSpan exprs baseExpr;
        if forallb isDimExpr exprs then
          Some (default span (reductionBoundOfDim reductionVars dim2iv p))
        else Some span
    | AffineConstantExpr _ => constantDiffSpan exprs baseExpr
    | AffineBinaryOpExpr _ _ _ => Some (binarySpan reductionVars dim2iv baseExpr)
    | AffineSymbolExpr _ => None
    end;
  if decide (span = 0) then None else Some span.

(** [originalLoadExprs[i]]: the [i]-th result of the map of every load. *)
Definition loadExprsAt (loads : list LoadInfo) (i : nat)
    : option (list AffineExpr) :=
  mapM (λ loadOp, results (load_map loadOp) !! i) loads.

Definition computeSpans (reductionVars : gmap Value Z) (loads : list LoadInfo)
    (rank : nat) : option (list Z) :=
  mapM (λ i, exprs ← loadExprsAt loads i;
             spanOfDim reductionVars (dim2ivOf loads) exprs)
       (seq 0 rank).

(** [ExprCompare::findConstantExpr]: the last constant of the walk, or -1. *)
Definition findConstantExpr (exp : AffineExpr) : Z :=
  foldl (λ value inner,
           match inner with AffineConstantExpr v => v | _ => value end)
        (-1) (walkExpr exp).

(** Insertion into [std::set<AffineExpr, ExprCompare>]: the elements are
    ordered by [findConstantExpr], and an expression is not inserted when
    the set has one with the same constant. *)
Fixpoint setInsert (e : AffineExpr) (s : list AffineExpr) : list AffineExpr :=
  match s with
  | [] => [e]
  | x :: rest =>
      if decide (findConstantExpr e < findConstantExpr x) then e :: s
      else if decide (findConstantExpr x < findConstantExpr e)
           then x :: setInsert e rest
           else s
  end.

(** The lambda [insertLoadOp]: the loads ordered by the constant of their
    expression at the axis. *)
Fixpoint insertLoadOp (key : LoadInfo → Z) (loadOp : LoadInfo)
    (allLoadOps : list LoadInfo) : list LoadInfo :=
  match allLoadOps with
  | [] => [loadOp]
  | x :: rest =>
      if decide (key loadOp < key x) then loadOp :: allLoadOps
      else x :: insertLoadOp key loadOp rest
  end.

Record AxisState := mkAxisState {
  requestedVars : list AffineExpr;
  allLoadOps : list LoadInfo;
  dimBounds : gmap nat Z;
  axis : option nat;                (* [None] is the source's -1 *)
  distance : Z
}.

(** The state of the loop over the results of one load map in step 6. *)
Record ResultScan := mkScan {
  scan_axis : option nat;
  scan_operandIdx : nat;
  scan_dimBounds : gmap nat Z;
  scan_rDim : option nat
}.

Definition countDims (expr : AffineExpr) (numDims : nat) : nat :=
  length (filter (λ i, isFunctionOfDim expr i = true) (seq 0 numDims)).

(** The search of the axis in one iteration [j] of that loop. *)
Definition scanAxis (ivAxis : Value) (numDims : nat) (operands : list Value)
    (j : nat) (expr : AffineExpr) (s : ResultScan) : option ResultScan :=
  match scan_axis s with
  | Some _ => Some s
  | None =>
      if isDimExpr expr then
        operand ← operands !! scan_operandIdx s;
        Some (mkScan (if decide (operand = ivAxis) then Some j else None)
                     (S (scan_operandIdx s)) (scan_dimBounds s) (scan_rDim s))
      else if isBinaryOpExpr expr then
        operand ← operands !! scan_operandIdx s;
        let axis1 := if decide (operand = ivAxis) then Some j else None in
        if decide (1 < countDims expr numDims)%nat then
          operand' ← operands !! S (scan_operandIdx s);
          Some (mkScan (if decide (operand' = ivAxis) then Some j else axis1)
                       (S (S (scan_operandIdx s)))
                       (scan_dimBounds s) (scan_rDim s))
        else
          Some (mkScan axis1 (S (scan_operandIdx s))
                       (scan_dimBounds s) (scan_rDim s))
      else Some s
  end.

(** The loop [for i < numDims] of one iteration [j]. *)
Definition scanReductionDims (reductionVars : gmap Value Z)
    (numDims : nat) (operands : list Value) (j : nat) (expr : AffineExpr)
    (s : ResultScan) : option ResultScan :=
  foldl (λ acc i,
           s ← acc;
           if isFunctionOfDim expr i then
             operand ← operands !! i;
             match reductionVars !! operand with
             | Some ub =>
                 Some (mkScan (scan_axis s) (scan_operandIdx s)
                              (<[i := ub]> (scan_dimBounds s))
                              (if decide (Some j = scan_axis s) then Some i
                               else scan_rDim s))
             | None => Some s
             end
           else Some s)
        (Some s) (seq 0 numDims).

Definition scanResults (ivAxis : Value) (reductionVars : gmap Value Z)
    (loadOp : LoadInfo) (s : ResultScan) : option ResultScan :=
  let numDims := numDims (load_map loadOp) in
  let operands := load_operands loadOp in
  foldl (λ acc '(j, expr),
           s ← acc;
           s' ← scanAxis ivAxis numDims operands j expr s;
           scanReductionDims reductionVars numDims operands j expr s')
        (Some s)
        (imap (λ j expr, (j, expr)) (results (load_map loadOp))).

(** Step 6 for one load of the target. *)
Definition visitLoad (ivAxis : Value) (reductionVars : gmap Value Z)
    (loadOp : LoadInfo) (st : AxisState) : option AxisState :=
  s ← scanResults ivAxis reductionVars loadOp
        (mkScan (axis st) 0 (dimBounds st) None);
  a ← scan_axis s;                                   (* assert(axis != -1) *)
  expr ← results (load_map loadOp) !! a;
  let key := λ l, findConstantExpr (default expr (results (load_map l) !! a)) in
  let allLoadOps' := insertLoadOp key loadOp (allLoadOps st) in
  match scan_rDim s with
  | Some rDim =>
      operand ← load_operands loadOp !! rDim;
      let ub := default 0 (reductionVars !! operand) in
      let requestedVars' :=
        foldl (λ set j, setInsert (replaceDim expr rDim (AffineConstantExpr j)) set)
              (requestedVars st) (seqZ 0 ub) in
      Some (mkAxisState requestedVars' allLoadOps' (scan_dimBounds s)
                        (Some a) (ub - 1))
  | None =>
      let requestedVars' := setInsert expr (requestedVars st) in
      first ← head requestedVars';
      match affineSub expr first with
      | AffineConstantExpr var =>
          Some (mkAxisState requestedVars' allLoadOps' (scan_dimBounds s)
                            (Some a) (Z.max (distance st) var))
      | _ => None
      end
  end.

Definition visitLoads (ivAxis : Value) (reductionVars : gmap Value Z)
    (loads : list LoadInfo) : option AxisState :=
  foldl (λ acc loadOp, st ← acc; visitLoad ivAxis reductionVars loadOp st)
        (Some (mkAxisState [] [] ∅ None (-1))) loads.

(** Step 7: some requested expression plus one is requested as well. *)
Definition canReuse (requestedVars : list AffineExpr) : bool :=
  existsb (λ var, bool_decide
                    (affineAdd var (AffineConstantExpr 1) ∈ requestedVars))
          requestedVars.

Fixpoint maxDimOf (e : AffineExpr) : nat :=
  match e with
  | AffineDimExpr p => p
  | AffineBinaryOpExpr _ l r => maxDimOf l `max` maxDimOf r
  | _ => 0%nat
  end.

(** The lambda [getReductionDim]: the least dimension with a reduction
    bound that the expression depends on ([None] is the source's -1). *)
Definition getReductionDim (dimBounds : gmap nat Z) (expr : AffineExpr)
    : option nat :=
  head (filter (λ i, is_Some (dimBounds !! i) ∧ isFunctionOfDim expr i = true)
               (seq 0 (S (maxDimOf expr)))).

(** Step 8, as far as it decides the result: a load whose difference to
    the base depends on no reduction dimension has to be at a constant
    stride.  [Some true] when all loads pass, [Some false] at the first
    that does not. *)
Definition checkStrides (st : AxisState) (a : nat) (baseVar : AffineExpr)
    : option bool :=
  foldl (λ acc loadOp,
           ok ← acc;
           if ok : bool then
             var ← results (load_map loadOp) !! a;
             let diff := affineSub var baseVar in
             match getReductionDim (dimBounds st) diff with
             | Some _ => Some true
             | None => Some (isConstantExpr diff)
             end
           else Some false)
        (Some true) (allLoadOps st).

Definition emptyClasses : LoopClasses := mkClasses [] [] ∅.

(** The body of the loop with a given induction variable in a stage. *)
Definition bodyOfLoop (rootForOp : Operation) (iv : Value)
    : option (list Operation) :=
  head (omap (λ o, match o with
                   | AffineFor l body =>
                       if decide (inductionVar l = iv) then Some body else None
                   | _ => None
                   end)
             (walkForOps rootForOp)).

(** [llvm::isa<AffineIfOp>(body->getOperations().front())] *)
Definition startsWithIf (body : list Operation) : bool :=
  match body with AffineIf _ _ _ :: _ => true | _ => false end.

(** An integer set holds for dimension operands when each constraint
    does. *)
Definition integerSetHolds (s : IntegerSet) (dims : list Z) : Prop :=
  Forall2 (λ e (isEq : bool),
             if isEq then evalAffineExpr dims [] e = 0
             else 0 ≤ evalAffineExpr dims [] e)
          (constraints s) (eqFlags s).

Record ReuseAtResult := mkReuseResult {
  buf_shape : list Z;               (* step 9: the shape of the buffer *)
  buf_name : string;
  axisLoop : AffineForOp;           (* step 11: nonReductionLoops[loopAxis] *)
  guardSet : IntegerSet;            (* step 14: the set of the affine.if *)
  guardOperands : list Value;
  guardInsideOuterIf : bool         (* step 14: which branch placed it *)
}.

(** Step 9: the spans greater than 1 before the axis, the window, the
    extents after the axis. *)
Definition reuseBufferShape (spans : list Z) (a : nat) (distance : Z)
    (arrayShape : list Z) : list Z :=
  filter (λ span, 1 < span) (take a spans)
  ++ [distance + 1] ++ drop (S a) arrayShape.

(** Step 14: [d0 - distance >= 0]. *)
Definition reuseGuard (distance : Z) : IntegerSet :=
  mkSet 1 [affineAdd (AffineDimExpr 0) (AffineConstantExpr (- distance))]
        [false].

(** The outer [None] stands for a run that the source does not define (an
    assertion, an access outside a vector); the inner one for failure. *)
Definition runReuseAt (getLoop : GetLoop) (f : FuncOp) (reuseAtOp : ReuseAtOp)
    (arrayType : MemRefType) : option (list Diagnostic * option ReuseAtResult) :=
  let target := reuse_target reuseAtOp in
  let loop_name := reuse_axis reuseAtOp in
  let stage_name := reuse_stage reuseAtOp in
  let rank := getRank arrayType in
  match lookupStage f stage_name with
  | None => Some ([EmitError ("Cannot find Stage " +:+ stage_name)], None)
  | Some rootForOp =>
  match getLoop rootForOp loop_name with
  | None => Some ([EmitError ("Cannot find Loop " +:+ loop_name)], None)
  | Some (loopAxis, reuseLoop) =>
  match classifyLoops (walkLoops rootForOp) emptyClasses with
  | inl forOp =>
      Some ([EmitError ("Loop " +:+ getLoopName forOp +:+
                        " must have (1) constant bounds (2) constant step (3) zero lower bound")],
            None)
  | inr classes =>
      let nonReductionLoops := reverse (nonReductionLoops classes) in
      innerMostForOp ← last nonReductionLoops;
      let loads :=
        filter (λ l, load_memref l = target) (walkLoads reuseLoop) in
      spans ← computeSpans (reductionVars classes) loads rank;
      axisLoop ← nonReductionLoops !! loopAxis;
      st ← visitLoads (inductionVar axisLoop) (reductionVars classes) loads;
      a ← axis st;
      if decide (distance st ≤ -1) then None     (* assert(distance > -1) *)
      else
        let warn := EmitWarning "Need to guarantee the loads have orders" in
        if negb (canReuse (requestedVars st)) then
          Some ([warn;
                 EmitError ("Cannot find reuse pattern on axis " +:+
                            pretty loopAxis +:+
                            ". Only support stride 1 reuse pattern now")],
                None)
        else
          baseVar ← head (requestedVars st);
          ok ← checkStrides st a baseVar;
          if negb ok then
            Some ([warn; EmitError "Cannot support non-constant stride"], None)
          else
            extent ← shape arrayType !! a;
            body ← bodyOfLoop rootForOp (inductionVar axisLoop);
            insideOuterIf ←
              (if startsWithIf body then
                 innerBody ← bodyOfLoop rootForOp (inductionVar innerMostForOp);
                 if startsWithIf innerBody then Some true else None
               else Some false);
            Some ([warn],
                  Some (mkReuseResult
                          (reuseBufferShape spans a (distance st)
                                            (shape arrayType))
                          (stage_name +:+ "_reuse_" +:+ pretty loopAxis)
                          (setConstantUpperBound axisLoop extent)
                          (reuseGuard (distance st))
                          [inductionVar axisLoop]
                          insideOuterIf))
  end end end.

(** A [getLoop] for examples: the depth and the loop of the given name in
    the chain of first operations below a loop. *)
Fixpoint getLoopInNest (cnt : nat) (name : string) (o : Operation)
    : option (nat * Operation) :=
  match o with
  | AffineFor l body =>
      if decide (getLoopName l = name) then Some (cnt, o)
      else match body with
           | inner :: _ => getLoopInNest (S cnt) name inner
           | [] => None
           end
  | _ => None
  end.

(** The 1-D stencil [b[x] = a[x] + a[x+1] + a[x+2]] for [x] in [0, 8), with
    [a] of 10 elements. *)
Definition stencilLoop : AffineForOp :=
  mkFor "x" (Some "s") 1 (ConstantBound 0) (ConstantBound 8) 0%nat [].

Definition stencilFunc : FuncOp :=
  [ AffineFor stencilLoop
      [ AffineLoad 10%nat 100%nat (mkMap 1 [AffineDimExpr 0]) [0%nat];
        AffineLoad 11%nat 100%nat
          (mkMap 1 [AffineBinaryOpExpr Add (AffineDimExpr 0)
                                       (AffineConstantExpr 1)]) [0%nat];
        AffineLoad 12%nat 100%nat
          (mkMap 1 [AffineBinaryOpExpr Add (AffineDimExpr 0)
                                       (AffineConstantExpr 2)]) [0%nat];
        OtherOp "arith.addi" [10%nat; 11%nat] [13%nat];
        OtherOp "arith.addi" [13%nat; 12%nat] [14%nat];
        AffineStore 14%nat 101%nat (mkMap 1 [AffineDimExpr 0]) [0%nat] ] ].

Definition stencilOp : ReuseAtOp := mkReuseAtOp 100%nat "x" "s".
Definition stencilArray : MemRefType := mkMemRef [10] (identityLayout 1).

(** ** Fuse: [runFusing] *)

Record FuseOp := mkFuseOp {
  fuse_stage : string;
  fuse_loops : list string          (* the loop names of the handle operands *)
}.

(** Step 6: [name1_..._nameK_fused]. *)
Definition fusedLoopName (nameArr : list string) : string :=
  foldl (λ new_name name, new_name +:+ name +:+ "_") "" nameArr +:+ "fused".

(** The steps 5) to 7) (constant propagation into the affine maps, the name
    of the new loop, the new handle) are the argument [finishFusing], which
    receives the function, the coalesced loop and its name. *)
Definition FinishFusing : Type :=
  FuncOp → CoalescedLoop → string → PrimitiveResult.

Definition runFusing (find : FindContiguousNestedLoops)
    (finishFusing : FinishFusing) (f : FuncOp) (fuseOp : FuseOp)
    : PrimitiveResult :=
  let nameArr := fuse_loops fuseOp in
  let sizeOfFusedLoops := length nameArr in
  if decide (sizeOfFusedLoops < 2)%nat then
    Some ([EmitError "Should at least input 2 loops to be fused"], failure, f)
  else
    match lookupStage f (fuse_stage fuseOp) with
    | None =>
        Some ([EmitError ("Cannot find Stage " +:+ fuse_stage fuseOp)],
              failure, f)
    | Some rootForOp =>
        match walkFindBand find rootForOp nameArr with
        | None =>
            Some ([EmitError
                     ("Cannot find contiguous nested loops starting from Loop "
                      +:+ default "" (head nameArr) +:+
                      ". Please specify the loop to be fused from outermost to innermost.")],
                  failure, f)
        | Some band =>
            (* makeMutableArrayRef(band.data(), sizeOfFusedLoops) *)
            if decide (length band < sizeOfFusedLoops)%nat then None
            else
              match coalesceLoops (take sizeOfFusedLoops band) with
              | None => Some ([], failure, f)
              | Some coalesced =>
                  finishFusing f coalesced (fusedLoopName nameArr)
              end
        end
    end.

(** ** The schedule driver

    The driver is modelled over a state of the module and the primitives
    as they act on it: [runPrimitive op] is the primitive of the kind of
    [op] ([runSplitting], [runTiling], ...), [findArray op] the search of the
    target array of [op], [stageFuncKnown op] the test
    [funcMap.count(stage_name) > 0] of [runSchedule], and [eraseScheduleOp]
    the removal of the statements at the end. *)

Inductive HCLOpKind :=
| IsSplitOp | IsTileOp | IsReorderOp | IsUnrollOp | IsPipelineOp
| IsParallelOp | IsFuseOp | IsComputeAtOp | IsPartitionOp | IsReuseAtOp
| IsBufferAtOp | IsOutlineOp | IsReshapeOp | IsLayoutOp | IsThreadBindOp
| IsInterKernelToOp.

Global Instance HCLOpKind_eq_dec : EqDecision HCLOpKind.
Proof. solve_decision. Defined.

Record ScheduleOp := mkScheduleOp {
  sched_kind : HCLOpKind;
  sched_id : nat                    (* which statement of the program *)
}.

Global Instance ScheduleOp_eq_dec : EqDecision ScheduleOp.
Proof. solve_decision. Defined.

(** An operation of a function body: a schedule statement ([isHCLOp]) or
    anything else. *)
Inductive FuncItem :=
| HCLOp (op : ScheduleOp)
| NonHCLOp.

Record Primitives (State : Type) := mkPrimitives {
  runPrimitive : ScheduleOp → State → LogicalResult * State;
  findArray : ScheduleOp → State → bool;
  stageFuncKnown : ScheduleOp → State → bool;
  eraseScheduleOp : list ScheduleOp → State → State
}.
Arguments mkPrimitives {State}.
Arguments runPrimitive {State}.
Arguments findArray {State}.
Arguments stageFuncKnown {State}.
Arguments eraseScheduleOp {State}.

(** The dispatch of [applyLoopTransformationOnSingleFunction] for one
    statement; [failure] makes the driver return false. *)
Definition dispatchSingle {State} (p : Primitives State) (op : ScheduleOp)
    (st : State) : LogicalResult * State :=
  match sched_kind op with
  | IsPartitionOp | IsReshapeOp | IsLayoutOp | IsInterKernelToOp =>
      if findArray p op st then runPrimitive p op st else (failure, st)
  | _ => runPrimitive p op st
  end.

(** The loop over the operations of the function.  The result is what the
    driver returns, the state, and the statements it handled, in the order
    it handled them; when it returns true these are the statements of
    [opToRemove], which it erases from back to front. *)
Fixpoint applyLoopTransformationOnSingleFunction {State}
    (p : Primitives State) (ops : list FuncItem) (st : State)
    (handled : list ScheduleOp) : bool * State * list ScheduleOp :=
  match ops with
  | [] => (true, eraseScheduleOp p (reverse handled) st, handled)
  | NonHCLOp :: rest =>
      applyLoopTransformationOnSingleFunction p rest st handled
  | HCLOp op :: rest =>
      match dispatchSingle p op st with
      | (failure, st') => (false, st', handled ++ [op])
      | (success, st') =>
          applyLoopTransformationOnSingleFunction p rest st' (handled ++ [op])
      end
  end.

(** [runSchedule]: the primitive runs when the stage's function is known;
    the result says whether it ran and succeeded. *)
Definition runSchedule {State} (p : Primitives State) (op : ScheduleOp)
    (st : State) : bool * State :=
  if stageFuncKnown p op st then
    match runPrimitive p op st with
    | (success, st') => (true, st')
    | (failure, st') => (false, st')
    end
  else (false, st).

(** The dispatch of the top-function mode of [applyLoopTransformation] for
    one statement; [failure] makes the driver return false. *)
Definition dispatchTop {State} (p : Primitives State) (op : ScheduleOp)
    (st : State) : LogicalResult * State :=
  match sched_kind op with
  | IsSplitOp | IsTileOp | IsReorderOp | IsUnrollOp | IsPipelineOp
  | IsThreadBindOp | IsParallelOp | IsFuseOp | IsReuseAtOp | IsBufferAtOp =>
      (success, snd (runSchedule p op st))  (* the result is not looked at *)
  | IsComputeAtOp => (success, st)          (* the call is commented out *)
  | IsPartitionOp | IsReshapeOp =>
      if findArray p op st then runPrimitive p op st else (failure, st)
  | IsInterKernelToOp =>
      if findArray p op st then runPrimitive p op st else (failure, st)
  | IsLayoutOp | IsOutlineOp => (success, st)   (* no branch for them *)
  end.

Fixpoint applyLoopTransformationOnTopFunction {State}
    (p : Primitives State) (ops : list FuncItem) (st : State)
    (handled : list ScheduleOp) : bool * State * list ScheduleOp :=
  match ops with
  | [] => (true, eraseScheduleOp p (reverse handled) st, handled)
  | NonHCLOp :: rest =>
      applyLoopTransformationOnTopFunction p rest st handled
  | HCLOp op :: rest =>
      match dispatchTop p op st with
      | (failure, st') => (false, st', handled ++ [op])
      | (success, st') =>
          applyLoopTransformationOnTopFunction p rest st' (handled ++ [op])
      end
  end.

(** A function of the module: whether it carries the attribute [top], and
    its operations. *)
Record FuncInfo := mkFuncInfo {
  func_top : bool;
  func_ops : list FuncItem
}.

(** [applyLoopTransformation]: with a top function the schedule of that
    function is applied in the top-function mode; without one every function
    is given to the single-function driver, whose result is not looked at. *)
Definition applyLoopTransformation {State} (p : Primitives State)
    (theModule : list FuncInfo) (st : State)
    : bool * State * list ScheduleOp :=
  match List.find func_top theModule with
  | Some top_func =>
      applyLoopTransformationOnTopFunction p (func_ops top_func) st []
  | None =>
      let '(st', handled) :=
        foldl (λ '(st, handled) f,
                 let '(_, st', handled') :=
                   applyLoopTransformationOnSingleFunction p (func_ops f) st []
                 in (st', handled ++ handled'))
              (st, []) theModule in
      (true, st', handled)
  end.

(** The schedule statements of a function body, in program order. *)
Definition scheduleOps (ops : list FuncItem) : list ScheduleOp :=
  omap (λ item, match item with HCLOp op => Some op | NonHCLOp => None end) ops.

(** ** Dead memref elimination: [lib/Transforms/MemRefDCE.cpp]

    An operation is its identity, its name, its results and its operands.
    The operations that hold regions (affine.for, affine.if) have no
    result and no memref among their operands, so they are neither users of
    an allocation nor erased by the pass; they only carry their body. *)

Record OpInfo := mkOpInfo {
  op_id : nat;
  op_name : string;
  op_results : list Value;
  op_operands : list Value
}.

Global Instance OpInfo_eq_dec : EqDecision OpInfo.
Proof. solve_decision. Defined.

#[warnings="-register-all"]
Inductive DceNode :=
| DceOp (op : OpInfo)
| DceRegionOp (name : string) (body : list DceNode).

Definition DceFunc := list DceNode.

(** [func.walk]: the operations without region, in program order. *)
Fixpoint walkNode (n : DceNode) : list OpInfo :=
  match n with
  | DceOp op => [op]
  | DceRegionOp _ body => flat_map walkNode body
  end.

Definition walkOps (f : DceFunc) : list OpInfo := flat_map walkNode f.

Definition isAllocOp (op : OpInfo) : bool :=
  bool_decide (op_name op = "memref.alloc").

(** The users that make an allocation count as loaded:
    memref.load, affine.load, func.return, func.call. *)
Definition isLoadReturnOrCall (u : OpInfo) : bool :=
  bool_decide (op_name u ∈ ["memref.load"; "affine.load";
                            "func.return"; "func.call"]).

(** [v.getUsers()] *)
Definition getUsers (f : DceFunc) (v : Value) : list OpInfo :=
  filter (λ u, v ∈ op_operands u) (walkOps f).

(** [op->use_empty()] *)
Definition use_empty (f : DceFunc) (op : OpInfo) : bool :=
  forallb (λ v, bool_decide (getUsers f v = [])) (op_results op).

(** [op->erase()] for the operations with the given identities. *)
Fixpoint eraseNode (dead : list nat) (n : DceNode) : list DceNode :=
  match n with
  | DceOp op => if decide (op_id op ∈ dead) then [] else [n]
  | DceRegionOp name body => [DceRegionOp name (flat_map (eraseNode dead) body)]
  end.

Definition eraseOps (dead : list nat) (f : DceFunc) : DceFunc :=
  flat_map (eraseNode dead) f.

(** The body of the loop over [memRefAllocOps]: [v] is [op->getResult(0)];
    an allocation without a user that is a load, a return or a call is
    erased after all its users. *)
Definition removeIfNeverLoaded (f : DceFunc) (op : OpInfo) : DceFunc :=
  match op_results op with
  | v :: _ =>
      if existsb isLoadReturnOrCall (getUsers f v) then f
      else eraseOps ((op_id <$> getUsers f v) ++ [op_id op]) f
  | [] => f
  end.

Definition removeNeverLoadedMemRef (f : DceFunc) : DceFunc :=
  foldl removeIfNeverLoaded f (reverse (filter (λ op, isAllocOp op = true)
                                               (walkOps f))).

(** The callback of the walk of [cleanUpUnusedOps]. *)
Definition cleanUpOp (f : DceFunc) (op : OpInfo) : DceFunc :=
  if bool_decide (op_results op ≠ []) && use_empty f op
  then eraseOps [op_id op] f else f.

Definition cleanUpUnusedOps (f : DceFunc) : DceFunc :=
  foldl cleanUpOp f (walkOps f).

(** [applyMemRefDCE] on the functions of a module; it returns true. *)
Definition applyMemRefDCE (theModule : list DceFunc) : bool * list DceFunc :=
  (true, (λ f, cleanUpUnusedOps (removeNeverLoadedMemRef f)) <$> theModule).

(** The first result of an allocation has a user that is a load, a return
    or a call. *)
Definition isLoadedFrom (f : DceFunc) (op : OpInfo) : bool :=
  match op_results op with
  | v :: _ => existsb isLoadReturnOrCall (getUsers f v)
  | [] => true
  end.

(** What a function has to satisfy as MLIR: the operations are distinct,
    an allocation has no allocation among its operands (its operands are
    sizes), and the users of an allocation come after it. *)
Record wellFormedFunc (f : DceFunc) : Prop := mkWellFormed {
  wf_ids : NoDup (op_id <$> walkOps f);
  wf_alloc_operands :
    ∀ a b v, a ∈ walkOps f → b ∈ walkOps f →
             isAllocOp a = true → isAllocOp b = true →
             v ∈ op_results a → v ∉ op_operands b;
  wf_dominance :
    ∀ (i j : nat) a u v,
      walkOps f !! i = Some a → walkOps f !! j = Some u →
      isAllocOp a = true → v ∈ op_results a → v ∈ op_operands u →
      (i < j)%nat
}.

(** An operation goes with a never-loaded allocation [a] when it is [a]
    or uses the first result of [a]. *)
Definition goesWith (f : DceFunc) (a o : OpInfo) : bool :=
  match op_results a with
  | v :: _ =>
      negb (existsb isLoadReturnOrCall (getUsers f v))
      && (bool_decide (op_id o = op_id a) || bool_decide (v ∈ op_operands o))
  | [] => false
  end.

(** A check of [wellFormedFunc] that computes. *)
Definition indexedOps (f : DceFunc) : list (nat * OpInfo) :=
  imap (λ i op, (i, op)) (walkOps f).

Definition checkedWellFormed (f : DceFunc) : Prop :=
  NoDup (op_id <$> walkOps f) ∧
  Forall (λ a, Forall (λ b, isAllocOp a = true → isAllocOp b = true →
                            Forall (λ v, v ∉ op_operands b) (op_results a))
                      (walkOps f))
         (walkOps f) ∧
  Forall (λ ia, Forall (λ ju, isAllocOp ia.2 = true →
                              Forall (λ v, v ∈ op_operands ju.2 →
                                           (ia.1 < ju.1)%nat)
                                     (op_results ia.2))
                       (indexedOps f))
         (indexedOps f).

(** A function for examples: [%a] is loaded in a loop, [%b] is only
    stored to. *)
Definition dceExampleAllocA : OpInfo := mkOpInfo 0 "memref.alloc" [100%nat] [].
Definition dceExampleAllocB : OpInfo := mkOpInfo 1 "memref.alloc" [101%nat] [].
Definition dceExampleFunc : DceFunc :=
  [ DceOp dceExampleAllocA;
    DceOp dceExampleAllocB;
    DceRegionOp "affine.for"
      [ DceOp (mkOpInfo 2 "affine.load" [102%nat] [100%nat]);
        DceOp (mkOpInfo 3 "affine.store" [] [102%nat; 101%nat]) ];
    DceOp (mkOpInfo 4 "func.return" [] []) ].

(** ** Further examples for the fuse primitive *)

(** Two normalized loops of 2^32 iterations each: the product of the trip
    counts is 2^64. *)
Definition wideLoops : list AffineForOp :=
  [ mkFor "i" (Some "s") 1 (ConstantBound 0) (ConstantBound (2 ^ 32)) 0%nat [];
    mkFor "j" None 1 (ConstantBound 0) (ConstantBound (2 ^ 32)) 1%nat [] ].

(** A stage [s] of two normalized loops [i], [j] around a store. *)
Definition fuseExampleFunc : FuncOp :=
  [ AffineFor (mkFor "i" (Some "s") 1 (ConstantBound 0) (ConstantBound 4)
                     0%nat [])
      [ AffineFor (mkFor "j" None 1 (ConstantBound 0) (ConstantBound 8)
                         1%nat [])
          [ AffineStore 10%nat 100%nat
              (mkMap 2 [AffineDimExpr 0; AffineDimExpr 1]) [0%nat; 1%nat] ] ] ].

Definition fuseExampleOp : FuseOp := mkFuseOp "s" ["i"; "j"].

(** A continuation that records the fused loop in place of the stage. *)
Definition recordFused : FinishFusing :=
  λ f c name,
    Some ([], success,
          [AffineFor (mkFor name (stage_name (fusedLoop c)) (step (fusedLoop c))
                            (lowerBound (fusedLoop c)) (upperBound (fusedLoop c))
                            (inductionVar (fusedLoop c)) (attrs (fusedLoop c)))
                     []]).

(** ** Further examples for the reorder primitive *)

(** A stage whose perfect nest is a single loop. *)
Definition singleLoopFunc : FuncOp :=
  [ AffineFor (mkFor "i" (Some "s") 1 (ConstantBound 0) (ConstantBound 4)
                     0%nat [])
      [ AffineStore 10%nat 100%nat (mkMap 1 [AffineDimExpr 0]) [0%nat] ] ].

(** ** Further examples for the schedule driver *)

(** Primitives that log the statements they run; no array is ever found. *)
Definition noArrayPrimitives : Primitives (list ScheduleOp) :=
  mkPrimitives (λ op st, (success, st ++ [op]))
               (λ _ _, false) (λ _ _, true) (λ _ st, st).

Definition somePartition : ScheduleOp := mkScheduleOp IsPartitionOp 1.
Definition someUnroll : ScheduleOp := mkScheduleOp IsUnrollOp 0.

(** ** Further examples for the dead-memref pass *)

(** A chain of two operations whose results nobody needs: [%c] is only
    used by [%d], and [%d] is not used. *)
Definition dceChainProducer : OpInfo :=
  mkOpInfo 0 "arith.constant" [100%nat] [].
Definition dceChainConsumer : OpInfo :=
  mkOpInfo 1 "arith.addi" [101%nat] [100%nat; 100%nat].
Definition dceChainFunc : DceFunc :=
  [ DceOp dceChainProducer; DceOp dceChainConsumer;
    DceOp (mkOpInfo 2 "func.return" [] []) ].

(** A function that stores into an array it also loads from. *)
Definition dceStoreOp : OpInfo :=
  mkOpInfo 2 "affine.store" [] [102%nat; 100%nat].
Definition dceStoreFunc : DceFunc :=
  [ DceOp (mkOpInfo 0 "memref.alloc" [100%nat] []);
    DceOp (mkOpInfo 1 "affine.load" [102%nat] [100%nat]);
    DceOp dceStoreOp;
    DceOp (mkOpInfo 3 "func.return" [] []) ].

(** ** Further examples for the partition primitive *)

(** A complete partition of a 1-D array of 8 elements, without factor. *)
Definition completeWitnessOp : PartitionOp :=
  mkPartitionOp CompletePartition 0 None.
Definition completeWitnessType : MemRefType := mkMemRef [8] (identityLayout 1).
Definition completeWitnessResult : MemRefType :=
  mkMemRef [8] [AffineDimExpr 0; AffineConstantExpr 0].

(** ** Reshape: [runReshape]

    The users of the array are given by the affine maps of the loads and
    stores among them; the primitive has no exit with failure.  A read
    outside a vector or outside the results of a map has no result. *)

(** Step 1: [prodOldShape], built by the loop
    [for (int i = oldRank - 1; i >= 0; --i)]; the argument [n] is [i + 1]. *)
Fixpoint prodOldShapeLoop (oldShape : list Z) (oldRank n : nat)
    (prodOldShape : list Z) : option (list Z) :=
  match n with
  | O => Some prodOldShape
  | S i =>
      d ← oldShape !! i;
      p ← prodOldShape !! (oldRank - 1 - i)%nat;
      prodOldShapeLoop oldShape oldRank i (prodOldShape ++ [wrap64 (d * p)])
  end.

(** Step 3, first loop: the linear address
    [idx * prodOldShape[oldRank - i - 1] + linear_addr] for [i] from
    [oldRank - 1] down to 0; the argument [n] is [i + 1]. *)
Fixpoint linearAddrLoop (oldResults : list AffineExpr) (prodOldShape : list Z)
    (oldRank n : nat) (linear_addr : AffineExpr) : option AffineExpr :=
  match n with
  | O => Some linear_addr
  | S i =>
      idx ← oldResults !! i;
      p ← prodOldShape !! (oldRank - i - 1)%nat;
      linearAddrLoop oldResults prodOldShape oldRank i
        (affineAdd (affineMulConst idx p) linear_addr)
  end.

(** Step 3, second loop: [for (int i = 1; i < newRank; ++i)], with the
    number of iterations that remain as [todo]. *)
Fixpoint reshapeIndicesLoop (newShape : list Z) (newRank i todo : nat)
    (memAffineIndices : list AffineExpr) (linear_addr : AffineExpr)
    : option (list AffineExpr * AffineExpr) :=
  match todo with
  | O => Some (memAffineIndices, linear_addr)
  | S todo =>
      n ← newShape !! (newRank - i)%nat;
      reshapeIndicesLoop newShape newRank (S i) todo
        (memAffineIndices ++ [affineMod linear_addr n])
        (affineFloorDiv linear_addr n)
  end.

(** MLIR's [willBeValidAffineMap(dimCount, symbolCount, results)], which
    [AffineMap::get] asserts: every dimension and every symbol that a result
    uses is one the map declares. *)
Fixpoint exprWithin (dimCount symbolCount : nat) (e : AffineExpr) : bool :=
  match e with
  | AffineDimExpr p => bool_decide (p < dimCount)%nat
  | AffineSymbolExpr p => bool_decide (p < symbolCount)%nat
  | AffineConstantExpr _ => true
  | AffineBinaryOpExpr _ l r =>
      exprWithin dimCount symbolCount l && exprWithin dimCount symbolCount r
  end.

Definition willBeValidAffineMap (dimCount symbolCount : nat)
    (results : list AffineExpr) : bool :=
  forallb (exprWithin dimCount symbolCount) results.

(** The affine map given to the load or the store that replaces a user of
    the array (the two branches of the loop over the users compute it in the
    same way); [indices] are the operands [op.indices()] of the user.  The
    map is built by [AffineMap::get(oldRank, 0, memAffineIndices)], which
    has no result when an index uses a dimension from [oldRank] on or a
    symbol, and the new operation is built on the old operands, which has no
    result when their number is not the number of inputs of the map. *)
Definition reshapeAccessMap (oldShape newShape : list Z)
    (oldAffineMap : AffineMap) (indices : list Value) : option AffineMap :=
  let oldRank := length oldShape in
  let newRank := length newShape in
  prodOldShape ← prodOldShapeLoop oldShape oldRank oldRank [1];
  linear_addr ← linearAddrLoop (results oldAffineMap) prodOldShape oldRank
                  oldRank (AffineConstantExpr 0);
  '(memAffineIndices, linear_addr) ←
    reshapeIndicesLoop newShape newRank 1 (newRank - 1) [] linear_addr;
  let memAffineIndices := reverse (memAffineIndices ++ [linear_addr]) in
  if negb (willBeValidAffineMap oldRank 0 memAffineIndices) then None
  else if decide (length indices ≠ oldRank) then None
  else Some (mkMap oldRank memAffineIndices).

(** The row-major address of an index tuple in an array of a shape. *)
Fixpoint rowMajor (shape vals : list Z) : Z :=
  match shape, vals with
  | _ :: inner, v :: rest => v * product inner + rowMajor inner rest
  | _, _ => 0
  end.

(** An index tuple inside an array of a shape. *)
Definition inBounds (shape vals : list Z) : Prop :=
  Forall2 (λ v d, 0 ≤ v < d) vals shape.

(** A 2 x 6 array read at [(i, j)], reshaped to 3 x 4. *)
Definition reshapeExampleMap : AffineMap :=
  mkMap 2 [AffineDimExpr 0; AffineDimExpr 1].
Definition reshapeExampleResult : AffineMap :=
  mkMap 2
    [ AffineBinaryOpExpr FloorDiv
        (AffineBinaryOpExpr Add
           (AffineBinaryOpExpr Mul (AffineDimExpr 0) (AffineConstantExpr 6))
           (AffineDimExpr 1))
        (AffineConstantExpr 4);
      AffineBinaryOpExpr Mod
        (AffineBinaryOpExpr Add
           (AffineBinaryOpExpr Mul (AffineDimExpr 0) (AffineConstantExpr 6))
           (AffineDimExpr 1))
        (AffineConstantExpr 4) ].

(** A 1-D array of 8 elements read at [i + r], where [i] and [r] are two
    loop variables: the map of the access has two dimensions. *)
Definition reshapeWindowMap : AffineMap :=
  mkMap 2 [AffineBinaryOpExpr Add (AffineDimExpr 0) (AffineDimExpr 1)].

(** ** Layout: [runLayout], [updateMemrefAccess] *)

(** [dim.cast<AffineDimExpr>().getPosition()]; the cast of another
    expression is an assertion. *)
Definition dimPosition (e : AffineExpr) : option nat :=
  match e with AffineDimExpr p => Some p | _ => None end.

(** [updateMemrefAccess]: the map set on a load or a store of the array. *)
Definition updateMemrefAccess (oldAffineMap : AffineMap)
    (dimExprs : list AffineExpr) : option AffineMap :=
  memAffineIndices ←
    mapM (λ dim, pos ← dimPosition dim; results oldAffineMap !! pos) dimExprs;
  Some (mkMap (numDims oldAffineMap) memAffineIndices).

(** [runLayout]: the new type of the array (step 2 and 3; the type is built
    from the shape and the element type only, so its layout is the identity)
    and the maps of its loads and stores (step 4). *)
Definition runLayout (layoutMap : list AffineExpr) (oldType : MemRefType)
    (accessMaps : list AffineMap) : option (MemRefType * list AffineMap) :=
  newShape ← mapM (λ dim, pos ← dimPosition dim; shape oldType !! pos)
                  layoutMap;
  maps ← mapM (λ m, updateMemrefAccess m layoutMap) accessMaps;
  Some (mkMemRef newShape (identityLayout (length newShape)), maps).

(** A 2 x 3 array read at [(i, j + 1)], and its transposition. *)
Definition layoutExampleType : MemRefType := mkMemRef [2; 3] (identityLayout 2).
Definition layoutExampleMap : AffineMap :=
  mkMap 2 [AffineDimExpr 0;
           AffineBinaryOpExpr Add (AffineDimExpr 1) (AffineConstantExpr 1)].
Definition transposeLayout : list AffineExpr := [AffineDimExpr 1; AffineDimExpr 0].
Definition layoutExampleNewType : MemRefType :=
  mkMemRef [3; 2] (identityLayout 2).
Definition layoutExampleNewMap : AffineMap :=
  mkMap 2 [AffineBinaryOpExpr Add (AffineDimExpr 1) (AffineConstantExpr 1);
           AffineDimExpr 0].

(** ** Any-width integers: [lib/Transforms/AnyWidthInteger.cpp]

    [castIntMemRef] of hcl/Support/Utils is not among the sources; a call
    of it is recorded with the argument it converts, the width and the
    signedness it is given.  The function has one block, the entry block,
    whose arguments are the arguments of the function. *)

Inductive ElementType :=
| IntegerElement (width : nat)
| OtherElement (name : string).

Inductive ArgType :=
| MemRefArg (argShape : list Z) (element : ElementType)
| OtherArg (name : string).

Global Instance ElementType_eq_dec : EqDecision ElementType.
Proof. solve_decision. Defined.
Global Instance ArgType_eq_dec : EqDecision ArgType.
Proof. solve_decision. Defined.

(** The body of the loops over [result_types] and [arg_types] (lines
    45-73): a memref of integers is pushed with 64-bit elements, another
    memref as it is, and a type that is not a memref is not pushed. *)
Definition widenType (t : ArgType) : option ArgType :=
  match t with
  | MemRefArg argShape (IntegerElement _) =>
      Some (MemRefArg argShape (IntegerElement 64))
  | MemRefArg _ _ => Some t
  | OtherArg _ => None
  end.

Definition newSignatureTypes (tys : list ArgType) : list ArgType :=
  omap widenType tys.

(** [i < itypes.length() && itypes[i] == 'u'] *)
Definition isUnsignedHint (hints : string) (i : nat) : bool :=
  bool_decide (String.substring i 1 hints = "u").

(** A call of [castIntMemRef]: the block argument, the width and the
    signedness. *)
Record CastCall := mkCast {
  cast_arg : nat;
  cast_width : nat;
  cast_unsigned : bool
}.

(** The loop over the block arguments (lines 92-115), from argument [i]
    on: the types the arguments get and the casts of the integer arguments,
    in the order of [newMemRefs].  [argType.cast<MemRefType>()] on another
    type is an assertion. *)
Fixpoint castBlockArgs (itypes : string) (i : nat) (args : list ArgType)
    : option (list ArgType * list CastCall) :=
  match args with
  | [] => Some ([], [])
  | MemRefArg argShape (IntegerElement oldWidth) :: rest =>
      '(tys, casts) ← castBlockArgs itypes (S i) rest;
      Some (MemRefArg argShape (IntegerElement 64) :: tys,
            mkCast i oldWidth (isUnsignedHint itypes i) :: casts)
  | MemRefArg argShape et :: rest =>
      '(tys, casts) ← castBlockArgs itypes (S i) rest;
      Some (MemRefArg argShape et :: tys, casts)
  | OtherArg _ :: _ => None
  end.

(** The loop "Cast the input arguments" before a return (lines 146-155):
    [v.index()] counts the entries of [newMemRefs]. *)
Definition castBackArgs (itypes : string) (casts : list CastCall)
    : list CastCall :=
  imap (λ index c, mkCast (cast_arg c) 64 (isUnsignedHint itypes index)) casts.

Definition isIntegerMemRef (t : ArgType) : bool :=
  match t with MemRefArg _ (IntegerElement _) => true | _ => false end.

(** ** Further examples for the reuse primitive *)

(** The stencil stage followed, in the same loop nest, by an inner loop
    with step 2 that does not touch the reused array. *)
Definition stridedInnerLoop : AffineForOp :=
  mkFor "r" None 2 (ConstantBound 0) (ConstantBound 4) 1%nat [].

Definition stencilWithStridedLoop : FuncOp :=
  [ AffineFor stencilLoop
      [ AffineLoad 10%nat 100%nat (mkMap 1 [AffineDimExpr 0]) [0%nat];
        AffineFor stridedInnerLoop
          [ AffineStore 10%nat 101%nat (mkMap 1 [AffineDimExpr 1]) [1%nat] ] ] ].

(** ** Loop attributes: [runUnrolling], [runParallel], [runPipelining],
    [runThreadBind]

    [setIntAttr] of hcl/Support/Utils is not among the sources; the
    attribute a primitive sets is returned as the loop, the name of the
    attribute and its value.  The factor, the initiation interval and the
    thread dimension are below 2^31, so that their conversion to [int] is the
    number itself. *)

Record IntAttr := mkIntAttr {
  attr_loop : AffineForOp;
  attr_name : string;
  attr_value : Z
}.

Definition AttrResult : Type := list Diagnostic * LogicalResult * option IntAttr.

(** Step 3 of the four primitives: the walk over the loops of the stage is
    interrupted at the first loop of the requested name, which gets the
    attribute. *)
Definition walkSetIntAttr (rootForOp : Operation) (loop_name attrName : string)
    (value : Z) : AttrResult :=
  match List.find (λ forOp, bool_decide (loop_name = getLoopName forOp))
                  (walkLoops rootForOp) with
  | Some forOp => ([], success, Some (mkIntAttr forOp attrName value))
  | None => ([EmitError ("Cannot find Loop " +:+ loop_name)], failure, None)
  end.

Record UnrollOp := mkUnrollOp {
  unroll_stage : string;
  unroll_loop : string;
  unroll_factor : option Z
}.

Definition runUnrolling (f : FuncOp) (unrollOp : UnrollOp) : AttrResult :=
  let factor := default 0 (unroll_factor unrollOp) in   (* 0: fully unroll *)
  match lookupStage f (unroll_stage unrollOp) with
  | None =>
      ([EmitError ("Cannot find Stage " +:+ unroll_stage unrollOp)],
       failure, None)
  | Some rootForOp =>
      walkSetIntAttr rootForOp (unroll_loop unrollOp) "unroll" factor
  end.

Record ParallelOp := mkParallelOp {
  parallel_stage : string;
  parallel_loop : string
}.

Definition runParallel (f : FuncOp) (parallelOp : ParallelOp) : AttrResult :=
  match lookupStage f (parallel_stage parallelOp) with
  | None =>
      ([EmitError ("Cannot find Stage " +:+ parallel_stage parallelOp)],
       failure, None)
  | Some rootForOp =>
      walkSetIntAttr rootForOp (parallel_loop parallelOp) "parallel" 1
  end.

Record PipelineOp := mkPipelineOp {
  pipeline_stage : string;
  pipeline_loop : string;
  pipeline_ii : option Z
}.

Definition runPipelining (f : FuncOp) (pipelineOp : PipelineOp) : AttrResult :=
  let ii := default 1 (pipeline_ii pipelineOp) in
  match lookupStage f (pipeline_stage pipelineOp) with
  | None =>
      ([EmitError ("Cannot find Stage " +:+ pipeline_stage pipelineOp)],
       failure, None)
  | Some rootForOp =>
      walkSetIntAttr rootForOp (pipeline_loop pipelineOp) "pipeline_ii" ii
  end.

Record ThreadBindOp := mkThreadBindOp {
  thread_stage : string;
  thread_loop : string;
  thread_dim : Z
}.

Definition runThreadBind (f : FuncOp) (threadBindOp : ThreadBindOp)
    : AttrResult :=
  match lookupStage f (thread_stage threadBindOp) with
  | None =>
      ([EmitError ("Cannot find Stage " +:+ thread_stage threadBindOp)],
       failure, None)
  | Some rootForOp =>
      walkSetIntAttr rootForOp (thread_loop threadBindOp) "thread_axis"
                     (thread_dim threadBindOp)
  end.

(** The outcome of a primitive that attaches an attribute to a loop. *)
Definition attrOutcome (f : FuncOp) (stage loop attrName : string) (value : Z)
    (r : AttrResult) : Prop :=
  match lookupStage f stage with
  | None => r = ([EmitError ("Cannot find Stage " +:+ stage)], failure, None)
  | Some rootForOp =>
      match findLoop rootForOp loop with
      | Some forOp =>
          r = ([], success, Some (mkIntAttr forOp attrName value)) ∧
          getLoopName forOp = loop ∧ forOp ∈ walkLoops rootForOp
      | None =>
          r = ([EmitError ("Cannot find Loop " +:+ loop)], failure, None) ∧
          ∀ forOp, forOp ∈ walkLoops rootForOp → getLoopName forOp ≠ loop
      end
  end.

(** ** Outline: the memrefs of the new function and its name *)

(** [getInputMemRefs]: [targets] are the operands [opId] of the operations
    [T] of the stage, in the order of the walk. *)
Definition getInputMemRefs (targets allMemrefs : list Value) : list Value :=
  foldl (λ allMemrefs target,
           if decide (target ∈ allMemrefs) then allMemrefs
           else allMemrefs ++ [target])
        allMemrefs targets.

(** The callback of the walk of [getOutputMemRefs] on the pair of
    [allMemrefs] and [memrefToRemove]; [hasDefiningOp target] is
    [target.getDefiningOp() != nullptr]. *)
Definition visitOutput (hasDefiningOp : Value → bool)
    (acc : list Value * list Value) (target : Value)
    : list Value * list Value :=
  let '(allMemrefs, memrefToRemove) := acc in
  if decide (target ∉ allMemrefs) then (allMemrefs ++ [target], memrefToRemove)
  else if decide (length allMemrefs = 1%nat) then acc
  else if hasDefiningOp target then (allMemrefs, memrefToRemove ++ [target])
  else acc.

(** [getOutputMemRefs]: the memrefs left in [allMemrefs] and the memrefs
    whose allocation is inserted into [allocToMove]. *)
Definition getOutputMemRefs (hasDefiningOp : Value → bool)
    (targets allMemrefs : list Value) : list Value * list Value :=
  let '(allMemrefs, memrefToRemove) :=
    foldl (visitOutput hasDefiningOp) (allMemrefs, []) targets in
  (filter (λ v, v ∉ memrefToRemove) allMemrefs, memrefToRemove).

(** Step 5 of [runOutline]: the name of the new function. *)
Definition outlineFuncName (stageNames : list string) : string :=
  foldl (λ func_name stage_name, func_name +:+ "_" +:+ stage_name)
        "Stage" stageNames.

(** [s.substr(pos)]; a position behind the end of the string throws. *)
Definition substr (s : string) (pos : nat) : option string :=
  if decide (pos ≤ String.length s)%nat
  then Some (String.substring pos (String.length s - pos) s)
  else None.

(** ** [eraseScheduleOp]

    An operation of the function body is a schedule statement ([isHCLOp]),
    the creation of a loop or stage handle, or another operation. *)

Inductive OpClass := IsSchedule | IsHandle | IsOther.

Global Instance OpClass_eq_dec : EqDecision OpClass.
Proof. solve_decision. Defined.

Record BodyOp := mkBodyOp {
  body_id : nat;
  body_class : OpClass;
  body_results : list Value;
  body_operands : list Value
}.

Global Instance BodyOp_eq_dec : EqDecision BodyOp.
Proof. solve_decision. Defined.

(** The operations in the order in which [eraseScheduleOp] erases them:
    [opToRemove] reversed, then the handles of the function. *)
Definition eraseOrder (f opToRemove : list BodyOp) : list BodyOp :=
  reverse opToRemove ++ filter (λ op, body_class op = IsHandle) f.

(** The function body after [eraseScheduleOp]. *)
Definition eraseScheduleOps (f opToRemove : list BodyOp) : list BodyOp :=
  filter (λ op, op ∉ eraseOrder f opToRemove) f.

(** [opToRemove] when the driver returns true: the schedule statements in
    program order. *)
Definition scheduleStatements (f : list BodyOp) : list BodyOp :=
  filter (λ op, body_class op = IsSchedule) f.

(** A body with two handles, a split that makes two more, and a reorder
    of them. *)
Definition eraseExampleBody : list BodyOp :=
  [ mkBodyOp 0 IsHandle [1%nat] [];
    mkBodyOp 1 IsHandle [2%nat] [];
    mkBodyOp 2 IsOther [] [];
    mkBodyOp 3 IsSchedule [3%nat; 4%nat] [1%nat; 2%nat];
    mkBodyOp 4 IsSchedule [] [1%nat; 3%nat; 4%nat];
    mkBodyOp 5 IsOther [] [] ].

(** ** Compute-at: [runComputeAt], steps 1 to 3

    [analyzeDependency] and MLIR's [canFuseLoops] and [fuseLoops] are not
    among the sources; the steps 4 and 5, which merge the two loop nests, are
    the argument [mergeLoops], which receives the function, the two stages
    and the requested depth. *)

Record ComputeAtOp := mkComputeAtOp {
  compute_producer : string;
  compute_consumer : string;
  compute_axis : string
}.

(** Step 2: the loop over the outermost loops of the function.
    [getAttr("stage_name").cast<StringAttr>()] on a loop without stage name
    is an assertion. *)
Definition findProducerConsumer (f : FuncOp) (producer_name consumer_name : string)
    : option (option Operation * option Operation) :=
  foldl (λ acc rootForOp,
           match rootForOp with
           | AffineFor l _ =>
               '(producerFor, consumerFor) ← acc;
               curr_name ← stage_name l;
               if decide (producer_name = curr_name)
               then Some (Some rootForOp, consumerFor)
               else if decide (consumer_name = curr_name)
               then Some (producerFor, Some rootForOp)
               else Some (producerFor, consumerFor)
           | _ => acc
           end)
        (Some (None, None)) f.

(** Step 3: the walk over the loops of the consumer, on the pair of
    [cnt_depth] and [requested_depth]. *)
Definition countDepth (loop_name : string) (loops : list AffineForOp)
    : nat * nat :=
  foldl (λ '(cnt_depth, requested_depth) forOp,
           (S cnt_depth,
            if decide (loop_name = getLoopName forOp) then S cnt_depth
            else requested_depth))
        (0%nat, 0%nat) loops.

(** [requested_depth = cnt_depth - requested_depth + 1] *)
Definition requestedDepth (consumerFor : Operation) (loop_name : string) : nat :=
  let '(cnt_depth, requested_depth) :=
    countDepth loop_name (walkLoops consumerFor) in
  (cnt_depth - requested_depth + 1)%nat.

Definition MergeLoops : Type :=
  FuncOp → Operation → Operation → nat → PrimitiveResult.

Definition runComputeAt (mergeLoops : MergeLoops) (f : FuncOp)
    (computeAtOp : ComputeAtOp) : PrimitiveResult :=
  found ← findProducerConsumer f (compute_producer computeAtOp)
                               (compute_consumer computeAtOp);
  match found with
  | (Some producerFor, Some consumerFor) =>
      mergeLoops f producerFor consumerFor
                 (requestedDepth consumerFor (compute_axis computeAtOp))
  | _ =>
      Some ([EmitError "Cannot find corresponding producer and consumer"],
            failure, f)
  end.

(** Two stages [p] and [c]; the consumer is a nest of [y] around [x]. *)
Definition computeAtExampleFunc : FuncOp :=
  [ AffineFor (mkFor "i" (Some "p") 1 (ConstantBound 0) (ConstantBound 4)
                     0%nat [])
      [ AffineStore 10%nat 100%nat (mkMap 1 [AffineDimExpr 0]) [0%nat] ];
    AffineFor (mkFor "y" (Some "c") 1 (ConstantBound 0) (ConstantBound 4)
                     1%nat [])
      [ AffineFor (mkFor "x" None 1 (ConstantBound 0) (ConstantBound 4)
                         2%nat [])
          [ AffineLoad 11%nat 100%nat (mkMap 1 [AffineDimExpr 0]) [2%nat] ] ] ].

(** A continuation that records the requested depth in a diagnostic. *)
Definition recordDepth : MergeLoops :=
  λ f _ _ depth, Some ([EmitWarning (pretty depth)], success, f).

(** ** The schedule driver: statements dispatched one after the other

    [dispatchedInOrder p st ops st'] says that the statements [ops] were
    dispatched from the state [st] in the order of the list, that each of
    them succeeded and worked on the state the one before it left, and that
    the last one left [st']. *)
Inductive dispatchedInOrder {State} (p : Primitives State)
    : State → list ScheduleOp → State → Prop :=
| dispatched_nil st : dispatchedInOrder p st [] st
| dispatched_cons st op st1 rest st2 :
    dispatchSingle p op st = (success, st1) →
    dispatchedInOrder p st1 rest st2 →
    dispatchedInOrder p st (op :: rest) st2.

(** ** Windows of loads for [runReuseAt]

    The accesses of a stencil: every load of the target reads
    [target[iv_0 + c_0, ..., iv_(n-1) + c_(n-1)]] with the same index
    variables and constant offsets. *)













(** * Properties *)

(** ** Arithmetic of the running quotient *)

Lemma wrap64_small z : - 2 ^ 63 ≤ z ≤ INT64_MAX → wrap64 z = z.
Proof.
  unfold wrap64, INT64_MAX. intros H.
  rewrite Z.mod_small by lia. lia.
Qed.

Lemma product_app l1 l2 : product (l1 ++ l2) = product l1 * product l2.
Proof. induction l1 as [|a l1 IH]; simpl; [lia|]. rewrite IH. lia. Qed.

Lemma product_nonneg l : Forall (λ u, 0 ≤ u) l → 0 ≤ product l.
Proof. induction 1; simpl; lia. Qed.

Lemma product_pos l : Forall (λ u, 0 < u) l → 0 < product l.
Proof. induction 1; simpl; lia. Qed.

Lemma wrap64_congr a b : wrap64 (wrap64 a * b) = wrap64 (a * b).
Proof.
  unfold wrap64 at 2.
  pose proof (Z.div_mod (a + 2 ^ 63) (2 ^ 64) ltac:(lia)) as Hdm.
  set (q := (a + 2 ^ 63) / 2 ^ 64) in *.
  replace ((a + 2 ^ 63) mod 2 ^ 64 - 2 ^ 63) with (a - q * 2 ^ 64) by lia.
  unfold wrap64. f_equal.
  replace ((a - q * 2 ^ 64) * b + 2 ^ 63)
    with (a * b + 2 ^ 63 + (- q * b) * 2 ^ 64) by lia.
  apply Z_mod_plus_full.
Qed.

Lemma wrap64_idemp a : wrap64 (wrap64 a) = wrap64 a.
Proof.
  replace (wrap64 (wrap64 a)) with (wrap64 (wrap64 a * 1)) by (f_equal; lia).
  rewrite wrap64_congr. f_equal. lia.
Qed.

Lemma coalescedUpperBound_fold loops acc :
  wrap64 acc = acc →
  fold_left (λ prod l, wrap64 (prod * constantUpperBoundOr0 l)) loops acc
  = wrap64 (acc * product (List.map constantUpperBoundOr0 loops)).
Proof.
  revert acc. induction loops as [|l loops IH]; intros acc Hacc; simpl.
  - by rewrite Z.mul_1_r.
  - rewrite IH by apply wrap64_idemp.
    rewrite wrap64_congr. f_equal. lia.
Qed.

Lemma coalescedUpperBound_product loops :
  0 ≤ product (List.map constantUpperBoundOr0 loops) ≤ INT64_MAX →
  coalescedUpperBound loops = product (List.map constantUpperBoundOr0 loops).
Proof.
  intros H. unfold coalescedUpperBound.
  rewrite coalescedUpperBound_fold by (apply wrap64_small; unfold INT64_MAX; lia).
  rewrite Z.mul_1_l. apply wrap64_small. lia.
Qed.

(** ** The coalesced iteration space *)

Lemma seqZ_mul_split (u P : Z) :
  0 ≤ u → 0 ≤ P →
  seqZ 0 (u * P) =
  flat_map (λ i, List.map (λ r, i * P + r) (seqZ 0 P)) (seqZ 0 u).
Proof.
  intros Hu HP. rewrite <- (Z2Nat.id u Hu). clear Hu.
  induction (Z.to_nat u) as [|k IH].
  - reflexivity.
  - rewrite seqZ_S, flat_map_app. simpl. rewrite app_nil_r, <- IH.
    replace (Z.of_nat (S k) * P) with (Z.of_nat k * P + P) by lia.
    rewrite seqZ_app by lia. f_equal.
    rewrite Z.add_0_l.
    pose proof (fmap_add_seqZ (Z.of_nat k * P) 0 P) as Hs.
    rewrite Z.add_0_r in Hs. rewrite <- Hs.
    apply map_ext. intros r. lia.
Qed.

Lemma mixedRadixDigits_shift ubs m r :
  Forall (λ u, 0 < u) ubs →
  mixedRadixDigits ubs (m * product ubs + r) = mixedRadixDigits ubs r.
Proof.
  intros Hpos. revert m. induction Hpos as [|u inner Hu Hin IH]; intros m.
  - reflexivity.
  - simpl. pose proof (product_pos _ Hin) as HP. f_equal.
    + replace (m * (u * product inner) + r)
        with (r + (m * u) * product inner) by lia.
      rewrite Z.div_add by lia.
      by rewrite Z_mod_plus_full.
    + replace (m * (u * product inner)) with ((m * u) * product inner) by lia.
      apply IH.
Qed.

Lemma mixedRadixDigits_small ubs r :
  Forall (λ u, 0 < u) ubs →
  0 ≤ r < product ubs →
  mixedRadixDigits ubs r = delinearize ubs r.
Proof.
  intros Hpos Hr. destruct Hpos as [|u inner Hu Hin]; [done|].
  simpl in *. f_equal. pose proof (product_pos _ Hin) as HP.
  apply Z.mod_small. split.
  - apply Z.div_pos; lia.
  - apply Z.div_lt_upper_bound; lia.
Qed.

Lemma flat_map_ext_elem {A B} (f g : A → list B) (l : list A) :
  (∀ a, a ∈ l → f a = g a) → flat_map f l = flat_map g l.
Proof.
  induction l as [|a l IH]; intros H; simpl; [done|].
  rewrite H by left. rewrite IH; [done|]. intros b Hb. apply H. by right.
Qed.

Lemma delinearize_enumerates ubs :
  Forall (λ u, 0 < u) ubs →
  List.map (delinearize ubs) (seqZ 0 (product ubs)) = loopNestIterations ubs.
Proof.
  induction 1 as [|u inner Hu Hin IH].
  - reflexivity.
  - pose proof (product_pos _ Hin) as HP.
    cbn [product fold_right loopNestIterations].
    fold (product inner).
    rewrite seqZ_mul_split by lia.
    rewrite flat_map_concat_map, concat_map, List.map_map, <- flat_map_concat_map.
    apply flat_map_ext_elem. intros i Hi.
    rewrite List.map_map, <- IH, List.map_map.
    apply map_ext_in. intros r Hr.
    apply list_elem_of_In, elem_of_seqZ in Hr.
    cbn [delinearize].
    rewrite mixedRadixDigits_shift by done.
    rewrite mixedRadixDigits_small by (done || lia).
    f_equal.
    rewrite Z.div_add_l by lia. rewrite Z.div_small by lia. lia.
Qed.

Lemma loopNestIterations_empty ubs :
  Forall (λ u, 0 ≤ u) ubs → product ubs = 0 → loopNestIterations ubs = [].
Proof.
  induction 1 as [|u inner Hu Hin IH]; simpl; intros Hp; [lia|].
  fold (product inner) in Hp.
  destruct (decide (u = 0)) as [->|Hne]; [done|].
  rewrite IH by nia.
  induction (seqZ 0 u); simpl; auto.
Qed.

Lemma mixedRadixDigits_lookup ubs x (i : nat) u :
  ubs !! i = Some u →
  mixedRadixDigits ubs x !! i = Some ((x / product (drop (S i) ubs)) mod u).
Proof.
  revert i. induction ubs as [|a ubs IH]; intros [|i] Hi; simplify_eq/=.
  - by rewrite drop_0.
  - by apply IH.
Qed.

Lemma delinearize_lookup ubs x (i : nat) u :
  ubs !! i = Some u →
  delinearize ubs x !! i =
  Some (if decide (i = 0%nat) then x / product (drop 1 ubs)
        else (x / product (drop (S i) ubs)) mod u).
Proof.
  destruct ubs as [|a ubs]; [done|]. destruct i as [|i]; intros Hi; simpl.
  - by rewrite drop_0.
  - simpl in Hi. by apply mixedRadixDigits_lookup.
Qed.

Lemma length_mixedRadixDigits ubs x :
  length (mixedRadixDigits ubs x) = length ubs.
Proof. induction ubs; simpl; auto. Qed.

Lemma length_delinearize ubs x : length (delinearize ubs x) = length ubs.
Proof. destruct ubs; simpl; [done|]. by rewrite length_mixedRadixDigits. Qed.

Lemma upperBoundSymbols_lookup loops (i : nat) :
  upperBoundSymbols loops !! i =
  ConstantIndexOp <$> (List.map constantUpperBoundOr0 loops !! i).
Proof.
  unfold upperBoundSymbols.
  change (List.map ?f ?l) with (f <$> l).
  rewrite !list_lookup_fmap. by destruct (loops !! i).
Qed.

(** The running quotient: entering the iteration [idx] with [previous]
    holding [x / Π ubs[idx+1..]], the replacements computed for the loops
    [0 .. idx-1] evaluate to the first [idx] components of
    [delinearize ubs x]. *)
Lemma remapInductionVars_eval env loops x (idx : nat) previous :
  let ubs := List.map constantUpperBoundOr0 loops in
  Forall (λ u, 0 < u) ubs →
  (idx ≤ length loops)%nat →
  evalIndexValue env previous = x / product (drop (S idx) ubs) →
  ∃ ivs,
    remapInductionVars (upperBoundSymbols loops) (length loops) idx previous
    = Some ivs ∧
    List.map (evalIndexValue env) ivs = take idx (delinearize ubs x).
Proof.
  intros ubs Hpos. revert previous.
  assert (Hlen : length ubs = length loops) by apply length_map.
  induction idx as [|i IH]; intros previous Hidx Hprev.
  - exists []. by rewrite take_0.
  - cbn [remapInductionVars].
    destruct (lookup_lt_is_Some_2 ubs i) as [ui Hui]; [lia|].
    (* the quotient after the optional floordiv *)
    assert (∃ previous',
      (if decide (S i ≠ length loops)
       then s ← upperBoundSymbols loops !! S i;
            Some (AffineApplyOp 1 floorDivMap [previous; s])
       else Some previous) = Some previous' ∧
      evalIndexValue env previous' = x / product (drop (S i) ubs))
      as (previous' & -> & Hprev').
    { destruct (decide (S i ≠ length loops)) as [Hne|Heq].
      - destruct (lookup_lt_is_Some_2 ubs (S i)) as [us Hus]; [lia|].
        rewrite upperBoundSymbols_lookup. fold ubs. rewrite Hus. simpl.
        eexists; split; [done|]. simpl.
        rewrite Hprev.
        rewrite (drop_S ubs us (S i)) by done. simpl.
        fold (product (drop (S (S i)) ubs)).
        assert (0 < us).
        { eapply (Forall_lookup_1 (λ u, 0 < u)); eauto. }
        assert (0 < product (drop (S (S i)) ubs)).
        { apply product_pos. by apply Forall_drop. }
        rewrite Z.div_div by lia. f_equal. lia.
      - exists previous. split; [done|]. rewrite Hprev.
        assert (S i = length loops) as Hn by lia.
        rewrite !drop_ge by lia. done. }
    simpl.
    assert (∃ iv,
      (if decide (S i = 1%nat) then Some previous'
       else s ← upperBoundSymbols loops !! i;
            Some (AffineApplyOp 1 modMap [previous'; s])) = Some iv ∧
      delinearize ubs x !! i = Some (evalIndexValue env iv))
      as (iv & -> & Hiv).
    { rewrite (delinearize_lookup ubs x i ui) by done.
      destruct (decide (S i = 1%nat)) as [H1|H1].
      - exists previous'. split; [done|]. rewrite Hprev'.
        assert (i = 0%nat) as -> by lia. by rewrite decide_True.
      - rewrite upperBoundSymbols_lookup. fold ubs. rewrite Hui. simpl.
        eexists; split; [done|]. simpl. rewrite Hprev'.
        rewrite decide_False by lia. done. }
    simpl.
    destruct (IH previous') as (rest & -> & Hrest); [lia|done|].
    simpl. eexists; split; [done|].
    rewrite map_app, Hrest. simpl.
    by rewrite (take_S_r _ _ _ Hiv).
Qed.

Lemma remapInductionVars_Some loops (idx : nat) previous :
  (idx ≤ length loops)%nat →
  ∃ ivs,
    remapInductionVars (upperBoundSymbols loops) (length loops) idx previous
    = Some ivs ∧ length ivs = idx.
Proof.
  revert previous. induction idx as [|i IH]; intros previous Hidx.
  - by exists [].
  - cbn [remapInductionVars].
    assert (length (upperBoundSymbols loops) = length loops) as Hlen
      by apply length_map.
    assert (∃ p', (if decide (S i ≠ length loops)
       then s ← upperBoundSymbols loops !! S i;
            Some (AffineApplyOp 1 floorDivMap [previous; s])
       else Some previous) = Some p') as [p' ->].
    { destruct (decide (S i ≠ length loops)); [|by eexists].
      destruct (lookup_lt_is_Some_2 (upperBoundSymbols loops) (S i))
        as [s ->]; [lia|]. by eexists. }
    simpl.
    assert (∃ iv, (if decide (S i = 1%nat) then Some p'
       else s ← upperBoundSymbols loops !! i;
            Some (AffineApplyOp 1 modMap [p'; s])) = Some iv) as [iv ->].
    { destruct (decide (S i = 1%nat)); [by eexists|].
      destruct (lookup_lt_is_Some_2 (upperBoundSymbols loops) i)
        as [s ->]; [lia|]. by eexists. }
    simpl. destruct (IH p') as (rest & -> & Hrest); [lia|].
    simpl. eexists; split; [done|]. rewrite length_app. simpl. lia.
Qed.

Lemma product_nonneg_pos ubs :
  Forall (λ u, 0 ≤ u) ubs → 0 < product ubs → Forall (λ u, 0 < u) ubs.
Proof.
  induction 1 as [|u ubs Hu Hubs IH]; simpl; intros Hp; constructor.
  - destruct (decide (u = 0)) as [->|]; lia.
  - apply IH. fold (product ubs) in Hp.
    pose proof (product_nonneg _ Hubs).
    destruct (decide (product ubs = 0)) as [Hz|]; [rewrite Hz in Hp|]; lia.
Qed.

(** C1. Fuse trip-count law: coalescing at least two normalized loops whose
    upper bounds are trip counts (non-negative, product within [int64_t])
    succeeds; the fused loop's constant upper bound is the product of the
    original upper bounds; for every fused index the replacements of the
    original induction variables evaluate to the floordiv/mod
    de-linearization of that index; and the fused loop hands the body exactly
    the index tuples of the original nest, in the original order. *)
Theorem coalesceLoops_fuse_law (loops : list AffineForOp) :
  (2 ≤ length loops)%nat →
  Forall (λ l, isNormalizedLoop l = true) loops →
  Forall (λ u, 0 ≤ u) (constantUpperBounds loops) →
  product (constantUpperBounds loops) ≤ INT64_MAX →
  ∃ c, coalesceLoops loops = Some c ∧
       getConstantUpperBound (fusedLoop c)
         = Some (product (constantUpperBounds loops)) ∧
       length (remappedIVs c) = length loops ∧
       (∀ x, 0 ≤ x < product (constantUpperBounds loops) →
          List.map (evalIndexValue (ivEnv (inductionVar (fusedLoop c)) x))
                   (remappedIVs c)
          = delinearize (constantUpperBounds loops) x) ∧
       coalescedIterations c = loopNestIterations (constantUpperBounds loops).
Proof.
  intros Hlen Hnorm Hnonneg Hmax.
  unfold coalesceLoops.
  rewrite decide_False by lia.
  destruct loops as [|outermost inner] eqn:Hloops; [simpl in Hlen; lia|].
  rewrite <- Hloops in *.
  assert (forallb isNormalizedLoop loops = true) as ->.
  { apply forallb_forall. intros l Hl.
    eapply (proj1 (List.Forall_forall _ _)) in Hnorm; eauto. }
  destruct (remapInductionVars_Some loops (length loops)
              (InductionVarOf (inductionVar outermost))) as (ivs & Hremap & Hivs);
    [done|].
  rewrite Hremap.
  pose proof (product_nonneg _ Hnonneg) as Hp0.
  simpl. eexists; split; [done|]. simpl.
  rewrite coalescedUpperBound_product
    by (unfold constantUpperBounds in *; lia).
  fold (constantUpperBounds loops).
  split; [done|]. split; [done|].
  assert (Heval : ∀ x, 0 < product (constantUpperBounds loops) →
     List.map (evalIndexValue (ivEnv (inductionVar outermost) x)) ivs
     = delinearize (constantUpperBounds loops) x).
  { intros x Hpos.
    destruct (remapInductionVars_eval (ivEnv (inductionVar outermost) x)
                loops x (length loops)
                (InductionVarOf (inductionVar outermost)))
      as (ivs' & Hivs' & Hmap).
    - apply product_nonneg_pos; done.
    - done.
    - simpl. unfold ivEnv. rewrite decide_True by done.
      rewrite drop_ge by (rewrite length_map; lia).
      simpl. by rewrite Z.div_1_r.
    - rewrite Hremap in Hivs'.
      injection Hivs' as <-. rewrite Hmap.
      apply take_ge. rewrite length_delinearize.
      unfold constantUpperBounds. rewrite length_map. lia. }
  split.
  - intros x Hx. apply Heval. lia.
  - unfold coalescedIterations. simpl.
    unfold constantUpperBoundOr0 at 1. simpl.
    destruct (decide (product (constantUpperBounds loops) = 0)) as [H0|Hne].
    + rewrite H0. simpl. symmetry. by apply loopNestIterations_empty.
    + rewrite <- delinearize_enumerates by (apply product_nonneg_pos; [done|lia]).
      apply map_ext. intros x. apply Heval. lia.
Qed.

Definition fuseWitnessLoops : list AffineForOp :=
  [ mkFor "i" (Some "s") 1 (ConstantBound 0) (ConstantBound 2) 0%nat [];
    mkFor "j" None 1 (ConstantBound 0) (ConstantBound 3) 1%nat [] ].

Lemma coalesceLoops_fuse_law_witness :
  ∃ c, coalesceLoops fuseWitnessLoops = Some c ∧
       getConstantUpperBound (fusedLoop c) = Some 6 ∧
       length (remappedIVs c) = 2%nat ∧
       (∀ x, 0 ≤ x < 6 →
          List.map (evalIndexValue (ivEnv (inductionVar (fusedLoop c)) x))
                   (remappedIVs c)
          = delinearize [2; 3] x) ∧
       coalescedIterations c = loopNestIterations [2; 3].
Proof.
  apply (coalesceLoops_fuse_law fuseWitnessLoops).
  - simpl. lia.
  - repeat constructor.
  - apply Forall_cons_2; [by vm_compute|].
    apply Forall_cons_2; [by vm_compute|]. apply Forall_nil_2.
  - vm_compute. discriminate.
Defined.

(** ** The expression builders preserve values *)

Lemma knownDivisor_divides dims syms e :
  (knownDivisor e | evalAffineExpr dims syms e).
Proof.
  induction e as [p|p|v|k l IHl r IHr]; simpl; try apply Z.divide_1_l.
  - apply Z.divide_abs_l. reflexivity.
  - destruct k; simpl; try apply Z.divide_1_l.
    destruct IHl as [x Hx], IHr as [y Hy]. exists (x * y).
    rewrite Hx, Hy. lia.
Qed.

Lemma eval_affineMod dims syms e c :
  evalAffineExpr dims syms (affineMod e c) = evalAffineExpr dims syms e mod c.
Proof.
  unfold affineMod. destruct (decide (c < 1)); [done|].
  assert (Hdiv : ∀ e', knownDivisor e' mod c = 0 →
                       0 = evalAffineExpr dims syms e' mod c).
  { intros e' H0. symmetry. apply Z.mod_divide; [lia|].
    apply Z.mod_divide in H0; [|lia].
    etrans; [exact H0|]. apply knownDivisor_divides. }
  destruct e as [p|p|v|k l r]; [| |reflexivity|];
    (case_decide as H; [apply (Hdiv _ H)|reflexivity]).
Qed.

Lemma eval_affineFloorDiv dims syms e c :
  evalAffineExpr dims syms (affineFloorDiv e c) = evalAffineExpr dims syms e / c.
Proof.
  unfold affineFloorDiv. destruct (decide (c < 1)); [done|].
  destruct e as [p|p|v|k l r]; [| |reflexivity|];
    (case_decide as H; [subst c; simpl; by rewrite Z.div_1_r|reflexivity]).
Qed.

(** ** Partition *)

Lemma blockFactorOf_ceil E f :
  0 < f → 0 ≤ E → E + f ≤ INT64_MAX →
  blockFactorOf E f = Some (ceilDiv E f).
Proof.
  intros Hf HE Hmax. unfold blockFactorOf, ceilDiv.
  rewrite decide_False by lia. f_equal.
  assert (HM : INT64_MAX = 2 ^ 63 - 1) by done.
  rewrite (wrap64_small (E + f)) by lia.
  rewrite (wrap64_small (E + f - 1)) by lia.
  rewrite Z.quot_div_nonneg by lia.
  assert (Hq : (E + f - 1) / f = - (- E / f)).
  { pose proof (Z.div_mod (E + f - 1) f ltac:(lia)) as H1.
    pose proof (Z.mod_pos_bound (E + f - 1) f Hf) as H2.
    pose proof (Z.div_mod (- E) f ltac:(lia)) as H3.
    pose proof (Z.mod_pos_bound (- E) f Hf) as H4.
    nia. }
  rewrite Hq. apply wrap64_small.
  pose proof (Z.div_mod (- E) f ltac:(lia)) as H3.
  pose proof (Z.mod_pos_bound (- E) f Hf) as H4.
  nia.
Qed.

Lemma partitionDim_components kind tdim factor ty indices :
  mapM (partitionDim kind tdim factor ty) (seq 0 (getRank ty)) = Some indices →
  length ((fst <$> indices) ++ (snd <$> indices)) = (2 * getRank ty)%nat ∧
  ∀ d : nat, (d < getRank ty)%nat →
    ∃ p a,
      partitionDim kind tdim factor ty d = Some (p, a) ∧
      ((fst <$> indices) ++ (snd <$> indices)) !! d = Some p ∧
      ((fst <$> indices) ++ (snd <$> indices)) !! (getRank ty + d)%nat = Some a.
Proof.
  intros HmapM. apply mapM_Some in HmapM.
  pose proof (Forall2_length _ _ _ HmapM) as Hlen.
  rewrite length_seq in Hlen.
  split.
  { rewrite length_app, !length_fmap. lia. }
  intros d Hd.
  destruct (lookup_lt_is_Some_2 indices d) as [[p a] Hpa]; [lia|].
  exists p, a. split; [|split].
  - destruct (Forall2_lookup_l _ _ _ d d HmapM) as (y & Hy & Hdim).
    { by apply lookup_seq_lt. }
    congruence.
  - rewrite lookup_app_l by (rewrite length_fmap; lia).
    by rewrite list_lookup_fmap, Hpa.
  - rewrite lookup_app_r by (rewrite length_fmap; lia).
    rewrite length_fmap, <- Hlen.
    replace (getRank ty + d - getRank ty)%nat with d by lia.
    by rewrite list_lookup_fmap, Hpa.
Qed.

Lemma runPartition_components op ty diags ty' :
  runPartition op ty = (diags, Some ty') →
  ∃ factor,
    (partition_factor op = Some factor ∨
     partition_factor op = None ∧ partition_kind op = CompletePartition) ∧
    shape ty' = shape ty ∧
    length (layout ty') = (2 * getRank ty)%nat ∧
    ∀ d : nat, (d < getRank ty)%nat →
      ∃ p a,
        partitionDim (partition_kind op) (partition_dim op) factor ty d
          = Some (p, a) ∧
        layout ty' !! d = Some p ∧
        layout ty' !! (getRank ty + d)%nat = Some a.
Proof.
  unfold runPartition. intros Hrun.
  destruct (partition_factor op) as [f0|] eqn:Hpf.
  - destruct (mapM _ _) as [indices|] eqn:HmapM; [|done].
    injection Hrun as _ <-. simpl.
    destruct (partitionDim_components _ _ _ _ _ HmapM) as [Hlen Hcomp].
    exists f0. eauto.
  - destruct (decide (partition_kind op ≠ CompletePartition)) as [Hk|Hk];
      [done|].
    destruct (mapM _ _) as [indices|] eqn:HmapM; [|done].
    injection Hrun as _ <-. simpl.
    destruct (partitionDim_components _ _ _ _ _ HmapM) as [Hlen Hcomp].
    exists (-1). split; [|eauto].
    right. split; [done|].
    destruct (decide (partition_kind op = CompletePartition)); [done|].
    by destruct Hk.
Qed.

(** C2. A partition that succeeds produces a layout map with [2 * rank]
    results, the bank indices first and the physical offsets after them; on
    a selected dimension with index [i] and extent [E], cyclic partitioning
    gives bank [i mod factor] and offset [i / factor], block partitioning
    (positive factor, extent within [int64_t]) gives bank
    [i / ceil(E / factor)] and offset [i mod ceil(E / factor)], and complete
    partitioning gives bank [i] and offset [0] whatever the factor. *)
Theorem runPartition_bank_and_offset op ty diags ty' :
  runPartition op ty = (diags, Some ty') →
  length (layout ty') = (2 * getRank ty)%nat ∧
  ∀ (d : nat) (E : Z) (idx : list Z),
    isSelectedDim (partition_dim op) d = true →
    shape ty !! d = Some E →
    ∃ bank offset,
      layout ty' !! d = Some bank ∧
      layout ty' !! (getRank ty + d)%nat = Some offset ∧
      match partition_kind op with
      | CyclicPartition =>
          ∃ f, partition_factor op = Some f ∧
               evalAffineExpr idx [] bank = (idx !!! d) mod f ∧
               evalAffineExpr idx [] offset = (idx !!! d) / f
      | BlockPartition =>
          ∃ f, partition_factor op = Some f ∧
               (0 < f → 0 ≤ E → E + f ≤ INT64_MAX →
                evalAffineExpr idx [] bank = (idx !!! d) / ceilDiv E f ∧
                evalAffineExpr idx [] offset = (idx !!! d) mod ceilDiv E f)
      | CompletePartition =>
          evalAffineExpr idx [] bank = idx !!! d ∧
          evalAffineExpr idx [] offset = 0
      end.
Proof.
  intros Hrun.
  destruct (runPartition_components _ _ _ _ Hrun)
    as (factor & Hfac & _ & Hlen & Hcomp).
  split; [done|]. intros d E idx Hsel HE.
  destruct (Hcomp d) as (p & a & Hdim & Hp & Ha).
  { apply lookup_lt_Some in HE. done. }
  exists p, a. split; [done|]. split; [done|].
  unfold partitionDim in Hdim. rewrite Hsel in Hdim.
  unfold partitionSelected in Hdim.
  destruct (partition_kind op) eqn:Hkind.
  - by simplify_eq/=.
  - destruct Hfac as [Hf|[_ ?]]; [|done].
    exists factor. split; [done|]. intros Hpos HEpos Hmax.
    rewrite HE in Hdim. simpl in Hdim.
    rewrite blockFactorOf_ceil in Hdim by done. simplify_eq/=.
    by rewrite eval_affineFloorDiv, eval_affineMod.
  - destruct Hfac as [Hf|[_ ?]]; [|done].
    exists factor. split; [done|]. simplify_eq/=.
    by rewrite eval_affineFloorDiv, eval_affineMod.
Qed.

Definition partitionWitnessOp : PartitionOp :=
  mkPartitionOp BlockPartition 1 (Some 3).
Definition partitionWitnessType : MemRefType :=
  mkMemRef [8; 6] (identityLayout 2).
Definition partitionWitnessResult : MemRefType :=
  mkMemRef [8; 6]
    [ AffineBinaryOpExpr FloorDiv (AffineDimExpr 0) (AffineConstantExpr 3);
      AffineConstantExpr 0;
      AffineBinaryOpExpr Mod (AffineDimExpr 0) (AffineConstantExpr 3);
      AffineDimExpr 1 ].

Lemma runPartition_bank_and_offset_witness :
  length (layout partitionWitnessResult) = 4%nat ∧
  ∀ (d : nat) (E : Z) (idx : list Z),
    isSelectedDim 1 d = true →
    [8; 6] !! d = Some E →
    ∃ bank offset,
      layout partitionWitnessResult !! d = Some bank ∧
      layout partitionWitnessResult !! (2 + d)%nat = Some offset ∧
      ∃ f, Some 3 = Some f ∧
           (0 < f → 0 ≤ E → E + f ≤ INT64_MAX →
            evalAffineExpr idx [] bank = (idx !!! d) / ceilDiv E f ∧
            evalAffineExpr idx [] offset = (idx !!! d) mod ceilDiv E f).
Proof.
  apply (runPartition_bank_and_offset partitionWitnessOp partitionWitnessType
           [] partitionWitnessResult).
  vm_compute. reflexivity.
Defined.


Definition repartitionWitnessOp : PartitionOp :=
  mkPartitionOp CyclicPartition 2 (Some 2).

Definition repartitionWitnessResult : MemRefType :=
  mkMemRef [8; 6]
    [ AffineBinaryOpExpr FloorDiv (AffineDimExpr 0) (AffineConstantExpr 3);
      AffineBinaryOpExpr Mod (AffineDimExpr 1) (AffineConstantExpr 2);
      AffineBinaryOpExpr FloorDiv (AffineDimExpr 0) (AffineConstantExpr 3);
      AffineBinaryOpExpr FloorDiv (AffineDimExpr 1) (AffineConstantExpr 2) ].


(** ** Reorder *)

Lemma findIndex_lookup {A} `{EqDecision A} (v : list A) (x : A) :
  (findIndex v x < length v)%nat → v !! findIndex v x = Some x.
Proof.
  induction v as [|y v IH]; simpl; [lia|].
  case_decide; subst; simpl; [done|]. intros. apply IH. lia.
Qed.

Lemma findIndex_NoDup {A} `{EqDecision A} (v : list A) (i : nat) (x : A) :
  NoDup v → v !! i = Some x → findIndex v x = i.
Proof.
  intros Hnd Hi.
  assert (findIndex v x < length v)%nat as Hlt.
  { clear Hnd. revert i Hi. induction v as [|y v IH]; intros [|i] Hi;
      simplify_eq/=; case_decide; try done; try lia.
    specialize (IH _ Hi). lia. }
  eapply NoDup_lookup; eauto using findIndex_lookup.
Qed.

(** The model of [permuteLoops] returns a permutation of its input, with
    [input[i]] at depth [permMap[i]]. *)
Lemma permuteLoops_lookup {A} (input out : list A) permMap (i d : nat) :
  permuteLoops input permMap = Some out →
  permMap !! i = Some d →
  out !! d = input !! i ∧ (i < length input)%nat.
Proof.
  unfold permuteLoops. case_decide as Hperm; [|done]. intros Hm Hi.
  apply mapM_Some in Hm.
  assert (NoDup permMap) as Hnd by (rewrite Hperm; apply NoDup_seq).
  assert (d < length input)%nat as Hd.
  { assert (d ∈ seq 0 (length input)) as Hin.
    { rewrite <- Hperm. by eapply list_elem_of_lookup_2. }
    apply elem_of_seq in Hin. lia. }
  assert (length permMap = length input) as Hlen.
  { rewrite Hperm. apply length_seq. }
  destruct (Forall2_lookup_l _ _ _ d d Hm) as (y & Hy & Hg).
  { by apply lookup_seq_lt. }
  rewrite (findIndex_NoDup permMap i d) in Hg by done.
  split; [congruence|]. apply lookup_lt_Some in Hi. lia.
Qed.

Lemma permuteLoops_length {A} (input out : list A) permMap :
  permuteLoops input permMap = Some out →
  length out = length input ∧ permMap ≡ₚ seq 0 (length input).
Proof.
  unfold permuteLoops. case_decide as Hperm; [|done]. intros Hm.
  apply mapM_Some, Forall2_length in Hm. rewrite length_seq in Hm. done.
Qed.

Lemma permuteLoops_Permutation {A} (input out : list A) permMap :
  permuteLoops input permMap = Some out → out ≡ₚ input.
Proof.
  intros Hp. destruct (permuteLoops_length _ _ _ Hp) as [Hlen Hperm].
  assert (NoDup permMap) as Hnd by (rewrite Hperm; apply NoDup_seq).
  assert (length permMap = length input) as Hlenp.
  { rewrite Hperm. apply length_seq. }
  assert (Hrange : ∀ i d, permMap !! i = Some d → (d < length input)%nat).
  { intros i d Hi.
    assert (d ∈ seq 0 (length input)) as Hin.
    { rewrite <- Hperm. by eapply list_elem_of_lookup_2. }
    apply elem_of_seq in Hin. lia. }
  symmetry. apply Permutation_inj. split; [done|].
  exists (λ i, default i (permMap !! i)). split.
  - intros i j Hij.
    destruct (permMap !! i) as [di|] eqn:Hi, (permMap !! j) as [dj|] eqn:Hj;
      simpl in Hij; subst.
    + eapply NoDup_lookup; eauto.
    + apply Hrange in Hi. apply lookup_ge_None in Hj. lia.
    + apply Hrange in Hj. apply lookup_ge_None in Hi. lia.
    + done.
  - intros i. destruct (permMap !! i) as [d|] eqn:Hi; simpl.
    + symmetry. by eapply permuteLoops_lookup.
    + apply lookup_ge_None in Hi.
      rewrite !lookup_ge_None_2; [done|lia..].
Qed.

Lemma fillMissingLoops_length old args c new :
  fillMissingLoops old args c = Some new → length new = length old.
Proof.
  revert c new. induction old as [|name old IH]; intros c new H;
    simplify_eq/=; [done|].
  case_decide; simplify_option_eq; simpl; f_equal; eauto.
Qed.

(** The loops that the request does not name keep their position. *)
Lemma fillMissingLoops_unnamed old args c new (i : nat) name :
  fillMissingLoops old args c = Some new →
  old !! i = Some name → name ∉ args → new !! i = Some name.
Proof.
  revert c new i. induction old as [|n old IH]; intros c new i H Hi Hn;
    [done|].
  simpl in H. destruct i as [|i]; simpl in Hi.
  - simplify_eq. rewrite decide_False in H by done. by simplify_option_eq.
  - case_decide; simplify_option_eq; simpl; eauto.
Qed.

(** The positions of the named loops are filled with the requested names,
    in the requested order. *)
Lemma fillMissingLoops_named old args c new :
  fillMissingLoops old args c = Some new →
  filter (λ n, n ∈ args) new
  = take (length (filter (λ n, n ∈ args) old)) (drop c args).
Proof.
  revert c new. induction old as [|n old IH]; intros c new H;
    simplify_eq/=; [done|].
  case_decide as Hn; simplify_option_eq.
  - rewrite !filter_cons_True by (done || by eapply list_elem_of_lookup_2).
    simpl. erewrite drop_S by done. simpl. f_equal. eauto.
  - rewrite !filter_cons_False by done. eauto.
Qed.

Lemma stageName_updates_frame nest (name : string) (k : nat) :
  let nest1 := if decide (k ≠ 0%nat) then alter removeStageName 0%nat nest
               else nest in
  let nest2 := if decide (k ≠ 0%nat)
               then alter (λ l, setStageName l name) k nest1 else nest1 in
  removeStageName <$> nest2 = removeStageName <$> nest ∧
  getLoopName <$> nest2 = getLoopName <$> nest ∧
  length nest2 = length nest.
Proof.
  simpl. case_decide; [|done].
  split; [|split].
  - rewrite (list_fmap_alter _ _ id) by (apply Forall_true; done).
    rewrite list_alter_id by done.
    rewrite (list_fmap_alter _ _ id) by (apply Forall_true; done).
    by rewrite list_alter_id.
  - rewrite (list_fmap_alter _ _ id) by (apply Forall_true; done).
    rewrite list_alter_id by done.
    rewrite (list_fmap_alter _ _ id) by (apply Forall_true; done).
    by rewrite list_alter_id.
  - by rewrite !length_alter.
Qed.

(** After a permutation that [permuteLoops] accepts, the names of the nest
    read, outermost first, as [nameOfAllLoopsWithNewOrder]. *)
Lemma permuted_names (nest2 permuted : list AffineForOp) newOrder :
  length newOrder = length nest2 →
  permuteLoops nest2 (buildPermMap (getLoopName <$> nest2) newOrder)
    = Some permuted →
  getLoopName <$> permuted = newOrder.
Proof.
  intros Hlen Hp.
  destruct (permuteLoops_length _ _ _ Hp) as [Hlp Hperm].
  apply list_eq_same_length with (length nest2);
    [done|by rewrite length_fmap|].
  intros d x y Hd Hx Hy.
  assert (d ∈ buildPermMap (getLoopName <$> nest2) newOrder) as Hin.
  { rewrite Hperm. apply elem_of_seq. lia. }
  apply list_elem_of_lookup in Hin as [i Hi].
  destruct (permuteLoops_lookup _ _ _ _ _ Hp Hi) as [Hout _].
  unfold buildPermMap in Hi. rewrite !list_lookup_fmap in Hi.
  rewrite list_lookup_fmap, Hout in Hx.
  destruct (nest2 !! i) as [l|]; simplify_eq/=.
  pose proof (findIndex_lookup newOrder (getLoopName l)) as Hf.
  rewrite Hf in Hy by lia. congruence.
Qed.

(** C4. A reorder that succeeds replaces the maximal perfect nest of the
    stage by a nest of the same loops around the same body and leaves the
    rest of the function alone: the loops are the old ones up to the stage
    tag, so the multiset of loop names is unchanged; read from the outermost
    loop inwards, the named loops are the requested names in the requested
    order; and every loop that the request does not name is at the depth it
    had. *)
Theorem runReordering_permutation f op diags f' :
  runReordering f op = Some (diags, success, f') →
  ∃ pos rootForOp nest innerBody nest',
    getStage f (reorder_stage op) = Some pos ∧
    f !! pos = Some rootForOp ∧
    getPerfectlyNestedLoops rootForOp = (nest, innerBody) ∧
    f' = take pos f ++ buildNest nest' innerBody ++ drop (S pos) f ∧
    (removeStageName <$> nest') ≡ₚ (removeStageName <$> nest) ∧
    (getLoopName <$> nest') ≡ₚ (getLoopName <$> nest) ∧
    filter (λ n, n ∈ reorder_loops op) (getLoopName <$> nest')
      = take (length (filter (λ n, n ∈ reorder_loops op)
                             (getLoopName <$> nest)))
             (reorder_loops op) ∧
    (NoDup (reorder_loops op) →
     (∀ a, a ∈ reorder_loops op → a ∈ getLoopName <$> nest) →
     filter (λ n, n ∈ reorder_loops op) (getLoopName <$> nest')
       = reorder_loops op) ∧
    (∀ (i : nat) name,
       (getLoopName <$> nest) !! i = Some name →
       name ∉ reorder_loops op →
       (getLoopName <$> nest') !! i = Some name).
Proof.
  unfold runReordering. intros Hrun.
  case_decide as Hargs; [done|].
  destruct (getStage f (reorder_stage op)) as [pos|] eqn:Hstage; [|done].
  destruct (f !! pos) as [rootForOp|] eqn:Hroot; [|done]. simpl in Hrun.
  destruct (getPerfectlyNestedLoops rootForOp) as [nest innerBody] eqn:Hnest.
  destruct (fillMissingLoops (getLoopName <$> nest) (reorder_loops op) 0)
    as [newOrder|] eqn:Hfill; [|done]. simpl in Hrun.
  case_decide as Hsize; [|done].
  set (permMap := buildPermMap (getLoopName <$> nest) newOrder) in *.
  pose proof (stageName_updates_frame nest (reorder_stage op)
                (outerMostIdxOf permMap)) as Hframe.
  simpl in Hframe.
  match type of Hrun with
  | context [permuteLoops ?n2 _] => set (nest2 := n2) in *
  end.
  destruct Hframe as (Hframe & Hnames & Hlen2).
  destruct (permuteLoops nest2 permMap) as [permuted|] eqn:Hperm; [|done].
  simpl in Hrun. injection Hrun as <- <-.
  exists pos, rootForOp, nest, innerBody, permuted.
  do 4 (split; [done|]).
  assert (getLoopName <$> permuted = newOrder) as Hnew.
  { apply (permuted_names nest2).
    - rewrite (fillMissingLoops_length _ _ _ _ Hfill), length_fmap. done.
    - unfold permMap in Hperm. by rewrite Hnames. }
  pose proof (permuteLoops_Permutation _ _ _ Hperm) as HP.
  assert ((getLoopName <$> permuted) ≡ₚ (getLoopName <$> nest)) as HPn.
  { rewrite <- Hnames. by apply fmap_Permutation. }
  split. { rewrite <- Hframe. by apply fmap_Permutation. }
  split; [done|].
  pose proof (fillMissingLoops_named _ _ _ _ Hfill) as Hnamed.
  rewrite drop_0 in Hnamed.
  split. { by rewrite Hnew. }
  split.
  - intros Hnd Hsub. rewrite Hnew, Hnamed.
    assert (NoDup (getLoopName <$> nest)) as Hndold.
    { destruct (permuteLoops_length _ _ _ Hperm) as [_ Hp].
      assert (NoDup permMap) as Hndp by (rewrite Hp; apply NoDup_seq).
      unfold permMap, buildPermMap in Hndp.
      by apply NoDup_fmap_1 in Hndp. }
    assert (filter (λ n, n ∈ reorder_loops op) (getLoopName <$> nest)
            ≡ₚ reorder_loops op) as Hfp.
    { apply NoDup_Permutation; [by apply NoDup_filter|done|].
      intros x. rewrite list_elem_of_filter. split; [by intros [? ?]|].
      intros Hx. split; [done|by apply Hsub]. }
    rewrite Hfp. apply take_ge. done.
  - intros i name Hi Hn. rewrite Hnew.
    by eapply fillMissingLoops_unnamed.
Qed.

Definition reorderWitnessLoop (name : string) (stage : option string)
    (ub : Z) (iv : Value) : AffineForOp :=
  mkFor name stage 1 (ConstantBound 0) (ConstantBound ub) iv [].

Definition reorderWitnessBody : list Operation :=
  [ AffineLoad 10%nat 100%nat
      (mkMap 3 [AffineDimExpr 0; AffineDimExpr 1; AffineDimExpr 2])
      [0%nat; 1%nat; 2%nat];
    AffineStore 10%nat 101%nat
      (mkMap 3 [AffineDimExpr 0; AffineDimExpr 1; AffineDimExpr 2])
      [0%nat; 1%nat; 2%nat] ].

Definition reorderWitnessFunc : FuncOp :=
  [ OtherOp "memref.alloc" [] [101%nat];
    AffineFor (reorderWitnessLoop "i" (Some "s") 4 0%nat)
      [AffineFor (reorderWitnessLoop "j" None 5 1%nat)
         [AffineFor (reorderWitnessLoop "k" None 6 2%nat)
            reorderWitnessBody]] ].

Definition reorderWitnessOp : ReorderOp := mkReorderOp "s" ["k"; "i"].

Definition reorderWitnessNest : list AffineForOp :=
  [ reorderWitnessLoop "k" (Some "s") 6 2%nat;
    reorderWitnessLoop "j" None 5 1%nat;
    reorderWitnessLoop "i" None 4 0%nat ].

Definition reorderWitnessResult : FuncOp :=
  [ OtherOp "memref.alloc" [] [101%nat];
    AffineFor (reorderWitnessLoop "k" (Some "s") 6 2%nat)
      [AffineFor (reorderWitnessLoop "j" None 5 1%nat)
         [AffineFor (reorderWitnessLoop "i" None 4 0%nat)
            reorderWitnessBody]] ].

Lemma runReordering_permutation_witness :
  ∃ pos rootForOp nest innerBody nest',
    getStage reorderWitnessFunc "s" = Some pos ∧
    reorderWitnessFunc !! pos = Some rootForOp ∧
    getPerfectlyNestedLoops rootForOp = (nest, innerBody) ∧
    reorderWitnessResult
      = take pos reorderWitnessFunc ++ buildNest nest' innerBody
        ++ drop (S pos) reorderWitnessFunc ∧
    (removeStageName <$> nest') ≡ₚ (removeStageName <$> nest) ∧
    (getLoopName <$> nest') ≡ₚ (getLoopName <$> nest) ∧
    filter (λ n, n ∈ ["k"; "i"]) (getLoopName <$> nest')
      = take (length (filter (λ n, n ∈ ["k"; "i"]) (getLoopName <$> nest)))
             ["k"; "i"] ∧
    (NoDup ["k"; "i"] →
     (∀ a, a ∈ ["k"; "i"] → a ∈ getLoopName <$> nest) →
     filter (λ n, n ∈ ["k"; "i"]) (getLoopName <$> nest') = ["k"; "i"]) ∧
    (∀ (i : nat) name,
       (getLoopName <$> nest) !! i = Some name →
       name ∉ ["k"; "i"] →
       (getLoopName <$> nest') !! i = Some name).
Proof.
  apply (runReordering_permutation reorderWitnessFunc reorderWitnessOp []
           reorderWitnessResult).
  vm_compute. reflexivity.
Defined.

(** ** Split and tile *)

Ltac exists_msg :=
  lazymatch goal with
  | |- ∃ msg, ∀ rw, _ = Some ([EmitError msg], _, _) =>
      unfold tilingFactorError; eexists
  end.

(** C5. [runSplitting], and [runTiling] for each of its two factors, return
    failure with an error and the function unmutated exactly when the stage
    is not found, the loop (for tile: the band of the two loops) is not
    found, or a factor is greater than or equal to the constant upper bound
    of its loop; when the stage and the loops are found and each factor is
    below its loop's constant upper bound, the primitive goes on to rewrite
    the band with these factors as tile sizes. *)
Theorem split_tile_validation (find : FindContiguousNestedLoops)
    (f : FuncOp) (splitOp : SplitOp) (tileOp : TileOp) :
  (rejects (λ rw, runSplitting rw f splitOp) f ↔
     lookupStage f (split_stage splitOp) = None ∨
     (∃ root, lookupStage f (split_stage splitOp) = Some root ∧
              findLoop root (split_loop splitOp) = None) ∨
     (∃ root l ub, lookupStage f (split_stage splitOp) = Some root ∧
                   findLoop root (split_loop splitOp) = Some l ∧
                   getConstantUpperBound l = Some ub ∧
                   ub ≤ split_factor splitOp)) ∧
  (∀ root l ub,
     lookupStage f (split_stage splitOp) = Some root →
     findLoop root (split_loop splitOp) = Some l →
     getConstantUpperBound l = Some ub →
     split_factor splitOp < ub →
     proceeds (λ rw, runSplitting rw f splitOp) f [l] [split_factor splitOp]) ∧
  (rejects (λ rw, runTiling find rw f tileOp) f ↔
     lookupStage f (tile_stage tileOp) = None ∨
     (∃ root, lookupStage f (tile_stage tileOp) = Some root ∧
              walkFindBand find root [tile_x_loop tileOp; tile_y_loop tileOp]
                = None) ∨
     (∃ root band l0 ub0,
        lookupStage f (tile_stage tileOp) = Some root ∧
        walkFindBand find root [tile_x_loop tileOp; tile_y_loop tileOp]
          = Some band ∧
        band !! 0%nat = Some l0 ∧ getConstantUpperBound l0 = Some ub0 ∧
        (ub0 ≤ tile_x_factor tileOp ∨
         ∃ l1 ub1, band !! 1%nat = Some l1 ∧
                   getConstantUpperBound l1 = Some ub1 ∧
                   ub1 ≤ tile_y_factor tileOp))) ∧
  (∀ root band l0 ub0 l1 ub1,
     lookupStage f (tile_stage tileOp) = Some root →
     walkFindBand find root [tile_x_loop tileOp; tile_y_loop tileOp]
       = Some band →
     band !! 0%nat = Some l0 → getConstantUpperBound l0 = Some ub0 →
     band !! 1%nat = Some l1 → getConstantUpperBound l1 = Some ub1 →
     tile_x_factor tileOp < ub0 → tile_y_factor tileOp < ub1 →
     proceeds (λ rw, runTiling find rw f tileOp) f band
              [tile_x_factor tileOp; tile_y_factor tileOp]).
Proof.
  split; [|split; [|split]].
  - (* split: rejected exactly when *)
    unfold rejects, runSplitting. split.
    + intros [msg Hrej]. specialize (Hrej (λ _ _ _, None)). simpl in Hrej.
      destruct (lookupStage f (split_stage splitOp)) as [root|] eqn:Hs;
        [|by left].
      right. destruct (findLoop root (split_loop splitOp)) as [l|] eqn:Hl;
        [|left; by exists root].
      right. destruct (getConstantUpperBound l) as [ub|] eqn:Hub; [|done].
      simpl in Hrej. case_decide; [|done]. by exists root, l, ub.
    + intros [Hs|[(root & Hs & Hl)|(root & l & ub & Hs & Hl & Hub & Hge)]].
      * rewrite Hs. by eexists.
      * rewrite Hs, Hl. by eexists.
      * rewrite Hs, Hl, Hub. simpl. exists_msg.
        intros rw. by rewrite decide_True by done.
  - (* split: proceeds *)
    intros root l ub Hs Hl Hub Hlt rw. unfold runSplitting.
    rewrite Hs, Hl, Hub. simpl. by rewrite decide_False by lia.
  - (* tile: rejected exactly when *)
    unfold rejects, runTiling. split.
    + intros [msg Hrej]. specialize (Hrej (λ _ _ _, None)). simpl in Hrej.
      destruct (lookupStage f (tile_stage tileOp)) as [root|] eqn:Hs;
        [|by left].
      right. destruct (walkFindBand find root _) as [band|] eqn:Hb;
        [|left; by exists root].
      right. destruct (band !! 0%nat) as [l0|] eqn:H0; [|done].
      simpl in Hrej.
      destruct (getConstantUpperBound l0) as [ub0|] eqn:Hu0; [|done].
      simpl in Hrej. exists root, band, l0, ub0. do 4 (split; [done|]).
      case_decide; [by left|]. right.
      destruct (band !! 1%nat) as [l1|] eqn:H1; [|done]. simpl in Hrej.
      destruct (getConstantUpperBound l1) as [ub1|] eqn:Hu1; [|done].
      simpl in Hrej. case_decide; [|done]. by exists l1, ub1.
    + intros [Hs|[(root & Hs & Hb)
                 |(root & band & l0 & ub0 & Hs & Hb & H0 & Hu0 & Hcase)]].
      * rewrite Hs. by eexists.
      * rewrite Hs, Hb. by eexists.
      * rewrite Hs, Hb, H0. simpl. rewrite Hu0. simpl.
        destruct (decide (ub0 ≤ tile_x_factor tileOp)) as [Hx|Hx].
        { exists_msg. done. }
        destruct Hcase as [?|(l1 & ub1 & H1 & Hu1 & Hy)]; [done|].
        rewrite H1. simpl. rewrite Hu1. simpl.
        exists_msg. intros rw. by rewrite decide_True by done.
  - (* tile: proceeds *)
    intros root band l0 ub0 l1 ub1 Hs Hb H0 Hu0 H1 Hu1 Hx Hy rw.
    unfold runTiling. rewrite Hs, Hb, H0. simpl. rewrite Hu0. simpl.
    rewrite decide_False by lia. rewrite H1. simpl. rewrite Hu1. simpl.
    by rewrite decide_False by lia.
Qed.

Lemma split_tile_validation_witness :
  proceeds (λ rw, runSplitting rw reorderWitnessFunc (mkSplitOp "s" "j" 2))
           reorderWitnessFunc [reorderWitnessLoop "j" None 5 1%nat] [2] ∧
  proceeds (λ rw, runTiling (λ o names, nestByNames names o) rw
                    reorderWitnessFunc (mkTileOp "s" "j" "k" 2 3))
           reorderWitnessFunc
           [reorderWitnessLoop "j" None 5 1%nat;
            reorderWitnessLoop "k" None 6 2%nat] [2; 3].
Proof.
  destruct (split_tile_validation (λ o names, nestByNames names o)
              reorderWitnessFunc (mkSplitOp "s" "j" 2)
              (mkTileOp "s" "j" "k" 2 3)) as (_ & Hsplit & _ & Htile).
  split.
  - eapply (Hsplit _ _ 5); [reflexivity..|simpl; lia].
  - eapply (Htile _ _ _ 5 _ 6); [reflexivity..|simpl; lia|simpl; lia].
Defined.

(** ** The builders of sums and products preserve values *)

Lemma eval_affineMulConst dims syms e c :
  evalAffineExpr dims syms (affineMulConst e c) = evalAffineExpr dims syms e * c.
Proof.
  revert c. induction e as [p|p|v|k l IHl r IHr]; intros c; simpl.
  - repeat case_decide; subst; simpl; lia.
  - repeat case_decide; subst; simpl; lia.
  - done.
  - repeat case_decide; subst; simpl; try lia.
    destruct k; try done. destruct r; try done.
    rewrite IHl. simpl. lia.
Qed.

Lemma mulParts_eval dims syms e c x :
  mulParts e = (c, x) →
  evalAffineExpr dims syms e = evalAffineExpr dims syms x * c.
Proof.
  unfold mulParts. intros H.
  repeat case_match; simplify_eq; simpl; lia.
Qed.

Lemma eval_affineAddFuel dims syms fuel lhs rhs :
  evalAffineExpr dims syms (affineAddFuel fuel lhs rhs)
  = evalAffineExpr dims syms lhs + evalAffineExpr dims syms rhs.
Proof.
  revert lhs rhs. induction fuel as [|fuel IH]; intros lhs rhs; [done|].
  assert (Hrest :
    evalAffineExpr dims syms
      (if isConstantExpr lhs
          || (isSymbolicOrConstant lhs && negb (isSymbolicOrConstant rhs))
       then affineAddFuel fuel rhs lhs
       else if decide (rhs = AffineConstantExpr 0) then lhs
       else
         match lhs, rhs with
         | AffineBinaryOpExpr Add ll (AffineConstantExpr lr),
           AffineConstantExpr r =>
             affineAddFuel fuel ll (AffineConstantExpr (lr + r))
         | _, _ =>
             let '(c1, firstExpr) := mulParts lhs in
             let '(c2, secondExpr) := mulParts rhs in
             if decide (firstExpr = secondExpr)
             then affineMulConst firstExpr (c1 + c2)
             else
               match lhs with
               | AffineBinaryOpExpr Add ll (AffineConstantExpr lr) =>
                   affineAddFuel fuel (affineAddFuel fuel ll rhs)
                                 (AffineConstantExpr lr)
               | _ => AffineBinaryOpExpr Add lhs rhs
               end
         end)
    = evalAffineExpr dims syms lhs + evalAffineExpr dims syms rhs).
  { destruct (isConstantExpr lhs || _); [rewrite IH; lia|].
    case_decide as H0; [subst rhs; simpl; lia|].
    assert (Hmul :
      evalAffineExpr dims syms
        (let '(c1, firstExpr) := mulParts lhs in
         let '(c2, secondExpr) := mulParts rhs in
         if decide (firstExpr = secondExpr)
         then affineMulConst firstExpr (c1 + c2)
         else
           match lhs with
           | AffineBinaryOpExpr Add ll (AffineConstantExpr lr) =>
               affineAddFuel fuel (affineAddFuel fuel ll rhs)
                             (AffineConstantExpr lr)
           | _ => AffineBinaryOpExpr Add lhs rhs
           end)
      = evalAffineExpr dims syms lhs + evalAffineExpr dims syms rhs).
    { destruct (mulParts lhs) as [c1 e1] eqn:H1.
      destruct (mulParts rhs) as [c2 e2] eqn:H2.
      case_decide as He.
      - subst e2. rewrite eval_affineMulConst.
        rewrite (mulParts_eval _ _ _ _ _ H1), (mulParts_eval _ _ _ _ _ H2).
        lia.
      - destruct lhs as [| | |k ll lr]; try done.
        destruct k; try done. destruct lr; try done.
        rewrite !IH. simpl. lia. }
    destruct lhs as [| | |k ll lr]; try exact Hmul.
    destruct k; try exact Hmul.
    destruct lr as [| |lrv|]; try exact Hmul.
    destruct rhs as [| |rv|]; try exact Hmul.
    rewrite IH. simpl. lia. }
  destruct lhs, rhs; try exact Hrest. done.
Qed.

Lemma eval_affineAdd dims syms lhs rhs :
  evalAffineExpr dims syms (affineAdd lhs rhs)
  = evalAffineExpr dims syms lhs + evalAffineExpr dims syms rhs.
Proof. apply eval_affineAddFuel. Qed.

Lemma eval_affineSub dims syms lhs rhs :
  evalAffineExpr dims syms (affineSub lhs rhs)
  = evalAffineExpr dims syms lhs - evalAffineExpr dims syms rhs.
Proof.
  unfold affineSub. rewrite eval_affineAdd, eval_affineMulConst. lia.
Qed.

(** ** Reuse buffers *)


Lemma reuseGuard_holds distance i :
  integerSetHolds (reuseGuard distance) [i] ↔ distance ≤ i.
Proof.
  unfold integerSetHolds, reuseGuard. simpl.
  rewrite Forall2_cons, eval_affineAdd. simpl.
  change ([i] !!! 0%nat) with i.
  split; [intros [? _]; lia|]. intros ?. split; [lia|constructor].
Qed.

Definition stencilResult : ReuseAtResult :=
  mkReuseResult [3] "s_reuse_0"
    (mkFor "x" (Some "s") 1 (ConstantBound 0) (ConstantBound 10) 0%nat [])
    (mkSet 1 [AffineBinaryOpExpr Add (AffineDimExpr 0)
                                 (AffineConstantExpr (-2))] [false])
    [0%nat] false.

Definition stencilGetLoop : GetLoop := λ o name, getLoopInNest 0 name o.

(** The 1-D stencil of §8: the buffer has 3 elements, the guard is
    [x >= 2], the loop runs over the 10 elements of the array. *)
Example stencil_reuse_at :
  runReuseAt stencilGetLoop stencilFunc stencilOp stencilArray
  = Some ([EmitWarning "Need to guarantee the loads have orders"],
          Some stencilResult) ∧
  buf_shape stencilResult = [3] ∧
  (∀ i, integerSetHolds (guardSet stencilResult) [i] ↔ 2 ≤ i).
Proof.
  split; [by vm_compute|]. split; [done|].
  intros i. apply (reuseGuard_holds 2).
Qed.

(** ** Windows of loads *)


























(** ** The loop at the reuse axis *)

Lemma walkLoops_AffineFor l body :
  walkLoops (AffineFor l body)
  = omap forHeader (flat_map walkForOps body) ++ [l].
Proof.
  unfold walkLoops.
  change (walkForOps (AffineFor l body))
    with (flat_map walkForOps body ++ [AffineFor l body]).
  by rewrite omap_app.
Qed.











(** ** Fuse: the failure of [coalesceLoops] *)

(** When the band is found and one of the loops to fuse is not normalized,
    [runFusing] returns failure, leaves the function as it is and emits no
    diagnostic. *)
Lemma runFusing_not_normalized find finish f fuseOp rootForOp band l :
  (2 ≤ length (fuse_loops fuseOp))%nat →
  lookupStage f (fuse_stage fuseOp) = Some rootForOp →
  walkFindBand find rootForOp (fuse_loops fuseOp) = Some band →
  (length (fuse_loops fuseOp) ≤ length band)%nat →
  l ∈ take (length (fuse_loops fuseOp)) band →
  isNormalizedLoop l = false →
  runFusing find finish f fuseOp = Some ([], failure, f).
Proof.
  intros Hn Hs Hb Hlen Hl Hnorm. unfold runFusing.
  rewrite decide_False by lia. rewrite Hs, Hb.
  rewrite decide_False by lia.
  assert (Hnone :
    coalesceLoops (take (length (fuse_loops fuseOp)) band) = None);
    [|by rewrite Hnone].
  unfold coalesceLoops. case_decide; [done|].
  destruct (take _ band) as [|outermost rest] eqn:Ht; [done|].
  assert (Hfalse : forallb isNormalizedLoop (outermost :: rest) = false);
    [|by rewrite Hfalse].
  apply not_true_is_false. intros Hall.
  rewrite forallb_forall in Hall.
  apply list_elem_of_In, Hall in Hl. congruence.
Qed.

Definition nonUnitStepFunc : FuncOp :=
  [ AffineFor (mkFor "i" (Some "s") 1 (ConstantBound 0) (ConstantBound 4)
                     0%nat [])
      [ AffineFor (mkFor "j" None 2 (ConstantBound 0) (ConstantBound 8)
                         1%nat [])
          [ AffineStore 10%nat 100%nat
              (mkMap 2 [AffineDimExpr 0; AffineDimExpr 1]) [0%nat; 1%nat] ] ] ].

(** C7 (the code departs from the claim). Fusing the loops [i] and [j] of
    a stage whose loop [j] has step 2 fails, as the claim says, but no
    diagnostic is emitted: the list of diagnostics is empty. *)
Theorem runFusing_non_unit_step_is_silent (finish : FinishFusing) :
  runFusing (λ o names, nestByNames names o) finish nonUnitStepFunc
            (mkFuseOp "s" ["i"; "j"])
  = Some ([], failure, nonUnitStepFunc).
Proof. reflexivity. Qed.

(** ** The schedule driver *)

(** A module state that logs the primitives that run; every split fails. *)
Definition loggingPrimitives : Primitives (list ScheduleOp) :=
  mkPrimitives
    (λ op st, (if decide (sched_kind op = IsSplitOp) then failure else success,
               st ++ [op]))
    (λ _ _, true) (λ _ _, true) (λ _ st, st).

Definition failingSplit : ScheduleOp := mkScheduleOp IsSplitOp 0.
Definition laterUnroll : ScheduleOp := mkScheduleOp IsUnrollOp 1.

(** C6 (the code departs from the claim). In the single-function mode the
    statement after a failing split is not handled; in the top-function mode
    the same program goes on: the unroll after the failing split runs and
    the driver returns true. *)
Theorem top_function_mode_continues_after_failure :
  applyLoopTransformationOnSingleFunction loggingPrimitives
    [HCLOp failingSplit; HCLOp laterUnroll] [] []
  = (false, [failingSplit], [failingSplit]) ∧
  applyLoopTransformation loggingPrimitives
    [mkFuncInfo true [HCLOp failingSplit; HCLOp laterUnroll]] []
  = (true, [failingSplit; laterUnroll], [failingSplit; laterUnroll]).
Proof. split; reflexivity. Qed.

(** ** Dead memref elimination *)

Lemma DceNode_nested_ind (P : DceNode → Prop) :
  (∀ op, P (DceOp op)) →
  (∀ name body, Forall P body → P (DceRegionOp name body)) →
  ∀ n, P n.
Proof.
  intros Hop Hreg. fix IH 1. intros [op|name body]; [apply Hop|].
  apply Hreg. induction body as [|n body IHb]; constructor;
    [apply IH|apply IHb].
Qed.

Lemma filter_ext_elem {A} (P Q : A → Prop) `{∀ x, Decision (P x)}
    `{∀ x, Decision (Q x)} (l : list A) :
  (∀ x, x ∈ l → (P x ↔ Q x)) → filter P l = filter Q l.
Proof.
  induction l as [|x l IH]; intros Hext; [done|].
  assert (filter P l = filter Q l) as IH'.
  { apply IH. intros y Hy. apply Hext. by right. }
  destruct (decide (P x)) as [HP|HP].
  - rewrite !filter_cons_True; [by f_equal| |done]. by apply Hext; [left|].
  - rewrite !filter_cons_False; [done| |done].
    intros HQ. apply HP, Hext; [left|done].
Qed.

(** Erasing operations removes them from the walk and nothing else. *)
Lemma walkOps_eraseOps dead f :
  walkOps (eraseOps dead f) = filter (λ o, op_id o ∉ dead) (walkOps f).
Proof.
  unfold walkOps, eraseOps.
  assert (Hnode : ∀ n, flat_map walkNode (eraseNode dead n)
                       = filter (λ o, op_id o ∉ dead) (walkNode n)).
  { induction n as [op|name body IHbody] using DceNode_nested_ind; simpl.
    - case_decide; simpl.
      + rewrite filter_cons_False; [done|]. by intros Hn.
      + by rewrite filter_cons_True by done.
    - rewrite app_nil_r.
      induction IHbody as [|n body Hn _ IHb]; simpl; [done|].
      by rewrite flat_map_app, filter_app, Hn, IHb. }
  induction f as [|n f IH]; simpl; [done|].
  by rewrite flat_map_app, filter_app, Hnode, IH.
Qed.

Lemma getUsers_elem f v u :
  u ∈ getUsers f v ↔ u ∈ walkOps f ∧ v ∈ op_operands u.
Proof. unfold getUsers. rewrite list_elem_of_filter. tauto. Qed.

Lemma existsb_elem {A} (p : A → bool) (l : list A) :
  existsb p l = true ↔ ∃ x, x ∈ l ∧ p x = true.
Proof.
  rewrite existsb_exists. split; intros (x & Hx & Hp); exists x;
    (split; [by apply list_elem_of_In|done]).
Qed.

Lemma op_id_inj f a b :
  NoDup (op_id <$> walkOps f) →
  a ∈ walkOps f → b ∈ walkOps f → op_id a = op_id b → a = b.
Proof.
  intros Hnd Ha Hb Hid.
  apply list_elem_of_lookup in Ha as [i Hi], Hb as [j Hj].
  assert (i = j) as ->; [|congruence].
  eapply (NoDup_lookup _ i j (op_id a) Hnd);
    rewrite list_lookup_fmap; [by rewrite Hi|by rewrite Hj, Hid].
Qed.

Lemma isAllocOp_not_load a :
  isAllocOp a = true → isLoadReturnOrCall a = false.
Proof.
  unfold isAllocOp, isLoadReturnOrCall. intros Ha.
  apply bool_decide_eq_true in Ha. rewrite Ha. reflexivity.
Qed.

(** An operation that goes with a never-loaded allocation is not a load, a
    return or a call. *)
Lemma goesWith_not_load f a o :
  NoDup (op_id <$> walkOps f) →
  a ∈ walkOps f → isAllocOp a = true → o ∈ walkOps f →
  goesWith f a o = true → isLoadReturnOrCall o = false.
Proof.
  intros Hnd Ha Halloc Ho. unfold goesWith.
  destruct (op_results a) as [|v vs]; [done|].
  rewrite andb_true_iff, negb_true_iff, orb_true_iff.
  rewrite !bool_decide_eq_true. intros [Hdead [Hid|Huse]].
  - rewrite (op_id_inj f o a); auto using isAllocOp_not_load.
  - destruct (isLoadReturnOrCall o) eqn:Hl; [|done].
    assert (existsb isLoadReturnOrCall (getUsers f v) = true) as Hex.
    { apply existsb_elem. exists o. split; [|done].
      by apply getUsers_elem. }
    congruence.
Qed.

Lemma goesWith_cons f a o v vs :
  op_results a = v :: vs →
  goesWith f a o
  = negb (existsb isLoadReturnOrCall (getUsers f v))
    && (bool_decide (op_id o = op_id a) || bool_decide (v ∈ op_operands o)).
Proof. unfold goesWith. by intros ->. Qed.

Lemma goesWith_nil f a o : op_results a = [] → goesWith f a o = false.
Proof. unfold goesWith. by intros ->. Qed.

(** The state of [removeNeverLoadedMemRef] after the allocations [done']
    and then [todo]: the operations of the function that go with none of
    them. *)
Lemma removeNeverLoaded_fold f0 (done' todo : list OpInfo) f :
  NoDup (op_id <$> walkOps f0) →
  Forall (λ a, a ∈ walkOps f0 ∧ isAllocOp a = true) (done' ++ todo) →
  walkOps f = filter (λ o, existsb (λ a, goesWith f0 a o) done' = false)
                     (walkOps f0) →
  walkOps (foldl removeIfNeverLoaded f todo)
  = filter (λ o, existsb (λ a, goesWith f0 a o) (done' ++ todo) = false)
           (walkOps f0).
Proof.
  intros Hnd. revert done' f.
  induction todo as [|a todo IH]; intros done' f Hall Hf.
  { by rewrite app_nil_r. }
  simpl. replace (done' ++ a :: todo) with ((done' ++ [a]) ++ todo)
    by (by rewrite <- app_assoc).
  apply IH; [by rewrite <- app_assoc|].
  assert (Ha : a ∈ walkOps f0 ∧ isAllocOp a = true).
  { rewrite Forall_app, Forall_cons in Hall. tauto. }
  assert (Hdone : Forall (λ a, a ∈ walkOps f0 ∧ isAllocOp a = true) done').
  { rewrite Forall_app in Hall. tauto. }
  (* the users that count are the same in [f] as in [f0] *)
  assert (Hlive : ∀ v, existsb isLoadReturnOrCall (getUsers f v)
                       = existsb isLoadReturnOrCall (getUsers f0 v)).
  { intros v. apply eq_true_iff_eq. rewrite !existsb_elem.
    split; intros (u & Hu & Hl); exists u; (split; [|done]);
      apply getUsers_elem in Hu as [Hu Hv]; apply getUsers_elem;
      (split; [|done]).
    - rewrite Hf in Hu. apply list_elem_of_filter in Hu. tauto.
    - rewrite Hf. apply list_elem_of_filter. split; [|done].
      apply not_true_is_false. rewrite existsb_elem.
      intros (a' & Ha' & Hg).
      rewrite Forall_forall in Hdone. destruct (Hdone a' Ha') as [? ?].
      rewrite (goesWith_not_load f0 a' u) in Hl; done. }
  unfold removeIfNeverLoaded.
  destruct (op_results a) as [|v vs] eqn:Hres.
  { rewrite Hf. apply filter_ext_elem. intros o Ho.
    rewrite existsb_app. simpl. rewrite (goesWith_nil _ _ _ Hres).
    by rewrite !orb_false_r. }
  rewrite Hlive.
  destruct (existsb isLoadReturnOrCall (getUsers f0 v)) eqn:Hex.
  { rewrite Hf. apply filter_ext_elem. intros o Ho.
    rewrite existsb_app. simpl. rewrite (goesWith_cons _ _ _ _ _ Hres), Hex.
    simpl. by rewrite !orb_false_r. }
  rewrite walkOps_eraseOps, Hf, list_filter_filter.
  apply filter_ext_elem. intros o Ho.
  rewrite existsb_app. simpl. rewrite (goesWith_cons _ _ _ _ _ Hres), Hex.
  simpl. rewrite orb_false_r, orb_false_iff.
  rewrite !orb_false_iff, !bool_decide_eq_false.
  rewrite not_elem_of_app, list_elem_of_singleton.
  split.
  - intros [[Hnu Hid] Hdn]. split; [done|]. split; [done|].
    intros Hv. apply Hnu. apply list_elem_of_fmap. exists o. split; [done|].
    apply getUsers_elem. split; [|done].
    rewrite Hf. apply list_elem_of_filter. done.
  - intros [Hdn [Hid Hv]]. split; [|done]. split; [|done].
    intros Hin. apply list_elem_of_fmap in Hin as (u & Hidu & Hu).
    apply getUsers_elem in Hu as [Hu Huv].
    assert (u ∈ walkOps f0) as Hu0.
    { rewrite Hf in Hu. apply list_elem_of_filter in Hu. tauto. }
    rewrite (op_id_inj f0 o u) in Hv; done.
Qed.

Lemma removeNeverLoadedMemRef_walk f :
  NoDup (op_id <$> walkOps f) →
  walkOps (removeNeverLoadedMemRef f)
  = filter (λ o, existsb (λ a, goesWith f a o)
                   (reverse (filter (λ op, isAllocOp op = true) (walkOps f)))
                 = false)
           (walkOps f).
Proof.
  intros Hnd. unfold removeNeverLoadedMemRef.
  rewrite (removeNeverLoaded_fold f [] _ f Hnd); [done| |].
  - simpl. apply Forall_forall. intros a Ha.
    rewrite elem_of_reverse, list_elem_of_filter in Ha. tauto.
  - simpl. symmetry. generalize (walkOps f) as l.
    induction l as [|x l IH]; [done|].
    rewrite filter_cons_True by done. by f_equal.
Qed.

Lemma existsb_goesWith f o :
  existsb (λ a, goesWith f a o)
    (reverse (filter (λ op, isAllocOp op = true) (walkOps f))) = true ↔
  ∃ a, a ∈ walkOps f ∧ isAllocOp a = true ∧ goesWith f a o = true.
Proof.
  rewrite existsb_elem. split.
  - intros (a & Ha & Hg). exists a.
    rewrite elem_of_reverse, list_elem_of_filter in Ha. tauto.
  - intros (a & Ha & Halloc & Hg). exists a. split; [|done].
    rewrite elem_of_reverse, list_elem_of_filter. done.
Qed.

Lemma removeNeverLoadedMemRef_elem f o :
  NoDup (op_id <$> walkOps f) →
  o ∈ walkOps (removeNeverLoadedMemRef f) ↔
  o ∈ walkOps f ∧
  ∀ a, a ∈ walkOps f → isAllocOp a = true → goesWith f a o = false.
Proof.
  intros Hnd. rewrite (removeNeverLoadedMemRef_walk f Hnd).
  rewrite list_elem_of_filter. split.
  - intros [Hex Ho]. split; [done|]. intros a Ha Halloc.
    apply not_true_is_false. intros Hg.
    apply not_true_iff_false in Hex. apply Hex.
    apply existsb_goesWith. by exists a.
  - intros [Ho Hall]. split; [|done].
    apply not_true_is_false. rewrite existsb_goesWith.
    intros (a & Ha & Halloc & Hg). rewrite Hall in Hg; done.
Qed.

Lemma walkOps_cleanUpOp g x :
  walkOps (cleanUpOp g x)
  = if bool_decide (op_results x ≠ []) && use_empty g x
    then filter (λ o, op_id o ≠ op_id x) (walkOps g) else walkOps g.
Proof.
  unfold cleanUpOp. destruct (_ && _); [|done].
  rewrite walkOps_eraseOps. apply filter_ext_elem. intros o _.
  by rewrite list_elem_of_singleton.
Qed.

Lemma use_empty_false g x v u :
  v ∈ op_results x → u ∈ walkOps g → v ∈ op_operands u →
  use_empty g x = false.
Proof.
  intros Hv Hu Huv. unfold use_empty. apply not_true_is_false.
  rewrite forallb_forall. intros Hall.
  apply list_elem_of_In, Hall, bool_decide_eq_true in Hv.
  assert (u ∈ getUsers g v) as Hin by (by apply getUsers_elem).
  rewrite Hv in Hin. by apply not_elem_of_nil in Hin.
Qed.

(** The walk of [cleanUpUnusedOps], from a state [g] in which the
    operations still to visit are present: it only erases, it erases no
    operation visited before, and it keeps an operation that has a user
    later in the walk. *)
Lemma cleanUp_fold (L pre todo : list OpInfo) g :
  NoDup (op_id <$> L) →
  L = pre ++ todo →
  (∀ x, x ∈ todo → x ∈ walkOps g) →
  (∀ x, x ∈ walkOps (foldl cleanUpOp g todo) → x ∈ walkOps g) ∧
  (∀ x, x ∈ pre → x ∈ walkOps g → x ∈ walkOps (foldl cleanUpOp g todo)) ∧
  (∀ o u v todo1 todo2,
     todo = todo1 ++ o :: todo2 → u ∈ todo2 →
     v ∈ op_results o → v ∈ op_operands u →
     o ∈ walkOps (foldl cleanUpOp g todo)).
Proof.
  intros Hnd. revert pre g.
  induction todo as [|x todo IH]; intros pre g HL Htodo.
  { simpl. split; [done|]. split; [done|].
    intros o u v [|] ? Heq; simplify_eq. }
  subst L.
  assert (Hidx : ∀ y, y ∈ pre ++ todo → op_id y ≠ op_id x).
  { intros y Hy Hid.
    rewrite fmap_app, fmap_cons in Hnd.
    apply NoDup_app in Hnd as (Hnd1 & Hdisj & Hnd2).
    apply NoDup_cons in Hnd2 as [Hx _].
    apply elem_of_app in Hy as [Hy|Hy].
    - apply (Hdisj (op_id x)).
      + rewrite <- Hid. by apply list_elem_of_fmap_2.
      + left.
    - apply Hx. rewrite <- Hid. by apply list_elem_of_fmap_2. }
  assert (Hkeep : ∀ y, y ∈ walkOps g → op_id y ≠ op_id x →
                       y ∈ walkOps (cleanUpOp g x)).
  { intros y Hy Hid. rewrite walkOps_cleanUpOp.
    destruct (_ && _); [|done]. apply list_elem_of_filter. done. }
  assert (Hsub : ∀ y, y ∈ walkOps (cleanUpOp g x) → y ∈ walkOps g).
  { intros y. rewrite walkOps_cleanUpOp.
    destruct (_ && _); [|done]. rewrite list_elem_of_filter. tauto. }
  destruct (IH (pre ++ [x]) (cleanUpOp g x)) as (IH1 & IH2 & IH3).
  { by rewrite <- app_assoc. }
  { intros y Hy. apply Hkeep.
    - apply Htodo. by right.
    - apply Hidx. apply elem_of_app. by right. }
  simpl. split; [|split].
  - intros y Hy. by apply Hsub, IH1.
  - intros y Hy Hg. apply IH2.
    + apply elem_of_app. by left.
    + apply Hkeep; [done|]. apply Hidx. apply elem_of_app. by left.
  - intros o u v todo1 todo2 Heq Hu Hv Huv.
    destruct todo1 as [|x' todo1]; simpl in Heq; simplify_eq.
    + apply IH2.
      * apply elem_of_app. right. left.
      * rewrite walkOps_cleanUpOp.
        rewrite (use_empty_false g o v u); [| done | | done].
        -- rewrite andb_false_r. apply Htodo. left.
        -- apply Htodo. by right.
    + by eapply IH3.
Qed.

Lemma cleanUpUnusedOps_sub f o :
  o ∈ walkOps (cleanUpUnusedOps f) → o ∈ walkOps f.
Proof.
  unfold cleanUpUnusedOps. revert o.
  generalize (walkOps f) at 1 as todo. intros todo. revert f.
  induction todo as [|x todo IH]; intros f o; simpl; [done|].
  intros Ho. apply IH in Ho. rewrite walkOps_cleanUpOp in Ho.
  destruct (_ && _); [|done]. apply list_elem_of_filter in Ho. tauto.
Qed.

Lemma cleanUpUnusedOps_keeps_used f o u v l1 l2 :
  NoDup (op_id <$> walkOps f) →
  walkOps f = l1 ++ o :: l2 → u ∈ l2 →
  v ∈ op_results o → v ∈ op_operands u →
  o ∈ walkOps (cleanUpUnusedOps f).
Proof.
  intros Hnd Hsplit Hu Hv Huv. unfold cleanUpUnusedOps.
  destruct (cleanUp_fold (walkOps f) [] (walkOps f) f Hnd eq_refl)
    as (_ & _ & H3); [done|].
  by eapply (H3 o u v l1 l2).
Qed.




Lemma indexedOps_lookup f (i : nat) o :
  walkOps f !! i = Some o → (i, o) ∈ indexedOps f.
Proof.
  intros Hi. unfold indexedOps. apply list_elem_of_lookup. exists i.
  by rewrite list_lookup_imap, Hi.
Qed.

Lemma checkedWellFormed_sound f : checkedWellFormed f → wellFormedFunc f.
Proof.
  intros (Hnd & Hops & Hdom). split; [done| |].
  - intros a b v Ha Hb Halloc Hballoc Hv.
    rewrite Forall_forall in Hops. specialize (Hops a Ha).
    rewrite Forall_forall in Hops. specialize (Hops b Hb Halloc Hballoc).
    rewrite Forall_forall in Hops. by apply Hops.
  - intros i j a u v Hi Hj Halloc Hv Huv.
    rewrite Forall_forall in Hdom.
    specialize (Hdom (i, a) (indexedOps_lookup _ _ _ Hi)).
    rewrite Forall_forall in Hdom.
    specialize (Hdom (j, u) (indexedOps_lookup _ _ _ Hj) Halloc).
    rewrite Forall_forall in Hdom. by apply (Hdom v).
Qed.

Lemma dceExampleFunc_wellFormed : wellFormedFunc dceExampleFunc.
Proof.
  apply checkedWellFormed_sound.
  apply (bool_decide_unpack _). by vm_compute.
Qed.



(** The example function after the pass: [%b] and the store to it are
    erased by [removeNeverLoadedMemRef], the load whose result the store
    used is erased by [cleanUpUnusedOps], [%a] stays. *)
Example applyMemRefDCE_example :
  applyMemRefDCE [dceExampleFunc]
  = (true, [[ DceOp dceExampleAllocA;
              DceRegionOp "affine.for" [];
              DceOp (mkOpInfo 4 "func.return" [] []) ]]).
Proof. by vm_compute. Qed.

(** * Further properties of the transformations *)

(** ** Fuse *)

(** [coalesceLoops] (lines 594-612) returns success exactly for two or
    more loops that are all normalized: step 1, constant lower bound 0 and a
    constant upper bound.  Nothing after the two checks can fail. *)
Theorem coalesceLoops_succeeds_iff (loops : list AffineForOp) :
  is_Some (coalesceLoops loops) ↔
  (2 ≤ length loops)%nat ∧
  Forall (λ l, step l = 1 ∧ getConstantLowerBound l = Some 0 ∧
               is_Some (getConstantUpperBound l)) loops.
Proof.
  assert (∀ l, isNormalizedLoop l = true ↔
               step l = 1 ∧ getConstantLowerBound l = Some 0 ∧
               is_Some (getConstantUpperBound l)) as Hnorm.
  { intros l. unfold isNormalizedLoop, hasConstantLowerBound,
      hasConstantUpperBound, getConstantLowerBound, getConstantUpperBound.
    rewrite !andb_true_iff, !bool_decide_eq_true.
    destruct (lowerBound l), (upperBound l); simpl;
      split; intros; destruct_and?; repeat split; eauto;
      try congruence; try by (exfalso; eapply is_Some_None; eauto). }
  unfold coalesceLoops. split.
  - case_decide as Hlen; [by intros [? ?]|].
    destruct loops as [|outermost inner] eqn:Hloops; [by intros [? ?]|].
    rewrite <- Hloops in *. clear Hloops.
    destruct (forallb isNormalizedLoop loops) eqn:Hall; [|by intros [? ?]].
    intros _. split; [lia|].
    apply Forall_forall. intros l Hl. apply Hnorm.
    apply (proj1 (forallb_forall _ _) Hall). by apply list_elem_of_In.
  - intros [Hlen Hall].
    rewrite decide_False by lia.
    destruct loops as [|outermost inner] eqn:Hloops; [simpl in Hlen; lia|].
    rewrite <- Hloops in *. clear Hloops.
    assert (forallb isNormalizedLoop loops = true) as ->.
    { apply forallb_forall. intros l Hl. apply Hnorm.
      eapply (proj1 (Forall_forall _ _)) in Hall; [done|].
      by apply list_elem_of_In. }
    destruct (remapInductionVars_Some loops (length loops)
                (InductionVarOf (inductionVar outermost)))
      as (ivs & -> & _); [done|].
    by eexists.
Qed.

(** Step 2 of [coalesceLoops] (lines 620-629): the product of the trip
    counts is accumulated in an [int64_t], so the constant upper bound given
    to the fused loop is that product modulo 2^64 (as a signed number); the
    fused loop is the outermost loop in everything else, and every original
    induction variable gets one replacement. *)
Theorem coalesceLoops_bound_wraps (loops : list AffineForOp)
    (c : CoalescedLoop) :
  coalesceLoops loops = Some c →
  ∃ outermost, head loops = Some outermost ∧
    fusedLoop c
      = setConstantUpperBound outermost
          (wrap64 (product (constantUpperBounds loops))) ∧
    length (remappedIVs c) = length loops.
Proof.
  unfold coalesceLoops.
  case_decide as Hlen; [done|].
  destruct loops as [|outermost inner] eqn:Hloops; [done|].
  rewrite <- Hloops in *.
  destruct (forallb isNormalizedLoop loops); [|done].
  destruct (remapInductionVars_Some loops (length loops)
              (InductionVarOf (inductionVar outermost)))
    as (ivs & Hivs & Hn); [done|].
  rewrite Hivs. simpl. intros [= <-].
  exists outermost. split; [by rewrite Hloops|]. simpl. split; [|done].
  f_equal. unfold coalescedUpperBound.
  rewrite coalescedUpperBound_fold by done.
  by rewrite Z.mul_1_l.
Qed.

Lemma coalesceLoops_bound_wraps_witness :
  ∃ outermost, head wideLoops = Some outermost ∧
    fusedLoop (mkCoalesced
                 (mkFor "i" (Some "s") 1 (ConstantBound 0) (ConstantBound 0)
                        0%nat [])
                 [AffineApplyOp 1 floorDivMap
                    [InductionVarOf 0%nat; ConstantIndexOp (2 ^ 32)];
                  AffineApplyOp 1 modMap
                    [InductionVarOf 0%nat; ConstantIndexOp (2 ^ 32)]])
      = setConstantUpperBound outermost
          (wrap64 (product (constantUpperBounds wideLoops))) ∧
    length [AffineApplyOp 1 floorDivMap
              [InductionVarOf 0%nat; ConstantIndexOp (2 ^ 32)];
            AffineApplyOp 1 modMap
              [InductionVarOf 0%nat; ConstantIndexOp (2 ^ 32)]]
    = length wideLoops.
Proof.
  apply (coalesceLoops_bound_wraps wideLoops).
  vm_compute. reflexivity.
Defined.

Lemma string_app_assoc (a b c : string) : (a +:+ b) +:+ c = a +:+ (b +:+ c).
Proof.
  induction a as [|x a IH]; [done|].
  change (String x ((a +:+ b) +:+ c) = String x (a +:+ (b +:+ c))).
  by rewrite IH.
Qed.

Lemma fusedLoopName_concat (nameArr : list string) :
  fusedLoopName nameArr = String.concat "_" (nameArr ++ ["fused"]).
Proof.
  unfold fusedLoopName.
  assert (∀ acc, foldl (λ new_name name, new_name +:+ name +:+ "_") acc nameArr
                 +:+ "fused"
                 = acc +:+ String.concat "_" (nameArr ++ ["fused"])) as H.
  { induction nameArr as [|n rest IH]; intros acc; [done|].
    simpl foldl. rewrite IH.
    change ((n :: rest) ++ ["fused"]) with (n :: (rest ++ ["fused"])).
    destruct (rest ++ ["fused"]) as [|y ys] eqn:E.
    { by destruct rest. }
    change (String.concat "_" (n :: y :: ys))
      with (n +:+ "_" +:+ String.concat "_" (y :: ys)).
    by rewrite !string_app_assoc. }
  by rewrite H.
Qed.

(** [runFusing] (lines 711-804): once the stage and a band that covers the
    named loops are found and the named loops are normalized, the first
    [sizeOfFusedLoops] loops of the band are coalesced, and the rest of the
    primitive works on the coalesced loop under the name made of the loop
    names and [fused], joined by underscores. *)
Theorem runFusing_coalesces_band find finish f fuseOp rootForOp band :
  (2 ≤ length (fuse_loops fuseOp))%nat →
  lookupStage f (fuse_stage fuseOp) = Some rootForOp →
  walkFindBand find rootForOp (fuse_loops fuseOp) = Some band →
  (length (fuse_loops fuseOp) ≤ length band)%nat →
  Forall (λ l, isNormalizedLoop l = true)
         (take (length (fuse_loops fuseOp)) band) →
  ∃ c,
    coalesceLoops (take (length (fuse_loops fuseOp)) band) = Some c ∧
    runFusing find finish f fuseOp
    = finish f c (String.concat "_" (fuse_loops fuseOp ++ ["fused"])).
Proof.
  intros Hnames Hstage Hband Hlen Hnorm.
  set (k := length (fuse_loops fuseOp)) in *.
  assert (is_Some (coalesceLoops (take k band))) as [c Hc].
  { unfold coalesceLoops.
    rewrite decide_False by (rewrite length_take; lia).
    destruct (take k band) as [|o rest] eqn:Htake.
    { apply (f_equal length) in Htake. rewrite length_take in Htake.
      simpl in Htake. lia. }
    rewrite <- Htake in *.
    assert (forallb isNormalizedLoop (take k band) = true) as ->.
    { apply forallb_forall. intros l Hl.
      eapply (proj1 (Forall_forall _ _)) in Hnorm; [done|].
      by apply list_elem_of_In. }
    destruct (remapInductionVars_Some (take k band) (length (take k band))
                (InductionVarOf (inductionVar o))) as (ivs & -> & _); [done|].
    by eexists. }
  exists c. split; [done|].
  unfold runFusing. fold k.
  rewrite decide_False by lia.
  rewrite Hstage, Hband.
  rewrite decide_False by lia.
  rewrite Hc. by rewrite fusedLoopName_concat.
Qed.

Lemma runFusing_coalesces_band_witness :
  ∃ c,
    coalesceLoops
      (take (length (fuse_loops fuseExampleOp))
            [mkFor "i" (Some "s") 1 (ConstantBound 0) (ConstantBound 4) 0%nat [];
             mkFor "j" None 1 (ConstantBound 0) (ConstantBound 8) 1%nat []])
      = Some c ∧
    runFusing (λ o names, nestByNames names o) recordFused fuseExampleFunc
      fuseExampleOp
    = recordFused fuseExampleFunc c
        (String.concat "_" (fuse_loops fuseExampleOp ++ ["fused"])).
Proof.
  apply (runFusing_coalesces_band (λ o names, nestByNames names o)
           recordFused fuseExampleFunc
           fuseExampleOp
           (AffineFor (mkFor "i" (Some "s") 1 (ConstantBound 0)
                             (ConstantBound 4) 0%nat [])
              [ AffineFor (mkFor "j" None 1 (ConstantBound 0) (ConstantBound 8)
                                 1%nat [])
                  [ AffineStore 10%nat 100%nat
                      (mkMap 2 [AffineDimExpr 0; AffineDimExpr 1])
                      [0%nat; 1%nat] ] ])).
  - simpl. lia.
  - vm_compute. reflexivity.
  - vm_compute. reflexivity.
  - simpl. lia.
  - apply Forall_cons_2; [by vm_compute|].
    apply Forall_cons_2; [by vm_compute|]. apply Forall_nil_2.
Defined.

(** ** Partition *)

Lemma ceilDiv_bounds E f : 0 < f → E ≤ f * ceilDiv E f < E + f.
Proof.
  intros Hf. unfold ceilDiv.
  pose proof (Z.div_mod (- E) f ltac:(lia)).
  pose proof (Z.mod_pos_bound (- E) f Hf). lia.
Qed.

(** The values of the two components of a selected dimension.  The factor
    matters for a cyclic and a block partition only; a complete partition
    may come without one. *)
Lemma runPartition_selected_eval op ty diags ty' (d : nat) (E f : Z)
    (idx : list Z) :
  runPartition op ty = (diags, Some ty') →
  isSelectedDim (partition_dim op) d = true →
  shape ty !! d = Some E →
  (partition_kind op ≠ CompletePartition →
     partition_factor op = Some f ∧ 0 < f ∧ 0 ≤ E ∧ E + f ≤ INT64_MAX) →
  ∃ bank offset,
    layout ty' !! d = Some bank ∧
    layout ty' !! (getRank ty + d)%nat = Some offset ∧
    match partition_kind op with
    | CyclicPartition =>
        evalAffineExpr idx [] bank = (idx !!! d) mod f ∧
        evalAffineExpr idx [] offset = (idx !!! d) / f
    | BlockPartition =>
        evalAffineExpr idx [] bank = (idx !!! d) / ceilDiv E f ∧
        evalAffineExpr idx [] offset = (idx !!! d) mod ceilDiv E f
    | CompletePartition =>
        evalAffineExpr idx [] bank = idx !!! d ∧
        evalAffineExpr idx [] offset = 0
    end.
Proof.
  intros Hrun Hsel HE Hfactor.
  destruct (runPartition_components _ _ _ _ Hrun)
    as (factor & Hfac & _ & Hlen & Hcomp).
  destruct (Hcomp d) as (p & a & Hdim & Hp & Ha).
  { apply lookup_lt_Some in HE. done. }
  exists p, a. split; [done|]. split; [done|].
  unfold partitionDim in Hdim. rewrite Hsel in Hdim.
  unfold partitionSelected in Hdim.
  destruct (partition_kind op) eqn:Hkind.
  - by simplify_eq/=.
  - destruct Hfactor as (Hf & Hpos & HEpos & Hmax); [done|].
    assert (factor = f) as -> by (destruct Hfac as [?|[? _]]; congruence).
    rewrite HE in Hdim. simpl in Hdim.
    rewrite blockFactorOf_ceil in Hdim by done. simplify_eq/=.
    by rewrite eval_affineFloorDiv, eval_affineMod.
  - destruct Hfactor as (Hf & Hpos & HEpos & Hmax); [done|].
    assert (factor = f) as -> by (destruct Hfac as [?|[? _]]; congruence).
    simplify_eq/=.
    by rewrite eval_affineFloorDiv, eval_affineMod.
Qed.

(** [runPartition] (lines 989-995 and 1016-1043): on a selected dimension
    the bank index of an element inside the array is a valid bank number:
    below the factor for a cyclic or block partition with a positive factor,
    below the extent for a complete partition, with or without factor. *)
Theorem runPartition_bank_in_range op ty diags ty' (d : nat) (E f : Z)
    (idx : list Z) :
  runPartition op ty = (diags, Some ty') →
  isSelectedDim (partition_dim op) d = true →
  shape ty !! d = Some E →
  (partition_kind op ≠ CompletePartition →
     partition_factor op = Some f ∧ 0 < f ∧ E + f ≤ INT64_MAX) →
  0 ≤ idx !!! d < E →
  ∃ bank,
    layout ty' !! d = Some bank ∧
    0 ≤ evalAffineExpr idx [] bank
      < (if decide (partition_kind op = CompletePartition) then E else f).
Proof.
  intros Hrun Hsel HE Hfactor Hidx.
  destruct (runPartition_selected_eval op ty diags ty' d E f idx)
    as (bank & offset & Hb & _ & Hval); try done.
  { intros Hk. destruct (Hfactor Hk) as (? & ? & ?).
    repeat split; [done|done|lia|done]. }
  exists bank. split; [done|].
  destruct (partition_kind op); simpl in *.
  - destruct Hval as [-> _]. lia.
  - destruct Hfactor as (_ & Hpos & _); [done|].
    destruct Hval as [-> _].
    pose proof (ceilDiv_bounds E f Hpos) as Hc.
    assert (0 < ceilDiv E f) by nia.
    split; [apply Z.div_pos; lia|].
    apply Z.div_lt_upper_bound; [done|]. nia.
  - destruct Hfactor as (_ & Hpos & _); [done|].
    destruct Hval as [-> _]. apply Z.mod_pos_bound. done.
Qed.

Lemma runPartition_bank_in_range_witness :
  (∃ bank,
     layout partitionWitnessResult !! 0%nat = Some bank ∧
     0 ≤ evalAffineExpr [7; 2] [] bank
       < (if decide (partition_kind partitionWitnessOp = CompletePartition)
          then 8 else 3)) ∧
  (∃ bank,
     layout completeWitnessResult !! 0%nat = Some bank ∧
     0 ≤ evalAffineExpr [7] [] bank
       < (if decide (partition_kind completeWitnessOp = CompletePartition)
          then 8 else 0)).
Proof.
  split.
  - apply (runPartition_bank_in_range partitionWitnessOp partitionWitnessType
             [] partitionWitnessResult 0 8 3 [7; 2]).
    + vm_compute. reflexivity.
    + vm_compute. reflexivity.
    + reflexivity.
    + intros _. split; [reflexivity|]. split; [lia|].
      vm_compute. discriminate.
    + vm_compute. split; [discriminate|reflexivity].
  - apply (runPartition_bank_in_range completeWitnessOp completeWitnessType
             [] completeWitnessResult 0 8 0 [7]).
    + vm_compute. reflexivity.
    + vm_compute. reflexivity.
    + reflexivity.
    + intros Hk. by destruct Hk.
    + vm_compute. split; [discriminate|reflexivity].
Defined.

(** [runPartition] (lines 989-995 and 1016-1043): on a selected dimension
    the bank index and the offset together determine the index, so two
    elements never share a bank and an offset: a cyclic partition has
    [i = offset * factor + bank], a block partition
    [i = bank * ceil(E / factor) + offset], a complete one, with or without
    factor, [i = bank] with offset 0. *)
Theorem runPartition_index_recovered op ty diags ty' (d : nat) (E f : Z)
    (idx : list Z) :
  runPartition op ty = (diags, Some ty') →
  isSelectedDim (partition_dim op) d = true →
  shape ty !! d = Some E →
  (partition_kind op ≠ CompletePartition →
     partition_factor op = Some f ∧ 0 < f ∧ 0 < E ∧ E + f ≤ INT64_MAX) →
  ∃ bank offset,
    layout ty' !! d = Some bank ∧
    layout ty' !! (getRank ty + d)%nat = Some offset ∧
    (partition_kind op = CompletePartition →
       evalAffineExpr idx [] offset = 0) ∧
    idx !!! d
    = match partition_kind op with
      | CyclicPartition =>
          evalAffineExpr idx [] offset * f + evalAffineExpr idx [] bank
      | BlockPartition =>
          evalAffineExpr idx [] bank * ceilDiv E f + evalAffineExpr idx [] offset
      | CompletePartition =>
          evalAffineExpr idx [] bank + evalAffineExpr idx [] offset
      end.
Proof.
  intros Hrun Hsel HE Hfactor.
  destruct (runPartition_selected_eval op ty diags ty' d E f idx)
    as (bank & offset & Hb & Ho & Hval); try done.
  { intros Hk. destruct (Hfactor Hk) as (? & ? & ? & ?).
    repeat split; [done|done|lia|done]. }
  exists bank, offset. split; [done|]. split; [done|].
  destruct (partition_kind op); simpl.
  - destruct Hval as [-> ->]. split; [done|lia].
  - destruct Hfactor as (_ & Hpos & HEpos & _); [done|].
    destruct Hval as [-> ->]. split; [done|].
    pose proof (ceilDiv_bounds E f Hpos) as Hc.
    assert (0 < ceilDiv E f) by nia.
    pose proof (Z.div_mod (idx !!! d) (ceilDiv E f) ltac:(lia)). lia.
  - destruct Hfactor as (_ & Hpos & _); [done|].
    destruct Hval as [-> ->]. split; [done|].
    pose proof (Z.div_mod (idx !!! d) f ltac:(lia)). lia.
Qed.

Lemma runPartition_index_recovered_witness :
  (∃ bank offset,
     layout partitionWitnessResult !! 0%nat = Some bank ∧
     layout partitionWitnessResult !! (getRank partitionWitnessType + 0)%nat
       = Some offset ∧
     (partition_kind partitionWitnessOp = CompletePartition →
        evalAffineExpr [7; 2] [] offset = 0) ∧
     [7; 2] !!! 0%nat
     = match partition_kind partitionWitnessOp with
       | CyclicPartition =>
           evalAffineExpr [7; 2] [] offset * 3 + evalAffineExpr [7; 2] [] bank
       | BlockPartition =>
           evalAffineExpr [7; 2] [] bank * ceilDiv 8 3
           + evalAffineExpr [7; 2] [] offset
       | CompletePartition =>
           evalAffineExpr [7; 2] [] bank + evalAffineExpr [7; 2] [] offset
       end) ∧
  (∃ bank offset,
     layout completeWitnessResult !! 0%nat = Some bank ∧
     layout completeWitnessResult !! (getRank completeWitnessType + 0)%nat
       = Some offset ∧
     (partition_kind completeWitnessOp = CompletePartition →
        evalAffineExpr [7] [] offset = 0) ∧
     [7] !!! 0%nat
     = match partition_kind completeWitnessOp with
       | CyclicPartition =>
           evalAffineExpr [7] [] offset * 0 + evalAffineExpr [7] [] bank
       | BlockPartition =>
           evalAffineExpr [7] [] bank * ceilDiv 8 0
           + evalAffineExpr [7] [] offset
       | CompletePartition =>
           evalAffineExpr [7] [] bank + evalAffineExpr [7] [] offset
       end).
Proof.
  split.
  - apply (runPartition_index_recovered partitionWitnessOp
             partitionWitnessType [] partitionWitnessResult 0 8 3 [7; 2]).
    + vm_compute. reflexivity.
    + vm_compute. reflexivity.
    + reflexivity.
    + intros _. split; [reflexivity|]. split; [lia|]. split; [lia|].
      vm_compute. discriminate.
  - apply (runPartition_index_recovered completeWitnessOp
             completeWitnessType [] completeWitnessResult 0 8 0 [7]).
    + vm_compute. reflexivity.
    + vm_compute. reflexivity.
    + reflexivity.
    + intros Hk. by destruct Hk.
Defined.

(** [runPartition] (lines 1011-1015 and 1055-1066): the warning about an
    array partitioned before is emitted exactly when the layout map does not
    have [rank] results; a partition that succeeds keeps the shape and leaves
    a layout map of [2 * rank] results, so that every later partition of an
    array with at least one dimension emits the warning. *)
Theorem runPartition_again_warns op1 op2 ty ty1 ty2 diags1 diags2 :
  (0 < getRank ty)%nat →
  runPartition op1 ty = (diags1, Some ty1) →
  runPartition op2 ty1 = (diags2, Some ty2) →
  (diags1 = [] ↔ length (layout ty) = getRank ty) ∧
  diags2 = [EmitWarning "Partition on the array partitioned before. The original layout map will be rewritten!"] ∧
  shape ty2 = shape ty ∧
  length (layout ty2) = (2 * getRank ty)%nat.
Proof.
  intros Hrank Hrun1 Hrun2.
  destruct (runPartition_components _ _ _ _ Hrun1) as (_ & _ & Hs1 & Hl1 & _).
  destruct (runPartition_components _ _ _ _ Hrun2) as (_ & _ & Hs2 & Hl2 & _).
  assert (getRank ty1 = getRank ty) as Hr by (unfold getRank; by rewrite Hs1).
  rewrite Hr in Hl2.
  split; [|split; [|split; [congruence|done]]].
  - assert (diags1 = if decide (length (layout ty) ≠ getRank ty)
                     then [EmitWarning "Partition on the array partitioned before. The original layout map will be rewritten!"]
                     else []) as ->.
    { unfold runPartition in Hrun1.
      destruct (partition_factor op1);
        [|destruct (decide (partition_kind op1 ≠ CompletePartition));
          [done|]];
        (destruct (mapM _ _); [|done]); by injection Hrun1 as <- _. }
    case_decide; split; intros; done.
  - unfold runPartition in Hrun2.
    rewrite (decide_True (P := length (layout ty1) ≠ getRank ty1)) in Hrun2
      by lia.
    destruct (partition_factor op2);
      [|destruct (decide (partition_kind op2 ≠ CompletePartition));
        [done|]];
      (destruct (mapM _ _); [|done]); by injection Hrun2 as <- _.
Qed.

Lemma runPartition_again_warns_witness :
  (@nil Diagnostic = [] ↔ length (layout partitionWitnessType)
             = getRank partitionWitnessType) ∧
  [EmitWarning "Partition on the array partitioned before. The original layout map will be rewritten!"]
  = [EmitWarning "Partition on the array partitioned before. The original layout map will be rewritten!"] ∧
  shape repartitionWitnessResult = shape partitionWitnessType ∧
  length (layout repartitionWitnessResult)
  = (2 * getRank partitionWitnessType)%nat.
Proof.
  apply (runPartition_again_warns partitionWitnessOp repartitionWitnessOp
           partitionWitnessType partitionWitnessResult repartitionWitnessResult
           []
           [EmitWarning "Partition on the array partitioned before. The original layout map will be rewritten!"]).
  - vm_compute. lia.
  - vm_compute. reflexivity.
  - vm_compute. reflexivity.
Defined.

(** ** Reorder *)

Lemma getStage_lookup f stage pos :
  getStage f stage = Some pos →
  ∃ l body, f !! pos = Some (AffineFor l body) ∧ stage_name l = Some stage.
Proof.
  revert pos. induction f as [|o f IH]; intros pos; simpl; [done|].
  destruct o as [l body| | | |];
    try (destruct (getStage f stage) as [p|] eqn:E; simpl; [|done];
         intros [= <-]; by apply IH).
  case_decide as Hs.
  - intros [= <-]. by exists l, body.
  - destruct (getStage f stage) as [p|] eqn:E; simpl; [|done].
    intros [= <-]. by apply IH.
Qed.

Lemma getPerfectlyNestedLoops_nested l l' body' :
  getPerfectlyNestedLoops (AffineFor l [AffineFor l' body'])
  = let '(nest, innerBody) := getPerfectlyNestedLoops (AffineFor l' body') in
    (l :: nest, innerBody).
Proof. reflexivity. Qed.

Lemma getPerfectlyNestedLoops_cons l body :
  ∃ nest, (getPerfectlyNestedLoops (AffineFor l body)).1 = l :: nest.
Proof.
  destruct body as [|inner rest]; [by exists []|].
  destruct rest as [|o rest]; [|destruct inner; by exists []].
  destruct inner as [l' body'| | | |]; try by exists [].
  rewrite getPerfectlyNestedLoops_nested.
  destruct (getPerfectlyNestedLoops (AffineFor l' body')) as [nest ib].
  by exists nest.
Qed.

Lemma getPerfectlyNestedLoops_head l body :
  ∃ nest, (getPerfectlyNestedLoops (AffineFor l body)).1 = l :: nest ∧
          (nest = [] ↔ ∀ inner innerBody, body ≠ [AffineFor inner innerBody]).
Proof.
  destruct body as [|inner rest].
  { exists []. simpl. split; [done|]. split; [by intros _ ? ?|done]. }
  destruct rest as [|o rest].
  2:{ exists []. destruct inner; simpl; (split; [done|]);
        (split; [by intros _ ? ?|done]). }
  destruct inner as [l' body'| | | |];
    try (exists []; simpl; split; [done|]; split; [by intros _ ? ?|done]).
  rewrite getPerfectlyNestedLoops_nested.
  destruct (getPerfectlyNestedLoops_cons l' body') as (nest' & Hn).
  destruct (getPerfectlyNestedLoops (AffineFor l' body')) as [nest ib] eqn:E.
  simpl in Hn. subst nest.
  exists (l' :: nest'). split; [done|].
  split; [done|]. intros H. by destruct (H l' body').
Qed.

(** The perfect nest read off a loop rebuilds that loop. *)
Lemma buildNest_getPerfectlyNestedLoops :
  ∀ root l body, root = AffineFor l body →
    ∀ nest innerBody, getPerfectlyNestedLoops root = (nest, innerBody) →
      buildNest nest innerBody = [root].
Proof.
  fix IH 1. intros root.
  destruct root as [l body| | | |]; intros l0 body0 Heq; try discriminate.
  clear l0 body0 Heq. intros nest ib.
  destruct body as [|inner rest].
  { simpl. by intros [= <- <-]. }
  destruct rest as [|o rest].
  2:{ destruct inner; simpl; by intros [= <- <-]. }
  pose proof (IH inner) as IHinner.
  destruct inner as [l' body'| | | |]; try (simpl; by intros [= <- <-]).
  rewrite getPerfectlyNestedLoops_nested.
  destruct (getPerfectlyNestedLoops (AffineFor l' body')) as [nest' ib'] eqn:E.
  intros [= <- <-].
  change (buildNest (l :: nest') ib') with [AffineFor l (buildNest nest' ib')].
  by rewrite (IHinner _ _ eq_refl _ _ eq_refl).
Qed.

(** [runReordering] (lines 332-439) fails in three situations only, each
    with one error and the function as it was: fewer than two loops are
    named, the stage is not found, or the perfect nest of the stage is a
    single loop.  In the last one the error reads that the size of the band
    (1) is not consistent with the size of the permutation mapping (1): the
    two sizes are always equal, so the test of step 6 can only fail on the
    size of the nest. *)
Theorem runReordering_failure_cases f op diags f' :
  runReordering f op = Some (diags, failure, f') →
  f' = f ∧
  ((length (reorder_loops op) < 2)%nat ∧
   diags = [EmitError "Should at least input 2 loops to be reordered"]
   ∨ (2 ≤ length (reorder_loops op))%nat ∧
     getStage f (reorder_stage op) = None ∧
     diags = [EmitError ("Cannot find Stage " +:+ reorder_stage op)]
   ∨ (2 ≤ length (reorder_loops op))%nat ∧
     ∃ pos l body,
       getStage f (reorder_stage op) = Some pos ∧
       f !! pos = Some (AffineFor l body) ∧
       (∀ inner innerBody, body ≠ [AffineFor inner innerBody]) ∧
       diags = [EmitError "Cannot permute the loops because the size of the perfectly nested loop band (1) is not consistent with the size of permutation mapping (1)"]).
Proof.
  unfold runReordering.
  case_decide as Hn.
  { intros [= <- <-]. split; [done|]. by left. }
  destruct (getStage f (reorder_stage op)) as [pos|] eqn:Hstage.
  2:{ intros [= <- <-]. split; [done|]. right; left. split; [lia|done]. }
  destruct (getStage_lookup _ _ _ Hstage) as (l & body & Hpos & _).
  remember (AffineFor l body) as root eqn:Hroot.
  rewrite Hpos. simpl.
  destruct (getPerfectlyNestedLoops root) as [nest ib] eqn:Hnest.
  destruct (fillMissingLoops _ _ _) as [new|]; simpl; [|done].
  case_decide as Hsize.
  { destruct (permuteLoops _ _); simpl; [|done]. done. }
  intros [= <- <-]. split; [done|]. right; right. split; [lia|].
  exists pos, l, body. split; [done|]. split; [by rewrite Hpos, Hroot|].
  destruct (getPerfectlyNestedLoops_head l body) as (rest & Hhead & Hrest).
  rewrite <- Hroot, Hnest in Hhead. simpl in Hhead. subst nest.
  unfold buildPermMap in *. rewrite !length_fmap in *.
  assert (rest = []) as -> by (destruct rest; [done|simpl in Hsize; lia]).
  split; [by apply Hrest|]. reflexivity.
Qed.

Lemma runReordering_failure_cases_witness :
  singleLoopFunc = singleLoopFunc ∧
  ((length (reorder_loops (mkReorderOp "s" ["i"; "j"])) < 2)%nat ∧
   [EmitError "Cannot permute the loops because the size of the perfectly nested loop band (1) is not consistent with the size of permutation mapping (1)"]
   = [EmitError "Should at least input 2 loops to be reordered"]
   ∨ (2 ≤ length (reorder_loops (mkReorderOp "s" ["i"; "j"])))%nat ∧
     getStage singleLoopFunc (reorder_stage (mkReorderOp "s" ["i"; "j"]))
       = None ∧
     [EmitError "Cannot permute the loops because the size of the perfectly nested loop band (1) is not consistent with the size of permutation mapping (1)"]
     = [EmitError ("Cannot find Stage "
                   +:+ reorder_stage (mkReorderOp "s" ["i"; "j"]))]
   ∨ (2 ≤ length (reorder_loops (mkReorderOp "s" ["i"; "j"])))%nat ∧
     ∃ pos l body,
       getStage singleLoopFunc (reorder_stage (mkReorderOp "s" ["i"; "j"]))
         = Some pos ∧
       singleLoopFunc !! pos = Some (AffineFor l body) ∧
       (∀ inner innerBody, body ≠ [AffineFor inner innerBody]) ∧
       [EmitError "Cannot permute the loops because the size of the perfectly nested loop band (1) is not consistent with the size of permutation mapping (1)"]
       = [EmitError "Cannot permute the loops because the size of the perfectly nested loop band (1) is not consistent with the size of permutation mapping (1)"]).
Proof.
  apply (runReordering_failure_cases singleLoopFunc
           (mkReorderOp "s" ["i"; "j"])).
  vm_compute. reflexivity.
Defined.

Lemma fillMissingLoops_sublist args :
  ∀ rest (c : nat),
    NoDup rest → sublist (drop c args) rest →
    (∀ n, n ∈ rest → n ∈ args → n ∈ drop c args) →
    fillMissingLoops rest args c = Some rest.
Proof.
  induction rest as [|name rest IH]; intros c Hnd Hsub Hin; [done|].
  apply NoDup_cons in Hnd as [Hname Hnd].
  simpl. case_decide as Hargs.
  - assert (name ∈ drop c args) as Hd by (apply Hin; [left|done]).
    apply sublist_cons_r in Hsub as [Hsub|(l' & Hl' & Hsub)].
    { exfalso. apply Hname. eapply elem_of_sublist; eauto. }
    assert (args !! c = Some name) as ->.
    { rewrite <- (Nat.add_0_r c), <- lookup_drop, Hl'. done. }
    simpl.
    assert (drop (S c) args = l') as Hdrop.
    { rewrite <- (Nat.add_1_r c), <- drop_drop, Hl'. done. }
    rewrite IH; [done|done|by rewrite Hdrop|].
    intros n Hn Hna. rewrite Hdrop.
    assert (n ∈ drop c args) as Hnd' by (apply Hin; [by right|done]).
    rewrite Hl' in Hnd'. apply elem_of_cons in Hnd' as [->|]; done.
  - apply sublist_cons_r in Hsub as [Hsub|(l' & Hl' & Hsub)].
    2:{ exfalso. apply Hargs.
        assert (drop c args !! 0%nat = Some name) as H0 by by rewrite Hl'.
        rewrite lookup_drop in H0. by eapply list_elem_of_lookup_2. }
    rewrite IH; [done|done|done|].
    intros n Hn Hna. apply Hin; [by right|done].
Qed.

Lemma buildPermMap_same names :
  NoDup names → buildPermMap names names = seq 0 (length names).
Proof.
  intros Hnd. unfold buildPermMap. apply list_eq. intros i.
  rewrite list_lookup_fmap.
  destruct (names !! i) as [x|] eqn:E; simpl.
  - rewrite (findIndex_NoDup names i x) by done.
    rewrite lookup_seq_lt; [done|]. by eapply lookup_lt_Some.
  - rewrite lookup_seq_ge; [done|]. by apply lookup_ge_None.
Qed.

Lemma outerMostIdxOf_seq (n : nat) : outerMostIdxOf (seq 0 n) = 0%nat.
Proof.
  unfold outerMostIdxOf.
  assert (∀ (l : list (nat * nat)) acc,
            (∀ p, p ∈ l → p.2 = 0%nat → p.1 = 0%nat) → acc = 0%nat →
            fold_left (λ acc '(i, idx), if decide (idx = 0%nat) then i else acc)
                      l acc = 0%nat) as H.
  { induction l as [|[i idx] l IH]; intros acc Hl ->; [done|].
    simpl. apply IH.
    - intros p Hp. apply Hl. by right.
    - case_decide as Hz; [|done]. apply (Hl (i, idx)); [left|done]. }
  apply H; [|done].
  intros p Hp Hz. apply elem_of_lookup_imap in Hp as (i & y & -> & Hi).
  simpl in *. subst y. apply lookup_seq in Hi as [Hi _]. lia.
Qed.

Lemma permuteLoops_id {A} (input : list A) :
  permuteLoops input (seq 0 (length input)) = Some input.
Proof.
  unfold permuteLoops. rewrite decide_True by done.
  apply mapM_Some. apply Forall2_same_length_lookup.
  split; [by rewrite length_seq|].
  intros i d x Hd Hx. apply lookup_seq in Hd as [-> Hlt]. simpl.
  rewrite (findIndex_NoDup (seq 0 (length input)) i i); [done|apply NoDup_seq|].
  by rewrite lookup_seq_lt.
Qed.

(** [runReordering] (lines 350-438): naming loops of the perfect nest in
    the order they already have changes nothing.  When the names of the nest
    are distinct and the named loops are some of them, listed from the
    outside in, the permutation is the identity, the outermost loop stays
    where it is with its stage name, and the function after the call is the
    function before it. *)
Theorem runReordering_present_order f op pos rootForOp :
  getStage f (reorder_stage op) = Some pos →
  f !! pos = Some rootForOp →
  NoDup (getLoopName <$> (getPerfectlyNestedLoops rootForOp).1) →
  sublist (reorder_loops op)
          (getLoopName <$> (getPerfectlyNestedLoops rootForOp).1) →
  (2 ≤ length (reorder_loops op))%nat →
  runReordering f op = Some ([], success, f).
Proof.
  intros Hstage Hpos Hnd Hsub Hlen.
  destruct (getStage_lookup _ _ _ Hstage) as (l & body & Hpos' & _).
  assert (rootForOp = AffineFor l body) as Hroot by congruence.
  unfold runReordering.
  rewrite decide_False by lia.
  rewrite Hstage, Hpos. simpl.
  destruct (getPerfectlyNestedLoops rootForOp) as [nest ib] eqn:Hnest.
  simpl in Hnd, Hsub.
  rewrite fillMissingLoops_sublist; [|done|done|done]. simpl.
  rewrite buildPermMap_same by done.
  rewrite length_fmap, outerMostIdxOf_seq.
  apply sublist_length in Hsub. rewrite length_fmap in Hsub.
  rewrite decide_True by (rewrite length_seq; lia).
  rewrite !decide_False by (intros H; by apply H).
  rewrite permuteLoops_id. simpl.
  rewrite (buildNest_getPerfectlyNestedLoops _ _ _ Hroot _ _ Hnest).
  do 3 f_equal. change ([rootForOp] ++ drop (S pos) f)
    with (rootForOp :: drop (S pos) f).
  by apply take_drop_middle.
Qed.

Lemma runReordering_present_order_witness :
  runReordering reorderWitnessFunc (mkReorderOp "s" ["i"; "k"])
  = Some ([], success, reorderWitnessFunc).
Proof.
  apply (runReordering_present_order reorderWitnessFunc
           (mkReorderOp "s" ["i"; "k"]) 1
           (AffineFor (reorderWitnessLoop "i" (Some "s") 4 0%nat)
              [AffineFor (reorderWitnessLoop "j" None 5 1%nat)
                 [AffineFor (reorderWitnessLoop "k" None 6 2%nat)
                    reorderWitnessBody]])).
  - vm_compute. reflexivity.
  - reflexivity.
  - apply (bool_decide_unpack _). by vm_compute.
  - vm_compute. apply sublist_skip, sublist_cons, sublist_skip, sublist_nil.
  - simpl. lia.
Defined.

(** ** The schedule driver *)

Lemma scheduleOps_cons_HCLOp op rest :
  scheduleOps (HCLOp op :: rest) = op :: scheduleOps rest.
Proof. reflexivity. Qed.

Lemma scheduleOps_cons_NonHCLOp rest :
  scheduleOps (NonHCLOp :: rest) = scheduleOps rest.
Proof. reflexivity. Qed.

Lemma single_function_step {State} (p : Primitives State) op rest st handled :
  applyLoopTransformationOnSingleFunction p (HCLOp op :: rest) st handled
  = match dispatchSingle p op st with
    | (failure, st') => (false, st', handled ++ [op])
    | (success, st') =>
        applyLoopTransformationOnSingleFunction p rest st' (handled ++ [op])
    end.
Proof. reflexivity. Qed.

Lemma top_function_step {State} (p : Primitives State) op rest st handled :
  applyLoopTransformationOnTopFunction p (HCLOp op :: rest) st handled
  = match dispatchTop p op st with
    | (failure, st') => (false, st', handled ++ [op])
    | (success, st') =>
        applyLoopTransformationOnTopFunction p rest st' (handled ++ [op])
    end.
Proof. reflexivity. Qed.

Lemma applyLoopTransformationOnSingleFunction_acc {State}
    (p : Primitives State) (ops : list FuncItem) (st : State)
    (handled0 : list ScheduleOp) :
  match applyLoopTransformationOnSingleFunction p ops st handled0 with
  | (true, st', handled) =>
      handled = handled0 ++ scheduleOps ops ∧
      ∃ stLast, dispatchedInOrder p st (scheduleOps ops) stLast ∧
                st' = eraseScheduleOp p (reverse handled) stLast
  | (false, st', handled) =>
      ∃ pre op post stBefore,
        scheduleOps ops = pre ++ op :: post ∧
        handled = handled0 ++ pre ++ [op] ∧
        dispatchedInOrder p st pre stBefore ∧
        dispatchSingle p op stBefore = (failure, st')
  end.
Proof.
  revert st handled0. induction ops as [|item ops IH]; intros st handled0.
  { simpl. rewrite app_nil_r. split; [done|]. exists st.
    split; [constructor|done]. }
  destruct item as [op|].
  2:{ rewrite scheduleOps_cons_NonHCLOp. apply IH. }
  rewrite scheduleOps_cons_HCLOp, single_function_step.
  destruct (dispatchSingle p op st) as [[] st1] eqn:Hop.
  - specialize (IH st1 (handled0 ++ [op])).
    destruct (applyLoopTransformationOnSingleFunction p ops st1
                (handled0 ++ [op])) as [[[] st'] handled].
    + destruct IH as [-> (stLast & Hall & ->)]. rewrite <- app_assoc.
      split; [done|]. exists stLast. split; [|done].
      by apply (dispatched_cons p st op st1).
    + destruct IH as (pre & op' & post & stB & Hops & -> & Hall & Hfail).
      exists (op :: pre), op', post, stB.
      rewrite Hops, <- !app_assoc.
      split; [done|]. split; [done|]. split; [|done].
      by apply (dispatched_cons p st op st1).
  - exists [], op, (scheduleOps ops), st.
    split; [done|]. split; [done|]. split; [constructor|done].
Qed.

(** [applyLoopTransformationOnSingleFunction] (lines 2490-2579): the
    schedule statements are dispatched in program order, each on the state
    the one before it left, the other operations are passed over.  When the
    driver returns true every statement was dispatched and succeeded, and
    the statements are erased from back to front in the state the last one
    left; when it returns false the statements before the failing one were
    dispatched in order and succeeded, the failing one was dispatched on the
    state they left, none after it was dispatched and nothing was erased:
    the state is the one the failing primitive left. *)
Theorem single_function_mode_outcome {State} (p : Primitives State)
    (ops : list FuncItem) (st : State) :
  match applyLoopTransformationOnSingleFunction p ops st [] with
  | (true, st', handled) =>
      handled = scheduleOps ops ∧
      ∃ stLast,
        dispatchedInOrder p st (scheduleOps ops) stLast ∧
        st' = eraseScheduleOp p (reverse (scheduleOps ops)) stLast
  | (false, st', handled) =>
      ∃ pre op post stBefore,
        scheduleOps ops = pre ++ op :: post ∧
        handled = pre ++ [op] ∧
        dispatchedInOrder p st pre stBefore ∧
        dispatchSingle p op stBefore = (failure, st')
  end.
Proof.
  pose proof (applyLoopTransformationOnSingleFunction_acc p ops st []) as H.
  destruct (applyLoopTransformationOnSingleFunction p ops st [])
    as [[[] st'] handled]; simpl in H.
  - destruct H as [-> H]. done.
  - done.
Qed.

(** The top-function mode of [applyLoopTransformation] (lines 2603-2675)
    returns false for a partition, a reshape or an inter-kernel placement
    only: either no array is found for the statement, and the module is as
    it was before the statement, or the primitive itself fails.  The other
    statements never make it return false. *)
Theorem top_function_mode_failure_kinds {State} (p : Primitives State)
    (ops : list FuncItem) (st st' : State) (handled : list ScheduleOp) :
  applyLoopTransformationOnTopFunction p ops st [] = (false, st', handled) →
  ∃ pre op stBefore,
    handled = pre ++ [op] ∧
    op ∈ scheduleOps ops ∧
    sched_kind op ∈ [IsPartitionOp; IsReshapeOp; IsInterKernelToOp] ∧
    (findArray p op stBefore = false ∧ st' = stBefore ∨
     findArray p op stBefore = true ∧
     runPrimitive p op stBefore = (failure, st')).
Proof.
  assert (∀ handled0 st,
            applyLoopTransformationOnTopFunction p ops st handled0
            = (false, st', handled) →
            ∃ pre op stBefore,
              handled = handled0 ++ pre ++ [op] ∧
              op ∈ scheduleOps ops ∧
              sched_kind op ∈ [IsPartitionOp; IsReshapeOp; IsInterKernelToOp] ∧
              (findArray p op stBefore = false ∧ st' = stBefore ∨
               findArray p op stBefore = true ∧
               runPrimitive p op stBefore = (failure, st'))) as Hgen;
    [|apply (Hgen [])].
  clear st. induction ops as [|item ops IH]; intros handled0 st.
  { done. }
  destruct item as [op|].
  2:{ rewrite scheduleOps_cons_NonHCLOp. apply IH. }
  rewrite scheduleOps_cons_HCLOp, top_function_step.
  destruct (dispatchTop p op st) as [[] st1] eqn:Hop.
  - intros H. apply IH in H as (pre & op' & stB & -> & Hin & Hkind & Hfail).
    exists (op :: pre), op', stB. rewrite <- !app_assoc.
    split; [done|]. split; [by right|done].
  - intros [= <- <-]. exists [], op, st.
    split; [done|]. split; [left|].
    unfold dispatchTop in Hop.
    destruct (sched_kind op) eqn:Hk; try discriminate;
      (split; [set_solver|]);
      (destruct (findArray p op st) eqn:Hfind;
       [right; done|left; split; [done|congruence]]).
Qed.

Lemma top_function_mode_failure_kinds_witness :
  ∃ pre op stBefore,
    [someUnroll; somePartition] = pre ++ [op] ∧
    op ∈ scheduleOps [HCLOp someUnroll; NonHCLOp; HCLOp somePartition;
                      HCLOp laterUnroll] ∧
    sched_kind op ∈ [IsPartitionOp; IsReshapeOp; IsInterKernelToOp] ∧
    (findArray noArrayPrimitives op stBefore = false ∧
     [someUnroll] = stBefore ∨
     findArray noArrayPrimitives op stBefore = true ∧
     runPrimitive noArrayPrimitives op stBefore = (failure, [someUnroll])).
Proof.
  apply (top_function_mode_failure_kinds noArrayPrimitives
           [HCLOp someUnroll; NonHCLOp; HCLOp somePartition; HCLOp laterUnroll]
           []).
  vm_compute. reflexivity.
Defined.

(** [applyLoopTransformation] (lines 2581-2597): in a module without a
    function marked [top] every function goes through the single-function
    driver and the result of that driver is dropped, so the pass returns
    true whatever the schedule statements do. *)
Theorem applyLoopTransformation_without_top {State} (p : Primitives State)
    (theModule : list FuncInfo) (st : State) :
  Forall (λ f, func_top f = false) theModule →
  (applyLoopTransformation p theModule st).1.1 = true.
Proof.
  intros Hno. unfold applyLoopTransformation.
  assert (List.find func_top theModule = None) as ->.
  { induction Hno as [|f fs Hf _ IH]; simpl; [done|]. by rewrite Hf. }
  by destruct (foldl _ _ _).
Qed.

Lemma applyLoopTransformation_without_top_witness :
  (applyLoopTransformation loggingPrimitives
     [mkFuncInfo false [HCLOp failingSplit; HCLOp laterUnroll]] []).1.1 = true.
Proof.
  apply (applyLoopTransformation_without_top loggingPrimitives
           [mkFuncInfo false [HCLOp failingSplit; HCLOp laterUnroll]] []).
  apply Forall_cons_2; [reflexivity|]. apply Forall_nil_2.
Defined.

(** ** Dead memref elimination: what the pass keeps *)

Lemma removeIfNeverLoaded_sublist g a :
  sublist (walkOps (removeIfNeverLoaded g a)) (walkOps g).
Proof.
  unfold removeIfNeverLoaded.
  destruct (op_results a); [done|].
  destruct (existsb _ _); [done|].
  rewrite walkOps_eraseOps. apply sublist_filter.
Qed.

Lemma cleanUpOp_sublist g x : sublist (walkOps (cleanUpOp g x)) (walkOps g).
Proof.
  rewrite walkOps_cleanUpOp. destruct (_ && _); [|done]. apply sublist_filter.
Qed.

Lemma foldl_sublist (step : DceFunc → OpInfo → DceFunc) :
  (∀ g x, sublist (walkOps (step g x)) (walkOps g)) →
  ∀ todo g, sublist (walkOps (foldl step g todo)) (walkOps g).
Proof.
  intros Hstep. induction todo as [|x todo IH]; intros g; simpl; [done|].
  etrans; [apply IH|apply Hstep].
Qed.

(** [applyMemRefDCE] (lines 25-76) only erases: it returns true, and in
    every function the operations after the pass are operations of the
    function before it, in the same order. *)
Theorem applyMemRefDCE_only_erases (theModule : list DceFunc) :
  (applyMemRefDCE theModule).1 = true ∧
  Forall2 (λ f f', sublist (walkOps f') (walkOps f))
          theModule (applyMemRefDCE theModule).2.
Proof.
  split; [done|]. simpl.
  apply Forall2_fmap_r. apply Forall_Forall2_diag, Forall_forall.
  intros f _. simpl.
  etrans; [apply foldl_sublist, cleanUpOp_sublist|].
  apply foldl_sublist, removeIfNeverLoaded_sublist.
Qed.

Lemma use_empty_sublist f g u :
  sublist (walkOps g) (walkOps f) → use_empty f u = true →
  use_empty g u = true.
Proof.
  intros Hsub. unfold use_empty. rewrite !forallb_forall.
  intros Hall v Hv. apply Hall in Hv.
  apply bool_decide_eq_true in Hv. apply bool_decide_eq_true.
  unfold getUsers in *.
  assert (sublist (filter (λ u0, v ∈ op_operands u0) (walkOps g))
                  (filter (λ u0, v ∈ op_operands u0) (walkOps f))) as Hs.
  { clear -Hsub. induction Hsub as [|x l1 l2 _ IH|x l1 l2 _ IH]; [done| |].
    - destruct (decide (v ∈ op_operands x)).
      + rewrite !filter_cons_True by done. by apply sublist_skip.
      + by rewrite !filter_cons_False by done.
    - destruct (decide (v ∈ op_operands x)).
      + rewrite filter_cons_True by done. by apply sublist_cons.
      + by rewrite filter_cons_False by done. }
  rewrite Hv in Hs. by apply sublist_nil_r in Hs.
Qed.

(** An operation with results that nobody uses is erased by the sweep. *)
Lemma cleanUpUnusedOps_erases_unused f u :
  u ∈ walkOps f → op_results u ≠ [] → use_empty f u = true →
  u ∉ walkOps (cleanUpUnusedOps f).
Proof.
  intros Hu Hres Hempty. unfold cleanUpUnusedOps.
  destruct (list_elem_of_split _ _ Hu) as (t1 & t2 & Hsplit).
  rewrite Hsplit. rewrite foldl_app. simpl.
  set (g1 := foldl cleanUpOp f t1).
  assert (sublist (walkOps g1) (walkOps f)) as Hg1
    by apply foldl_sublist, cleanUpOp_sublist.
  intros Hin.
  eapply elem_of_sublist in Hin; [|apply foldl_sublist, cleanUpOp_sublist].
  rewrite walkOps_cleanUpOp in Hin.
  rewrite (use_empty_sublist f g1 u Hg1 Hempty) in Hin.
  rewrite bool_decide_eq_true_2 in Hin by done. simpl in Hin.
  apply list_elem_of_filter in Hin as [Hne _]. done.
Qed.

(** [cleanUpUnusedOps] (lines 25-31) is one sweep in program order, not a
    closure: an operation is looked at before its users, so when the only
    user of its result is itself unused, the user is erased and the
    operation stays, now without any use. *)
Theorem cleanUpUnusedOps_single_sweep f o u v l1 l2 :
  NoDup (op_id <$> walkOps f) →
  walkOps f = l1 ++ o :: l2 → u ∈ l2 →
  op_results o = [v] → getUsers f v = [u] →
  op_results u ≠ [] → use_empty f u = true →
  (u ∉ walkOps (cleanUpUnusedOps f)) ∧
  o ∈ walkOps (cleanUpUnusedOps f) ∧
  use_empty (cleanUpUnusedOps f) o = true.
Proof.
  intros Hnd Hwalk Hu Hres Husers Hures Hempty.
  assert (u ∈ walkOps f ∧ v ∈ op_operands u) as [Huf Hvu].
  { apply getUsers_elem. rewrite Husers. left. }
  assert (u ∉ walkOps (cleanUpUnusedOps f)) as Hgone
    by by apply cleanUpUnusedOps_erases_unused.
  split; [done|]. split.
  { eapply cleanUpUnusedOps_keeps_used; eauto. rewrite Hres. left. }
  unfold use_empty. rewrite Hres. simpl. rewrite andb_true_r.
  apply bool_decide_eq_true.
  destruct (getUsers (cleanUpUnusedOps f) v) as [|w ws] eqn:Hw; [done|].
  exfalso.
  assert (w ∈ getUsers (cleanUpUnusedOps f) v) as Hin by (rewrite Hw; left).
  apply getUsers_elem in Hin as [Hin Hvw].
  assert (w ∈ getUsers f v) as Hwf.
  { apply getUsers_elem. split; [|done]. by apply cleanUpUnusedOps_sub. }
  rewrite Husers in Hwf. apply list_elem_of_singleton in Hwf as ->. done.
Qed.

Lemma cleanUpUnusedOps_single_sweep_witness :
  (dceChainConsumer ∉ walkOps (cleanUpUnusedOps dceChainFunc)) ∧
  dceChainProducer ∈ walkOps (cleanUpUnusedOps dceChainFunc) ∧
  use_empty (cleanUpUnusedOps dceChainFunc) dceChainProducer = true.
Proof.
  apply (cleanUpUnusedOps_single_sweep dceChainFunc dceChainProducer
           dceChainConsumer 100%nat []
           [dceChainConsumer; mkOpInfo 2 "func.return" [] []]).
  - apply (bool_decide_unpack _). by vm_compute.
  - reflexivity.
  - left.
  - reflexivity.
  - vm_compute. reflexivity.
  - discriminate.
  - vm_compute. reflexivity.
Defined.

(** The sweep keeps every operation without results. *)
Lemma cleanUp_keeps_no_results (L : list OpInfo) o :
  NoDup (op_id <$> L) → o ∈ L → op_results o = [] →
  ∀ todo g, (∀ x, x ∈ todo → x ∈ L) → o ∈ walkOps g →
            o ∈ walkOps (foldl cleanUpOp g todo).
Proof.
  intros Hnd HoL Hres. induction todo as [|x todo IH]; intros g Htodo Ho;
    simpl; [done|].
  apply IH; [intros y Hy; apply Htodo; by right|].
  rewrite walkOps_cleanUpOp.
  destruct (bool_decide (op_results x ≠ [])) eqn:Hx; simpl; [|done].
  destruct (use_empty g x); [|done].
  apply list_elem_of_filter. split; [|done].
  intros Hid. apply bool_decide_eq_true in Hx. apply Hx.
  assert (x ∈ L) as HxL by (apply Htodo; left).
  apply list_elem_of_lookup in HoL as [i Hi], HxL as [j Hj].
  assert (i = j) as ->; [|congruence].
  eapply (NoDup_lookup _ i j (op_id o) Hnd);
    rewrite list_lookup_fmap; [by rewrite Hi|by rewrite Hj, Hid].
Qed.

(** [applyMemRefDCE] on one function (lines 33-74): an operation without
    results (a store, a return, a call for its effect) that uses no
    allocation that is never loaded is still in the function after the
    pass. *)
Theorem applyMemRefDCE_keeps_effects f o :
  NoDup (op_id <$> walkOps f) →
  o ∈ walkOps f → op_results o = [] →
  (∀ a v, a ∈ walkOps f → isAllocOp a = true →
          head (op_results a) = Some v → v ∈ op_operands o →
          isLoadedFrom f a = true) →
  o ∈ walkOps (cleanUpUnusedOps (removeNeverLoadedMemRef f)).
Proof.
  intros Hnd Ho Hres Huses.
  assert (o ∈ walkOps (removeNeverLoadedMemRef f)) as Ho1.
  { apply removeNeverLoadedMemRef_elem; [done|]. split; [done|].
    intros a Ha Halloc. unfold goesWith.
    destruct (op_results a) as [|v rest] eqn:Hra; [done|].
    destruct (existsb isLoadReturnOrCall (getUsers f v)) eqn:Hl; [done|].
    simpl. apply orb_false_iff. split; apply bool_decide_eq_false.
    - intros Hid. assert (o = a) as -> by by eapply op_id_inj.
      congruence.
    - intros Hv. specialize (Huses a v Ha Halloc).
      rewrite Hra in Huses. specialize (Huses eq_refl Hv).
      unfold isLoadedFrom in Huses. rewrite Hra in Huses. congruence. }
  unfold cleanUpUnusedOps.
  apply (cleanUp_keeps_no_results (walkOps (removeNeverLoadedMemRef f)));
    try done.
  rewrite removeNeverLoadedMemRef_walk by done.
  eapply sublist_NoDup; [exact Hnd|].
  apply fmap_sublist, sublist_filter.
Qed.

Lemma applyMemRefDCE_keeps_effects_witness :
  dceStoreOp
  ∈ walkOps (cleanUpUnusedOps (removeNeverLoadedMemRef dceStoreFunc)).
Proof.
  apply (applyMemRefDCE_keeps_effects dceStoreFunc dceStoreOp).
  - apply (bool_decide_unpack _). by vm_compute.
  - apply (bool_decide_unpack _). by vm_compute.
  - reflexivity.
  - intros a v Ha Halloc Hhead Hv.
    apply list_elem_of_In in Ha. simpl in Ha.
    destruct Ha as [<-|[<-|[<-|[<-|[]]]]];
      vm_compute in Halloc; try discriminate Halloc.
    vm_compute. reflexivity.
Defined.

(** ** Reshape *)

Example reshapeAccessMap_example :
  reshapeAccessMap [2; 6] [3; 4] reshapeExampleMap [0%nat; 1%nat]
  = Some reshapeExampleResult.
Proof. vm_compute. reflexivity. Qed.

(** An access whose map has more dimensions than the array has extents
    gets no new map: the new index would use [d1] in a map of one
    dimension. *)
Example reshapeAccessMap_window :
  reshapeAccessMap [8] [2; 4] reshapeWindowMap [0%nat; 1%nat] = None.
Proof. vm_compute. reflexivity. Qed.

Lemma exprWithin_affineMulConst nd ns e c :
  exprWithin nd ns e = true → exprWithin nd ns (affineMulConst e c) = true.
Proof.
  revert c. induction e as [p|p|v|k l IHl r IHr]; intros c H; simpl.
  - repeat case_decide; simpl; by rewrite ?H, ?andb_true_r.
  - repeat case_decide; simpl; by rewrite ?H, ?andb_true_r.
  - done.
  - simpl in H. apply andb_true_iff in H as [Hl Hr].
    repeat case_decide; simpl; rewrite ?Hl, ?Hr; try done.
    destruct k; simpl; rewrite ?Hl, ?Hr; try done.
    destruct r; simpl; rewrite ?Hl, ?Hr, ?andb_true_r; try done.
    by apply IHl.
Qed.

Lemma exprWithin_mulParts nd ns e c x :
  mulParts e = (c, x) → exprWithin nd ns e = true → exprWithin nd ns x = true.
Proof.
  unfold mulParts. intros H He.
  repeat case_match; simplify_eq; try done.
  simpl in He. by apply andb_true_iff in He as [? _].
Qed.

Lemma exprWithin_affineAddFuel nd ns fuel lhs rhs :
  exprWithin nd ns lhs = true → exprWithin nd ns rhs = true →
  exprWithin nd ns (affineAddFuel fuel lhs rhs) = true.
Proof.
  revert lhs rhs. induction fuel as [|fuel IH]; intros lhs rhs Hl Hr.
  { simpl. by rewrite Hl, Hr. }
  assert (Hrest :
    exprWithin nd ns
      (if isConstantExpr lhs
          || (isSymbolicOrConstant lhs && negb (isSymbolicOrConstant rhs))
       then affineAddFuel fuel rhs lhs
       else if decide (rhs = AffineConstantExpr 0) then lhs
       else
         match lhs, rhs with
         | AffineBinaryOpExpr Add ll (AffineConstantExpr lr),
           AffineConstantExpr r =>
             affineAddFuel fuel ll (AffineConstantExpr (lr + r))
         | _, _ =>
             let '(c1, firstExpr) := mulParts lhs in
             let '(c2, secondExpr) := mulParts rhs in
             if decide (firstExpr = secondExpr)
             then affineMulConst firstExpr (c1 + c2)
             else
               match lhs with
               | AffineBinaryOpExpr Add ll (AffineConstantExpr lr) =>
                   affineAddFuel fuel (affineAddFuel fuel ll rhs)
                                 (AffineConstantExpr lr)
               | _ => AffineBinaryOpExpr Add lhs rhs
               end
         end)
    = true).
  { destruct (isConstantExpr lhs || _); [by apply IH|].
    case_decide as H0; [done|].
    assert (Hmul :
      exprWithin nd ns
        (let '(c1, firstExpr) := mulParts lhs in
         let '(c2, secondExpr) := mulParts rhs in
         if decide (firstExpr = secondExpr)
         then affineMulConst firstExpr (c1 + c2)
         else
           match lhs with
           | AffineBinaryOpExpr Add ll (AffineConstantExpr lr) =>
               affineAddFuel fuel (affineAddFuel fuel ll rhs)
                             (AffineConstantExpr lr)
           | _ => AffineBinaryOpExpr Add lhs rhs
           end)
      = true).
    { destruct (mulParts lhs) as [c1 e1] eqn:H1.
      destruct (mulParts rhs) as [c2 e2] eqn:H2.
      case_decide as He.
      - apply exprWithin_affineMulConst.
        by apply (exprWithin_mulParts nd ns lhs c1 e1).
      - destruct lhs as [| | |k ll lr];
          try (simpl; simpl in Hl; by rewrite ?Hl, ?Hr).
        simpl in Hl. apply andb_true_iff in Hl as [Hll Hlr].
        destruct k; try (simpl; by rewrite Hll, Hlr, Hr).
        destruct lr; try (simpl in *; by rewrite Hll, Hlr, Hr).
        apply IH; [by apply IH|done]. }
    destruct lhs as [| | |k ll lr]; try exact Hmul.
    destruct k; try exact Hmul.
    destruct lr as [| |lrv|]; try exact Hmul.
    destruct rhs as [| |rv|]; try exact Hmul.
    simpl in Hl. apply andb_true_iff in Hl as [Hll _].
    by apply IH. }
  destruct lhs, rhs; try exact Hrest. done.
Qed.

Lemma exprWithin_affineAdd nd ns lhs rhs :
  exprWithin nd ns lhs = true → exprWithin nd ns rhs = true →
  exprWithin nd ns (affineAdd lhs rhs) = true.
Proof. apply exprWithin_affineAddFuel. Qed.

Lemma exprWithin_affineMod nd ns e c :
  exprWithin nd ns e = true → exprWithin nd ns (affineMod e c) = true.
Proof.
  intros H. unfold affineMod.
  repeat case_match; simpl; by rewrite ?H, ?andb_true_r.
Qed.

Lemma exprWithin_affineFloorDiv nd ns e c :
  exprWithin nd ns e = true → exprWithin nd ns (affineFloorDiv e c) = true.
Proof.
  intros H. unfold affineFloorDiv.
  repeat case_match; simpl; by rewrite ?H, ?andb_true_r.
Qed.

Lemma linearAddrLoop_within nd ns oldResults prods r :
  ∀ (n : nat) acc res,
    linearAddrLoop oldResults prods r n acc = Some res →
    Forall (λ e, exprWithin nd ns e = true) oldResults →
    exprWithin nd ns acc = true →
    exprWithin nd ns res = true.
Proof.
  induction n as [|i IH]; intros acc res Hloop Hres Hacc; simpl in Hloop.
  { by injection Hloop as <-. }
  destruct (oldResults !! i) as [idx|] eqn:Hidx; [|done]. simpl in Hloop.
  destruct (prods !! (r - i - 1)%nat) as [p|]; [|done]. simpl in Hloop.
  apply (IH _ _ Hloop Hres).
  apply exprWithin_affineAdd; [|done].
  apply exprWithin_affineMulConst.
  rewrite Forall_forall in Hres. apply Hres.
  by eapply list_elem_of_lookup_2.
Qed.

Lemma reshapeIndicesLoop_within nd ns newShape R :
  ∀ (todo i : nat) indices la indices' la',
    reshapeIndicesLoop newShape R i todo indices la = Some (indices', la') →
    Forall (λ e, exprWithin nd ns e = true) indices →
    exprWithin nd ns la = true →
    Forall (λ e, exprWithin nd ns e = true) indices' ∧
    exprWithin nd ns la' = true.
Proof.
  induction todo as [|todo IH]; intros i indices la indices' la' Hloop Hind Hla;
    simpl in Hloop.
  { by injection Hloop as <- <-. }
  destruct (newShape !! (R - i)%nat) as [n|]; [|done]. simpl in Hloop.
  apply (IH _ _ _ _ _ Hloop).
  - apply Forall_app. split; [done|].
    apply Forall_singleton. by apply exprWithin_affineMod.
  - by apply exprWithin_affineFloorDiv.
Qed.

Lemma product_cons d l : product (d :: l) = d * product l.
Proof. reflexivity. Qed.

Lemma product_drop_bounds shape (i : nat) :
  Forall (λ d, 0 < d) shape → 1 ≤ product (drop i shape) ≤ product shape.
Proof.
  intros Hpos.
  rewrite <- (take_drop i shape) at 3. rewrite product_app.
  assert (0 < product (take i shape)) by (apply product_pos, Forall_take, Hpos).
  assert (0 < product (drop i shape)) by (apply product_pos, Forall_drop, Hpos).
  nia.
Qed.

Lemma prodOldShapeLoop_spec oldShape :
  Forall (λ d, 0 < d) oldShape → product oldShape ≤ INT64_MAX →
  ∀ (n : nat) prods,
    (n ≤ length oldShape)%nat →
    length prods = (length oldShape - n + 1)%nat →
    (∀ k : nat, (k ≤ length oldShape - n)%nat →
       prods !! k = Some (product (drop (length oldShape - k) oldShape))) →
    ∃ prods',
      prodOldShapeLoop oldShape (length oldShape) n prods = Some prods' ∧
      ∀ k : nat, (k ≤ length oldShape)%nat →
        prods' !! k = Some (product (drop (length oldShape - k) oldShape)).
Proof.
  intros Hpos Hmax. set (r := length oldShape).
  induction n as [|i IH]; intros prods Hn Hlen Hprods.
  - exists prods. split; [done|]. intros k Hk. apply Hprods. lia.
  - simpl. destruct (lookup_lt_is_Some_2 oldShape i) as [d Hd]; [fold r; lia|].
    rewrite Hd. simpl.
    rewrite (Hprods (r - 1 - i)%nat) by lia. simpl.
    replace (r - (r - 1 - i))%nat with (S i) by lia.
    assert (wrap64 (d * product (drop (S i) oldShape))
            = product (drop i oldShape)) as ->.
    { rewrite (drop_S _ _ _ Hd), product_cons.
      apply wrap64_small.
      pose proof (product_drop_bounds oldShape i Hpos) as Hb.
      rewrite (drop_S _ _ _ Hd), product_cons in Hb.
      unfold INT64_MAX in *. lia. }
    apply IH; [lia|rewrite length_app; simpl; lia|].
    intros k Hk. destruct (decide (k = (r - i)%nat)) as [->|Hne].
    + rewrite list_lookup_middle by lia.
      by replace (r - (r - i))%nat with i by lia.
    + rewrite lookup_app_l by lia. apply Hprods. lia.
Qed.

Lemma rowMajor_drop oldShape vals (i : nat) d v :
  oldShape !! i = Some d → vals !! i = Some v →
  rowMajor (drop i oldShape) (drop i vals)
  = v * product (drop (S i) oldShape)
    + rowMajor (drop (S i) oldShape) (drop (S i) vals).
Proof.
  intros Hd Hv. by rewrite (drop_S _ _ _ Hd), (drop_S _ _ _ Hv).
Qed.

Lemma linearAddrLoop_spec dims syms oldShape oldResults prods :
  (∀ k : nat, (k ≤ length oldShape)%nat →
     prods !! k = Some (product (drop (length oldShape - k) oldShape))) →
  (length oldShape ≤ length oldResults)%nat →
  ∀ (n : nat) acc,
    (n ≤ length oldShape)%nat →
    evalAffineExpr dims syms acc
    = rowMajor (drop n oldShape)
               (drop n (evalAffineExpr dims syms <$> oldResults)) →
    ∃ res,
      linearAddrLoop oldResults prods (length oldShape) n acc = Some res ∧
      evalAffineExpr dims syms res
      = rowMajor oldShape (evalAffineExpr dims syms <$> oldResults).
Proof.
  intros Hprods Hlen. set (r := length oldShape) in *.
  induction n as [|i IH]; intros acc Hn Hacc.
  - exists acc. by split.
  - simpl.
    destruct (lookup_lt_is_Some_2 oldResults i) as [idx Hidx]; [lia|].
    destruct (lookup_lt_is_Some_2 oldShape i) as [d Hd]; [fold r; lia|].
    rewrite Hidx. simpl. rewrite (Hprods (r - i - 1)%nat) by lia. simpl.
    replace (r - (r - i - 1))%nat with (S i) by lia.
    apply IH; [lia|].
    rewrite eval_affineAdd, eval_affineMulConst, Hacc.
    symmetry. apply (rowMajor_drop _ _ _ d); [done|].
    by rewrite list_lookup_fmap, Hidx.
Qed.

Lemma reshapeIndicesLoop_spec dims syms newShape x :
  Forall (λ d, 0 < d) newShape →
  ∀ (todo i : nat) indices la,
    (1 ≤ i)%nat → (i + todo = length newShape)%nat →
    evalAffineExpr dims syms <$> reverse indices
    = mixedRadixDigits (drop (S (length newShape - i)) newShape) x →
    evalAffineExpr dims syms la
    = x / product (drop (S (length newShape - i)) newShape) →
    ∃ indices' la',
      reshapeIndicesLoop newShape (length newShape) i todo indices la
      = Some (indices', la') ∧
      evalAffineExpr dims syms <$> reverse indices'
      = mixedRadixDigits (drop 1 newShape) x ∧
      evalAffineExpr dims syms la' = x / product (drop 1 newShape).
Proof.
  intros Hpos. set (R := length newShape).
  induction todo as [|todo IH]; intros i indices la Hi Hsum Hind Hla.
  - exists indices, la. split; [done|].
    replace (S (R - i)) with 1%nat in * by lia. done.
  - simpl.
    destruct (lookup_lt_is_Some_2 newShape (R - i)) as [n Hn]; [fold R; lia|].
    rewrite Hn. simpl.
    assert (0 < n) as Hnpos.
    { eapply (proj1 (Forall_forall _ _)) in Hpos; [exact Hpos|].
      by eapply list_elem_of_lookup_2. }
    assert (0 < product (drop (S (R - i)) newShape)) as HP
      by (apply product_pos, Forall_drop, Hpos).
    apply IH; [lia|lia| |];
      replace (S (R - S i)) with (R - i)%nat by lia;
      rewrite (drop_S _ _ _ Hn).
    + rewrite reverse_snoc, fmap_cons, Hind, eval_affineMod, Hla. done.
    + rewrite eval_affineFloorDiv, Hla, product_cons.
      rewrite Z.div_div by lia. f_equal. lia.
Qed.

Lemma rowMajor_mixedRadixDigits inner x :
  Forall (λ d, 0 < d) inner →
  rowMajor inner (mixedRadixDigits inner x) = x mod product inner.
Proof.
  intros Hpos. induction Hpos as [|n inner Hn Hpos IH].
  - simpl. by rewrite Z.mod_1_r.
  - simpl mixedRadixDigits. simpl rowMajor. rewrite IH, product_cons.
    assert (0 < product inner) by by apply product_pos.
    rewrite (Z.mul_comm n), Z.rem_mul_r by lia. lia.
Qed.

Lemma rowMajor_delinearize newShape x :
  Forall (λ d, 0 < d) newShape → (1 ≤ length newShape)%nat →
  rowMajor newShape (delinearize newShape x) = x.
Proof.
  intros Hpos Hlen. destruct newShape as [|n inner]; [simpl in Hlen; lia|].
  apply Forall_cons in Hpos as [_ Hpos].
  simpl delinearize. simpl rowMajor.
  rewrite rowMajor_mixedRadixDigits by done.
  assert (0 < product inner) by by apply product_pos.
  pose proof (Z.div_mod x (product inner) ltac:(lia)). lia.
Qed.

Lemma mixedRadixDigits_inBounds inner x :
  Forall (λ d, 0 < d) inner → inBounds inner (mixedRadixDigits inner x).
Proof.
  intros Hpos. unfold inBounds.
  induction Hpos as [|n inner Hn Hpos IH]; simpl; constructor; [|done].
  by apply Z.mod_pos_bound.
Qed.

Lemma rowMajor_inBounds oldShape vals :
  inBounds oldShape vals → 0 ≤ rowMajor oldShape vals < product oldShape.
Proof.
  unfold inBounds. intros H.
  induction H as [|v d vals oldShape Hv _ IH]; simpl; [lia|].
  fold (product oldShape). nia.
Qed.

(** The new map of an access, for arrays without empty dimensions and an
    access without symbols whose map has one dimension for every extent of
    the array. *)
Lemma reshapeAccessMap_spec dims syms oldShape newShape oldMap indices :
  Forall (λ d, 0 < d) oldShape → product oldShape ≤ INT64_MAX →
  Forall (λ d, 0 < d) newShape → (1 ≤ length newShape)%nat →
  (length oldShape ≤ length (results oldMap))%nat →
  numDims oldMap = length oldShape →
  willBeValidAffineMap (numDims oldMap) 0 (results oldMap) = true →
  length indices = numDims oldMap →
  ∃ newMap,
    reshapeAccessMap oldShape newShape oldMap indices = Some newMap ∧
    numDims newMap = length indices ∧
    willBeValidAffineMap (numDims newMap) 0 (results newMap) = true ∧
    evalAffineExpr dims syms <$> results newMap
    = delinearize newShape
        (rowMajor oldShape (evalAffineExpr dims syms <$> results oldMap)).
Proof.
  intros Hold Hmax Hnew Hrank Hres Hdims Hvalid Hind.
  unfold reshapeAccessMap.
  destruct (prodOldShapeLoop_spec oldShape Hold Hmax (length oldShape) [1])
    as (prods & -> & Hprods); [lia|simpl; lia| |].
  { intros k Hk. replace k with 0%nat by lia.
    rewrite Nat.sub_0_r, drop_all. done. }
  simpl.
  destruct (linearAddrLoop_spec dims syms oldShape (results oldMap) prods
              Hprods Hres (length oldShape) (AffineConstantExpr 0))
    as (la & Hlin & Hla); [lia| |].
  { rewrite drop_all. by destruct (drop _ _). }
  rewrite Hlin. simpl.
  set (x := rowMajor oldShape (evalAffineExpr dims syms <$> results oldMap))
    in *.
  destruct (reshapeIndicesLoop_spec dims syms newShape x Hnew
              (length newShape - 1) 1 [] la)
    as (ind & la' & Hloop & Hindices & Hla'); [lia|lia| | |].
  { replace (S (length newShape - 1)) with (length newShape) by lia.
    by rewrite drop_all. }
  { replace (S (length newShape - 1)) with (length newShape) by lia.
    rewrite drop_all, Hla. simpl. by rewrite Z.div_1_r. }
  rewrite Hloop. simpl.
  assert (Forall (λ e, exprWithin (length oldShape) 0 e = true)
                 (results oldMap)) as Hold_within.
  { unfold willBeValidAffineMap in Hvalid. rewrite Hdims in Hvalid.
    apply Forall_forall. intros e He.
    rewrite forallb_forall in Hvalid. apply Hvalid.
    by apply list_elem_of_In. }
  assert (exprWithin (length oldShape) 0 la = true) as Hla_within.
  { by apply (linearAddrLoop_within _ _ _ _ _ _ _ _ Hlin Hold_within). }
  destruct (reshapeIndicesLoop_within (length oldShape) 0 _ _ _ _ _ _ _ _
              Hloop (Forall_nil_2 _) Hla_within) as [Hind_within Hla'_within].
  assert (willBeValidAffineMap (length oldShape) 0 (reverse (ind ++ [la']))
          = true) as Hnew_valid.
  { unfold willBeValidAffineMap. apply forallb_forall. intros e He.
    apply list_elem_of_In, elem_of_reverse, elem_of_app in He as [He|He].
    - rewrite Forall_forall in Hind_within. by apply Hind_within.
    - apply list_elem_of_singleton in He. by subst e. }
  rewrite Hnew_valid. simpl.
  rewrite decide_False by (intros Hne; apply Hne; lia).
  eexists. split; [done|]. simpl.
  split; [lia|]. split; [done|].
  rewrite reverse_snoc, fmap_cons, Hindices, Hla'.
  by destruct newShape as [|n inner]; [simpl in Hrank; lia|].
Qed.

(** [runReshape] (lines 2142-2207): an access of the reshaped array whose
    map has one dimension for every extent of the array, uses no symbol and
    has a result for every old dimension is replaced by a load or store on
    the same operands; the new map is a valid map of as many dimensions, and
    its indices are the de-linearization, along the new shape, of the
    row-major address of the old indices in the old shape, so the access
    keeps its linear address.  (Shapes without empty dimension, at least one
    new dimension, element count of the old shape within [int64_t].) *)
Theorem runReshape_preserves_address dims syms oldShape newShape oldMap
    indices :
  Forall (λ d, 0 < d) oldShape → product oldShape ≤ INT64_MAX →
  Forall (λ d, 0 < d) newShape → (1 ≤ length newShape)%nat →
  (length oldShape ≤ length (results oldMap))%nat →
  numDims oldMap = length oldShape →
  willBeValidAffineMap (numDims oldMap) 0 (results oldMap) = true →
  length indices = numDims oldMap →
  ∃ newMap,
    reshapeAccessMap oldShape newShape oldMap indices = Some newMap ∧
    numDims newMap = length indices ∧
    willBeValidAffineMap (numDims newMap) 0 (results newMap) = true ∧
    evalAffineExpr dims syms <$> results newMap
    = delinearize newShape
        (rowMajor oldShape (evalAffineExpr dims syms <$> results oldMap)) ∧
    rowMajor newShape (evalAffineExpr dims syms <$> results newMap)
    = rowMajor oldShape (evalAffineExpr dims syms <$> results oldMap).
Proof.
  intros Hold Hmax Hnew Hrank Hres Hdims Hvalid Hind.
  destruct (reshapeAccessMap_spec dims syms oldShape newShape oldMap indices)
    as (newMap & Hmap & Hnd & Hnv & Heval); try done.
  exists newMap. do 4 (split; [done|]).
  rewrite Heval. by apply rowMajor_delinearize.
Qed.

Lemma runReshape_preserves_address_witness :
  ∃ newMap,
    reshapeAccessMap [2; 6] [3; 4] reshapeExampleMap [0%nat; 1%nat]
    = Some newMap ∧
    numDims newMap = length [0%nat; 1%nat] ∧
    willBeValidAffineMap (numDims newMap) 0 (results newMap) = true ∧
    evalAffineExpr [1; 5] [] <$> results newMap
    = delinearize [3; 4]
        (rowMajor [2; 6] (evalAffineExpr [1; 5] [] <$> results reshapeExampleMap)) ∧
    rowMajor [3; 4] (evalAffineExpr [1; 5] [] <$> results newMap)
    = rowMajor [2; 6] (evalAffineExpr [1; 5] [] <$> results reshapeExampleMap).
Proof.
  apply (runReshape_preserves_address [1; 5] [] [2; 6] [3; 4]
           reshapeExampleMap [0%nat; 1%nat]).
  - apply Forall_cons_2; [lia|]. apply Forall_cons_2; [lia|].
    apply Forall_nil_2.
  - vm_compute. discriminate.
  - apply Forall_cons_2; [lia|]. apply Forall_cons_2; [lia|].
    apply Forall_nil_2.
  - simpl. lia.
  - simpl. lia.
  - reflexivity.
  - reflexivity.
  - reflexivity.
Defined.

(** [runReshape] (lines 2142-2207): when the two shapes hold the same
    number of elements, an access inside the old shape whose map has one
    dimension for every extent of the array and uses no symbol becomes an
    access inside the new shape. *)
Theorem runReshape_in_bounds dims syms oldShape newShape oldMap indices :
  Forall (λ d, 0 < d) oldShape → product oldShape ≤ INT64_MAX →
  Forall (λ d, 0 < d) newShape → (1 ≤ length newShape)%nat →
  product newShape = product oldShape →
  numDims oldMap = length oldShape →
  willBeValidAffineMap (numDims oldMap) 0 (results oldMap) = true →
  length indices = numDims oldMap →
  inBounds oldShape (evalAffineExpr dims syms <$> results oldMap) →
  ∃ newMap,
    reshapeAccessMap oldShape newShape oldMap indices = Some newMap ∧
    inBounds newShape (evalAffineExpr dims syms <$> results newMap).
Proof.
  intros Hold Hmax Hnew Hrank Hprod Hdims Hvalid Hind Hin.
  pose proof (rowMajor_inBounds _ _ Hin) as Hx.
  destruct (reshapeAccessMap_spec dims syms oldShape newShape oldMap indices)
    as (newMap & Hmap & _ & _ & Heval); try done.
  { apply Forall2_length in Hin. rewrite length_fmap in Hin. lia. }
  exists newMap. split; [done|]. rewrite Heval.
  set (x := rowMajor oldShape _) in *.
  destruct newShape as [|n inner]; [simpl in Hrank; lia|].
  apply Forall_cons in Hnew as [Hn Hinner].
  rewrite product_cons in Hprod.
  assert (0 < product inner) by by apply product_pos.
  simpl delinearize. constructor.
  - split; [apply Z.div_pos; lia|].
    apply Z.div_lt_upper_bound; [done|]. lia.
  - by apply mixedRadixDigits_inBounds.
Qed.

Lemma runReshape_in_bounds_witness :
  ∃ newMap,
    reshapeAccessMap [2; 6] [3; 4] reshapeExampleMap [0%nat; 1%nat]
    = Some newMap ∧
    inBounds [3; 4] (evalAffineExpr [1; 5] [] <$> results newMap).
Proof.
  apply (runReshape_in_bounds [1; 5] [] [2; 6] [3; 4] reshapeExampleMap
           [0%nat; 1%nat]).
  - apply Forall_cons_2; [lia|]. apply Forall_cons_2; [lia|].
    apply Forall_nil_2.
  - vm_compute. discriminate.
  - apply Forall_cons_2; [lia|]. apply Forall_cons_2; [lia|].
    apply Forall_nil_2.
  - simpl. lia.
  - reflexivity.
  - reflexivity.
  - reflexivity.
  - reflexivity.
  - apply Forall2_cons_2; [vm_compute; split; [discriminate|reflexivity]|].
    apply Forall2_cons_2; [vm_compute; split; [discriminate|reflexivity]|].
    apply Forall2_nil_2.
Defined.

(** ** Layout *)

Lemma runLayout_components layoutMap oldType accessMaps newType maps :
  runLayout layoutMap oldType accessMaps = Some (newType, maps) →
  Forall2 (λ dim d, ∃ pos, dim = AffineDimExpr pos ∧
                           shape oldType !! pos = Some d)
          layoutMap (shape newType) ∧
  layout newType = identityLayout (length layoutMap) ∧
  Forall2 (λ m m',
             numDims m' = numDims m ∧
             Forall2 (λ dim e, ∃ pos, dim = AffineDimExpr pos ∧
                                      results m !! pos = Some e)
                     layoutMap (results m'))
          accessMaps maps.
Proof.
  unfold runLayout. intros Hrun.
  destruct (mapM _ layoutMap) as [newShape|] eqn:Hshape; [|done].
  simpl in Hrun.
  destruct (mapM _ accessMaps) as [maps'|] eqn:Hmaps; [|done].
  simpl in Hrun. injection Hrun as <- <-. simpl.
  apply mapM_Some_1 in Hshape. apply mapM_Some_1 in Hmaps.
  split; [|split].
  - eapply Forall2_impl; [exact Hshape|]. intros dim d Hd. simpl in Hd.
    destruct dim; try done. simpl in Hd. eauto.
  - f_equal. symmetry. by eapply Forall2_length.
  - eapply Forall2_impl; [exact Hmaps|]. intros m m' Hm. simpl in Hm.
    unfold updateMemrefAccess in Hm.
    destruct (mapM _ layoutMap) as [ind|] eqn:Hind; [|done].
    simpl in Hm. injection Hm as <-. simpl. split; [done|].
    apply mapM_Some_1 in Hind.
    eapply Forall2_impl; [exact Hind|]. intros dim e He. simpl in He.
    destruct dim; try done. simpl in He. eauto.
Qed.

(** [runLayout] and [updateMemrefAccess] (lines 2406-2446): the new shape
    and the new map of every load and store of the array select extents and
    index expressions by the same positions, so an access inside the old
    array is an access inside the new one; the map keeps its number of
    dimensions. *)
Theorem runLayout_access_in_bounds dims syms layoutMap oldType accessMaps
    newType maps (k : nat) oldMap :
  runLayout layoutMap oldType accessMaps = Some (newType, maps) →
  accessMaps !! k = Some oldMap →
  inBounds (shape oldType) (evalAffineExpr dims syms <$> results oldMap) →
  ∃ newMap,
    maps !! k = Some newMap ∧
    numDims newMap = numDims oldMap ∧
    inBounds (shape newType) (evalAffineExpr dims syms <$> results newMap) ∧
    ∀ (j pos : nat),
      layoutMap !! j = Some (AffineDimExpr pos) →
      results newMap !! j = results oldMap !! pos ∧
      shape newType !! j = shape oldType !! pos.
Proof.
  intros Hrun Hk Hin.
  destruct (runLayout_components _ _ _ _ _ Hrun) as (Hshape & _ & Hmaps).
  destruct (Forall2_lookup_l _ _ _ _ _ Hmaps Hk)
    as (newMap & Hnew & Hdims & Hres).
  exists newMap. split; [done|]. split; [done|]. split.
  - unfold inBounds in *.
    apply Forall2_fmap_l.
    apply Forall2_same_length_lookup. split.
    { apply Forall2_length in Hshape, Hres. lia. }
    intros j e d He Hd. simpl.
    destruct (lookup_lt_is_Some_2 layoutMap j) as [dim Hdim].
    { apply Forall2_length in Hres. rewrite Hres. by eapply lookup_lt_Some. }
    destruct (Forall2_lookup_lr _ _ _ _ _ _ Hres Hdim He)
      as (pos & -> & Hpos).
    destruct (Forall2_lookup_lr _ _ _ _ _ _ Hshape Hdim Hd)
      as (pos' & [= <-] & Hpos').
    apply (Forall2_lookup_lr _ _ _ pos _ _ Hin); [|done].
    by rewrite list_lookup_fmap, Hpos.
  - intros j pos Hj.
    destruct (Forall2_lookup_l _ _ _ _ _ Hres Hj) as (e & He & pos1 & [= <-] & Hp1).
    destruct (Forall2_lookup_l _ _ _ _ _ Hshape Hj)
      as (d & Hd & pos2 & [= <-] & Hp2).
    by rewrite He, Hd, Hp1, Hp2.
Qed.

Lemma runLayout_access_in_bounds_witness :
  ∃ newMap,
    [layoutExampleNewMap] !! 0%nat = Some newMap ∧
    numDims newMap = numDims layoutExampleMap ∧
    inBounds (shape layoutExampleNewType)
             (evalAffineExpr [1; 1] [] <$> results newMap) ∧
    ∀ (j pos : nat),
      transposeLayout !! j = Some (AffineDimExpr pos) →
      results newMap !! j = results layoutExampleMap !! pos ∧
      shape layoutExampleNewType !! j = shape layoutExampleType !! pos.
Proof.
  apply (runLayout_access_in_bounds [1; 1] [] transposeLayout
           layoutExampleType [layoutExampleMap] layoutExampleNewType
           [layoutExampleNewMap] 0 layoutExampleMap).
  - vm_compute. reflexivity.
  - reflexivity.
  - apply Forall2_cons_2; [vm_compute; split; [discriminate|reflexivity]|].
    apply Forall2_cons_2; [vm_compute; split; [discriminate|reflexivity]|].
    apply Forall2_nil_2.
Defined.

(** [runLayout] (lines 2422-2455) applied twice, with a layout and then
    with its inverse, gives back the shape of the array and the map of every
    access: when each position [k] below the rank is the [j]-th result of the
    first layout and [j] is the [k]-th result of the second, the second call
    undoes the first. *)
Theorem runLayout_inverse layoutMap inverseMap oldType accessMaps ty1 maps1 :
  runLayout layoutMap oldType accessMaps = Some (ty1, maps1) →
  length inverseMap = getRank oldType →
  Forall (λ m, length (results m) = getRank oldType) accessMaps →
  (∀ k : nat, (k < getRank oldType)%nat →
     ∃ j : nat, inverseMap !! k = Some (AffineDimExpr j) ∧
                layoutMap !! j = Some (AffineDimExpr k)) →
  runLayout inverseMap ty1 maps1
  = Some (mkMemRef (shape oldType) (identityLayout (getRank oldType)),
          accessMaps).
Proof.
  intros Hrun Hlen Hres Hinv.
  destruct (runLayout_components _ _ _ _ _ Hrun) as (Hshape & _ & Hmaps).
  unfold runLayout.
  assert (∀ (old : list AffineExpr) (new : list AffineExpr),
            length old = getRank oldType →
            Forall2 (λ dim e, ∃ pos, dim = AffineDimExpr pos ∧
                                     old !! pos = Some e) layoutMap new →
            mapM (λ dim, pos ← dimPosition dim; new !! pos) inverseMap
            = Some old) as Hexprs.
  { intros old new Hold Hnew. apply mapM_Some_2.
    apply Forall2_same_length_lookup. split; [lia|].
    intros k dim e Hdim He.
    destruct (Hinv k) as (j & Hk & Hj); [rewrite <- Hlen; by eapply lookup_lt_Some|].
    rewrite Hk in Hdim. injection Hdim as <-. simpl.
    destruct (Forall2_lookup_l _ _ _ _ _ Hnew Hj) as (e' & -> & pos & [= <-] & Hp).
    congruence. }
  assert (mapM (λ dim, pos ← dimPosition dim; shape ty1 !! pos) inverseMap
          = Some (shape oldType)) as ->.
  { apply mapM_Some_2.
    apply Forall2_same_length_lookup. split; [done|].
    intros k dim d Hdim Hd.
    destruct (Hinv k) as (j & Hk & Hj); [by eapply lookup_lt_Some|].
    rewrite Hk in Hdim. injection Hdim as <-. simpl.
    destruct (Forall2_lookup_l _ _ _ _ _ Hshape Hj)
      as (d' & -> & pos & [= <-] & Hp).
    congruence. }
  simpl.
  assert (mapM (λ m, updateMemrefAccess m inverseMap) maps1 = Some accessMaps)
    as ->.
  { apply mapM_Some_2. apply Forall2_same_length_lookup.
    split; [symmetry; by eapply Forall2_length|].
    intros i m' m Hm' Hm.
    destruct (Forall2_lookup_lr _ _ _ _ _ _ Hmaps Hm Hm') as [Hd Hr].
    assert (length (results m) = getRank oldType) as Hl.
    { eapply (proj1 (Forall_forall _ _)) in Hres; [exact Hres|].
      by eapply list_elem_of_lookup_2. }
    unfold updateMemrefAccess.
    rewrite (Hexprs (results m) (results m') Hl Hr). simpl.
    rewrite Hd. by destruct m. }
  done.
Qed.

Lemma runLayout_inverse_witness :
  runLayout transposeLayout layoutExampleNewType [layoutExampleNewMap]
  = Some (mkMemRef (shape layoutExampleType)
                   (identityLayout (getRank layoutExampleType)),
          [layoutExampleMap]).
Proof.
  apply (runLayout_inverse transposeLayout transposeLayout layoutExampleType
           [layoutExampleMap] layoutExampleNewType [layoutExampleNewMap]).
  - vm_compute. reflexivity.
  - reflexivity.
  - apply Forall_cons_2; [reflexivity|]. apply Forall_nil_2.
  - intros k Hk.
    destruct k as [|[|k]]; [by exists 1%nat|by exists 0%nat|].
    vm_compute in Hk. lia.
Defined.

(** ** Any-width integers *)

Lemma widenType_idemp t t' : widenType t = Some t' → widenType t' = Some t'.
Proof. destruct t as [s [w|n]|n]; simpl; intros [= <-]; done. Qed.

Lemma newSignatureTypes_cons t args :
  newSignatureTypes (t :: args)
  = match widenType t with
    | Some t' => t' :: newSignatureTypes args
    | None => newSignatureTypes args
    end.
Proof. reflexivity. Qed.

(** [updateTopFunctionSignature] (lines 42-73, 92-115, 158-161): the new
    signature holds memrefs only, and no memref of integers narrower or wider
    than 64 bits; converting it again changes nothing; and when the loop over
    the block arguments goes through (every argument is a memref), the types
    given to the block arguments are the argument types of the new
    signature, one per argument. *)
Theorem updateTopFunctionSignature_types (itypes : string)
    (args : list ArgType) :
  Forall (λ t, ∃ argShape et, t = MemRefArg argShape et ∧
                              ∀ w, et = IntegerElement w → w = 64%nat)
         (newSignatureTypes args) ∧
  newSignatureTypes (newSignatureTypes args) = newSignatureTypes args ∧
  match castBlockArgs itypes 0 args with
  | Some (tys, casts) =>
      tys = newSignatureTypes args ∧ length tys = length args ∧
      length casts = length (filter (λ t, isIntegerMemRef t = true) args)
  | None => ∃ name, OtherArg name ∈ args
  end.
Proof.
  split; [|split].
  - apply Forall_forall. intros t Ht. unfold newSignatureTypes in Ht.
    apply list_elem_of_omap in Ht as (t0 & _ & Ht0).
    destruct t0 as [s [w|n]|n]; simpl in Ht0; [| |done];
      injection Ht0 as <-; eexists _, _; (split; [done|]);
      by intros ? [= <-].
  - induction args as [|t args IH]; [done|].
    rewrite newSignatureTypes_cons.
    destruct (widenType t) as [t'|] eqn:Ht; [|done].
    by rewrite newSignatureTypes_cons, (widenType_idemp _ _ Ht), IH.
  - generalize 0%nat as i. induction args as [|t args IH]; intros i.
    { done. }
    destruct t as [s [w|n]|n]; simpl castBlockArgs.
    + specialize (IH (S i)).
      destruct (castBlockArgs itypes (S i) args) as [[tys casts]|];
        simpl mbind.
      * destruct IH as (-> & Hl & Hc). rewrite filter_cons_True by done.
        rewrite newSignatureTypes_cons. simpl.
        split; [done|]. split; by f_equal.
      * destruct IH as [name Hn]. exists name. by right.
    + specialize (IH (S i)).
      destruct (castBlockArgs itypes (S i) args) as [[tys casts]|];
        simpl mbind.
      * destruct IH as (-> & Hl & Hc). rewrite filter_cons_False by done.
        rewrite newSignatureTypes_cons. simpl.
        split; [done|]. split; [by f_equal|done].
      * destruct IH as [name Hn]. exists name. by right.
    + exists n. left.
Qed.

Lemma castBlockArgs_casts itypes args :
  ∀ i tys casts,
    castBlockArgs itypes i args = Some (tys, casts) →
    ∀ (k : nat) c, casts !! k = Some c →
      cast_unsigned c = isUnsignedHint itypes (cast_arg c) ∧
      (∃ argShape, args !! (cast_arg c - i)%nat
                   = Some (MemRefArg argShape (IntegerElement (cast_width c)))) ∧
      (i + k ≤ cast_arg c)%nat ∧
      (Forall (λ t, isIntegerMemRef t = true) args → cast_arg c = (i + k)%nat).
Proof.
  induction args as [|t args IH]; intros i tys casts; simpl.
  { intros [= <- <-] k c Hk. done. }
  destruct t as [s [w|n]|n]; [| |done];
    (destruct (castBlockArgs itypes (S i) args) as [[tys' casts']|] eqn:E;
     simpl; [|done]; intros [= <- <-] k c Hk).
  - destruct k as [|k]; simpl in Hk.
    + injection Hk as <-. simpl. split; [done|].
      rewrite Nat.sub_diag. split; [by exists s|]. split; [lia|].
      intros _. lia.
    + destruct (IH _ _ _ E k c Hk) as (Hu & (sh & Ha) & Hle & Hall).
      split; [done|]. split.
      { exists sh. replace (cast_arg c - i)%nat
          with (S (cast_arg c - S i)) by lia. done. }
      split; [lia|]. intros Hint. apply Forall_cons in Hint as [_ Hint].
      rewrite (Hall Hint). lia.
  - destruct (IH _ _ _ E k c Hk) as (Hu & (sh & Ha) & Hle & Hall).
    split; [done|]. split.
    { exists sh. replace (cast_arg c - i)%nat
        with (S (cast_arg c - S i)) by lia. done. }
    split; [lia|]. intros Hint. by apply Forall_cons in Hint as [? _].
Qed.

(** [updateTopFunctionSignature] (lines 92-115 and 146-155): the [k]-th
    integer argument, at position [i >= k] of the block arguments, is cast on
    entry with the signedness hint at [i] and cast back before a return with
    the hint at [k]: the index of the second loop counts the converted
    arguments.  The two hints are the same one when every argument is a
    memref of integers. *)
Theorem updateTopFunctionSignature_signedness (itypes : string)
    (args : list ArgType) tys casts (k : nat) c :
  castBlockArgs itypes 0 args = Some (tys, casts) →
  casts !! k = Some c →
  (∃ argShape, args !! cast_arg c
               = Some (MemRefArg argShape (IntegerElement (cast_width c)))) ∧
  cast_unsigned c = isUnsignedHint itypes (cast_arg c) ∧
  castBackArgs itypes casts !! k
  = Some (mkCast (cast_arg c) 64 (isUnsignedHint itypes k)) ∧
  (k ≤ cast_arg c)%nat ∧
  (Forall (λ t, isIntegerMemRef t = true) args → cast_arg c = k).
Proof.
  intros Hargs Hk.
  destruct (castBlockArgs_casts _ _ _ _ _ Hargs k c Hk)
    as (Hu & (sh & Ha) & Hle & Hall).
  rewrite Nat.sub_0_r in Ha.
  split; [by exists sh|]. split; [done|]. split.
  { unfold castBackArgs. by rewrite list_lookup_imap, Hk. }
  split; [lia|]. intros Hint. by rewrite (Hall Hint).
Qed.

Lemma updateTopFunctionSignature_signedness_witness :
  (∃ argShape,
     [MemRefArg [4] (OtherElement "f32"); MemRefArg [4] (IntegerElement 8)]
       !! cast_arg (mkCast 1 8 true)
     = Some (MemRefArg argShape (IntegerElement (cast_width (mkCast 1 8 true))))) ∧
  cast_unsigned (mkCast 1 8 true)
  = isUnsignedHint "su" (cast_arg (mkCast 1 8 true)) ∧
  castBackArgs "su" [mkCast 1 8 true] !! 0%nat
  = Some (mkCast (cast_arg (mkCast 1 8 true)) 64 (isUnsignedHint "su" 0)) ∧
  (0 ≤ cast_arg (mkCast 1 8 true))%nat ∧
  (Forall (λ t, isIntegerMemRef t = true)
          [MemRefArg [4] (OtherElement "f32"); MemRefArg [4] (IntegerElement 8)] →
   cast_arg (mkCast 1 8 true) = 0%nat).
Proof.
  apply (updateTopFunctionSignature_signedness "su"
           [MemRefArg [4] (OtherElement "f32"); MemRefArg [4] (IntegerElement 8)]
           [MemRefArg [4] (OtherElement "f32"); MemRefArg [4] (IntegerElement 64)]
           [mkCast 1 8 true] 0 (mkCast 1 8 true)).
  - vm_compute. reflexivity.
  - reflexivity.
Defined.

(** ** Reuse buffers: diagnostics *)

Lemma classifyLoops_interrupted pre l post c :
  Forall (λ x, isNormalizedLoop x = true) pre →
  isNormalizedLoop l = false →
  classifyLoops (pre ++ l :: post) c = inl l.
Proof.
  intros Hpre Hl. revert c.
  induction Hpre as [|x pre Hx _ IH]; intros c; simpl.
  - by rewrite Hl.
  - rewrite Hx. simpl. apply IH.
Qed.

(** [runReuseAt] (lines 1090-1125): once the stage and the reuse loop are
    found, every loop of the stage has to be normalized, not only the loops
    the reuse is about; the primitive fails at the first loop of the walk
    that is not, with one error that names this loop. *)
Theorem runReuseAt_requires_normalized_stage getLoop f op ty rootForOp
    loopAxis reuseLoop pre l post :
  lookupStage f (reuse_stage op) = Some rootForOp →
  getLoop rootForOp (reuse_axis op) = Some (loopAxis, reuseLoop) →
  walkLoops rootForOp = pre ++ l :: post →
  Forall (λ x, isNormalizedLoop x = true) pre →
  isNormalizedLoop l = false →
  runReuseAt getLoop f op ty
  = Some ([EmitError ("Loop " +:+ getLoopName l +:+
                      " must have (1) constant bounds (2) constant step (3) zero lower bound")],
          None).
Proof.
  intros Hstage Hloop Hwalk Hpre Hl. unfold runReuseAt.
  rewrite Hstage, Hloop, Hwalk.
  by rewrite (classifyLoops_interrupted pre l post emptyClasses Hpre Hl).
Qed.

Lemma runReuseAt_requires_normalized_stage_witness :
  runReuseAt stencilGetLoop stencilWithStridedLoop stencilOp stencilArray
  = Some ([EmitError ("Loop " +:+ getLoopName stridedInnerLoop +:+
                      " must have (1) constant bounds (2) constant step (3) zero lower bound")],
          None).
Proof.
  apply (runReuseAt_requires_normalized_stage stencilGetLoop
           stencilWithStridedLoop stencilOp stencilArray
           (AffineFor stencilLoop
              [ AffineLoad 10%nat 100%nat (mkMap 1 [AffineDimExpr 0]) [0%nat];
                AffineFor stridedInnerLoop
                  [ AffineStore 10%nat 101%nat (mkMap 1 [AffineDimExpr 1])
                      [1%nat] ] ])
           0
           (AffineFor stencilLoop
              [ AffineLoad 10%nat 100%nat (mkMap 1 [AffineDimExpr 0]) [0%nat];
                AffineFor stridedInnerLoop
                  [ AffineStore 10%nat 101%nat (mkMap 1 [AffineDimExpr 1])
                      [1%nat] ] ])
           [] stridedInnerLoop [stencilLoop]).
  - vm_compute. reflexivity.
  - vm_compute. reflexivity.
  - vm_compute. reflexivity.
  - apply Forall_nil_2.
  - vm_compute. reflexivity.
Defined.

(** [runReuseAt] (lines 1076-1400): a run that returns failure has emitted
    exactly one error; a run that returns success has emitted no error and
    one warning, the note that the loads have to be in order. *)
Theorem runReuseAt_diagnostics getLoop f op ty diags r :
  runReuseAt getLoop f op ty = Some (diags, r) →
  match r with
  | Some _ => diags = [EmitWarning "Need to guarantee the loads have orders"]
  | None => ∃ msg, filter (λ d, isError d = true) diags = [EmitError msg]
  end.
Proof.
  unfold runReuseAt. intros H.
  repeat (match type of H with
          | context [match ?x with _ => _ end] => destruct x eqn:?
          | context [mbind _ ?x] => destruct x eqn:?; simpl in H
          end; try discriminate H);
    injection H as <- <-; try done; by eexists.
Qed.

Lemma runReuseAt_diagnostics_witness :
  match Some stencilResult with
  | Some _ =>
      [EmitWarning "Need to guarantee the loads have orders"]
      = [EmitWarning "Need to guarantee the loads have orders"]
  | None =>
      ∃ msg, filter (λ d, isError d = true)
                    [EmitWarning "Need to guarantee the loads have orders"]
             = [EmitError msg]
  end.
Proof.
  apply (runReuseAt_diagnostics stencilGetLoop stencilFunc stencilOp
           stencilArray
           [EmitWarning "Need to guarantee the loads have orders"]
           (Some stencilResult)).
  vm_compute. reflexivity.
Defined.

(** ** Loop attributes *)

Lemma find_head_filter {A} (P : A → Prop) `{∀ x, Decision (P x)} (l : list A) :
  List.find (λ x, bool_decide (P x)) l = head (filter P l).
Proof.
  induction l as [|x l IH]; [done|]. simpl.
  destruct (decide (P x)) as [HP|HP].
  - by rewrite bool_decide_eq_true_2, filter_cons_True by done.
  - by rewrite bool_decide_eq_false_2, filter_cons_False by done.
Qed.

Lemma walkSetIntAttr_outcome rootForOp loop_name attrName value :
  match findLoop rootForOp loop_name with
  | Some forOp =>
      walkSetIntAttr rootForOp loop_name attrName value
      = ([], success, Some (mkIntAttr forOp attrName value)) ∧
      getLoopName forOp = loop_name ∧ forOp ∈ walkLoops rootForOp
  | None =>
      walkSetIntAttr rootForOp loop_name attrName value
      = ([EmitError ("Cannot find Loop " +:+ loop_name)], failure, None) ∧
      ∀ forOp, forOp ∈ walkLoops rootForOp → getLoopName forOp ≠ loop_name
  end.
Proof.
  unfold walkSetIntAttr, findLoop.
  rewrite (find_head_filter (λ forOp, loop_name = getLoopName forOp)).
  assert (filter (λ forOp, loop_name = getLoopName forOp) (walkLoops rootForOp)
          = filter (λ l, getLoopName l = loop_name) (walkLoops rootForOp))
    as -> by (apply filter_ext_elem; intros; split; congruence).
  destruct (filter _ _) as [|forOp rest] eqn:Hf; simpl.
  - split; [done|]. intros forOp Hin Hname.
    assert (forOp ∈ filter (λ l, getLoopName l = loop_name)
                           (walkLoops rootForOp)) as Hin'
      by by apply list_elem_of_filter.
    rewrite Hf in Hin'. by apply not_elem_of_nil in Hin'.
  - split; [done|].
    assert (forOp ∈ filter (λ l, getLoopName l = loop_name)
                           (walkLoops rootForOp)) as Hin
      by (rewrite Hf; left).
    by apply list_elem_of_filter in Hin.
Qed.

(** [runUnrolling], [runParallel], [runPipelining] and [runThreadBind]
    (lines 441-591) succeed exactly when the stage is found and a loop nested
    in it has the requested name; they then set one attribute, on the loop
    that [runSplitting] picks for the same names (the first of that name in
    the walk), and emit nothing.  Otherwise they fail with one error and set
    nothing.  The value is 0 for an unroll without factor (full unrolling), 1
    for a pipeline without initiation interval, and 1 for parallel. *)
Theorem loop_attribute_primitives (f : FuncOp) :
  (∀ op, attrOutcome f (unroll_stage op) (unroll_loop op) "unroll"
           (match unroll_factor op with Some factor => factor | None => 0 end)
           (runUnrolling f op)) ∧
  (∀ op, attrOutcome f (parallel_stage op) (parallel_loop op) "parallel" 1
           (runParallel f op)) ∧
  (∀ op, attrOutcome f (pipeline_stage op) (pipeline_loop op) "pipeline_ii"
           (match pipeline_ii op with Some ii => ii | None => 1 end)
           (runPipelining f op)) ∧
  (∀ op, attrOutcome f (thread_stage op) (thread_loop op) "thread_axis"
           (thread_dim op) (runThreadBind f op)).
Proof.
  repeat split; intros op;
    unfold attrOutcome, runUnrolling, runParallel, runPipelining, runThreadBind;
    (destruct (lookupStage f _) as [rootForOp|]; [|done]);
    apply walkSetIntAttr_outcome.
Qed.

(** ** Outline *)

(** [getInputMemRefs] (lines 2298-2306) keeps the list of memrefs free of
    duplicates: it leaves the memrefs it is given where they are and appends
    every target it has not seen, so that the list holds exactly the memrefs
    it was given and the targets of the walk. *)
Theorem getInputMemRefs_collects (targets allMemrefs : list Value) :
  NoDup allMemrefs →
  NoDup (getInputMemRefs targets allMemrefs) ∧
  allMemrefs `prefix_of` getInputMemRefs targets allMemrefs ∧
  ∀ v, v ∈ getInputMemRefs targets allMemrefs ↔ v ∈ allMemrefs ∨ v ∈ targets.
Proof.
  revert allMemrefs.
  unfold getInputMemRefs.
  induction targets as [|t targets IH]; intros allMemrefs Hnd; simpl.
  { split; [done|]. split; [done|]. intros v. rewrite elem_of_nil. tauto. }
  case_decide as Hin.
  - destruct (IH allMemrefs Hnd) as (H1 & H2 & H3).
    split; [done|]. split; [done|]. intros v. rewrite H3, elem_of_cons.
    split; [tauto|]. intros [?|[->|?]]; tauto.
  - destruct (IH (allMemrefs ++ [t])) as (H1 & H2 & H3).
    { apply NoDup_app. split; [done|]. split; [|apply NoDup_singleton].
      intros x Hx Hxt. apply list_elem_of_singleton in Hxt as ->. done. }
    split; [done|]. split.
    { etrans; [|exact H2]. by apply prefix_app_r. }
    intros v.
    rewrite H3, elem_of_app, list_elem_of_singleton, elem_of_cons. tauto.
Qed.

Lemma getInputMemRefs_collects_witness :
  NoDup (getInputMemRefs [100; 101; 100; 7]%nat [7]%nat) ∧
  [7]%nat `prefix_of` getInputMemRefs [100; 101; 100; 7]%nat [7]%nat ∧
  ∀ v, v ∈ getInputMemRefs [100; 101; 100; 7]%nat [7]%nat ↔
       v ∈ [7]%nat ∨ v ∈ [100; 101; 100; 7]%nat.
Proof.
  apply (getInputMemRefs_collects [100; 101; 100; 7]%nat [7]%nat).
  apply NoDup_singleton.
Defined.

Lemma visitOutput_fold hasDefiningOp targets :
  ∀ allMemrefs memrefToRemove,
    NoDup allMemrefs →
    ∀ all' rem',
      foldl (visitOutput hasDefiningOp) (allMemrefs, memrefToRemove) targets
      = (all', rem') →
      NoDup all' ∧
      (∀ v, v ∈ all' ↔ v ∈ allMemrefs ∨ v ∈ targets) ∧
      (∀ v, v ∈ rem' →
            v ∈ memrefToRemove ∨ (v ∈ targets ∧ hasDefiningOp v = true)).
Proof.
  induction targets as [|t targets IH];
    intros allMemrefs memrefToRemove Hnd all' rem'.
  { simpl. intros [= <- <-]. split; [done|].
    split; intros v; rewrite ?elem_of_nil; tauto. }
  change (foldl (visitOutput hasDefiningOp) (allMemrefs, memrefToRemove)
                (t :: targets))
    with (foldl (visitOutput hasDefiningOp)
                (visitOutput hasDefiningOp (allMemrefs, memrefToRemove) t)
                targets).
  assert (∀ rem0,
            foldl (visitOutput hasDefiningOp) (allMemrefs, rem0) targets
            = (all', rem') →
            t ∈ allMemrefs →
            (∀ v, v ∈ rem0 →
                  v ∈ memrefToRemove ∨ (v = t ∧ hasDefiningOp v = true)) →
            NoDup all' ∧
            (∀ v, v ∈ all' ↔ v ∈ allMemrefs ∨ v ∈ t :: targets) ∧
            (∀ v, v ∈ rem' →
                  v ∈ memrefToRemove
                  ∨ (v ∈ t :: targets ∧ hasDefiningOp v = true))) as Hsame.
  { intros rem0 Hfold Ht Hrem0.
    apply IH in Hfold as (H1 & H2 & H3); [|done].
    split; [done|]. split; intros v.
    - rewrite H2, elem_of_cons. split; [tauto|]. intros [?|[->|?]]; tauto.
    - intros Hv. rewrite elem_of_cons.
      destruct (H3 v Hv) as [Hv0|[? ?]]; [|tauto].
      destruct (Hrem0 v Hv0) as [?|[? ?]]; tauto. }
  unfold visitOutput at 2.
  case_decide as Hin.
  - intros Hfold. apply IH in Hfold as (H1 & H2 & H3).
    2:{ apply NoDup_app. split; [done|]. split; [|apply NoDup_singleton].
        intros x Hx Hxt. apply list_elem_of_singleton in Hxt as ->. done. }
    split; [done|]. split; intros v.
    + rewrite H2, elem_of_app, list_elem_of_singleton, elem_of_cons. tauto.
    + intros Hv. rewrite elem_of_cons. destruct (H3 v Hv); tauto.
  - assert (t ∈ allMemrefs) as Ht by (by destruct (decide (t ∈ allMemrefs))).
    case_decide as Hone.
    { intros Hfold. apply (Hsame _ Hfold Ht). tauto. }
    destruct (hasDefiningOp t) eqn:Hdef.
    + intros Hfold. apply (Hsame _ Hfold Ht). intros v Hv.
      apply elem_of_app in Hv as [Hv|Hv]; [by left|].
      apply list_elem_of_singleton in Hv as ->. by right.
    + intros Hfold. apply (Hsame _ Hfold Ht). tauto.
Qed.

(** [getOutputMemRefs] (lines 2308-2333) keeps the list of memrefs free of
    duplicates and never drops an argument of the function: a memref is taken
    out of the list only when it is the target of a store of the stage and is
    defined by an operation, and every memref without a defining operation
    that was in the list or is stored to by the stage is in the list
    afterwards. *)
Theorem getOutputMemRefs_keeps_arguments (hasDefiningOp : Value → bool)
    (targets allMemrefs : list Value) :
  NoDup allMemrefs →
  NoDup (getOutputMemRefs hasDefiningOp targets allMemrefs).1 ∧
  (∀ v, v ∈ (getOutputMemRefs hasDefiningOp targets allMemrefs).1 →
        v ∈ allMemrefs ∨ v ∈ targets) ∧
  (∀ v, v ∈ (getOutputMemRefs hasDefiningOp targets allMemrefs).2 →
        hasDefiningOp v = true ∧ v ∈ targets ∧
        v ∉ (getOutputMemRefs hasDefiningOp targets allMemrefs).1) ∧
  (∀ v, hasDefiningOp v = false → v ∈ allMemrefs ∨ v ∈ targets →
        v ∈ (getOutputMemRefs hasDefiningOp targets allMemrefs).1).
Proof.
  intros Hnd. unfold getOutputMemRefs.
  destruct (foldl _ _ _) as [all' rem'] eqn:Hfold.
  apply visitOutput_fold in Hfold as (H1 & H2 & H3); [|done]. simpl.
  split; [by apply NoDup_filter|]. split; [|split].
  - intros v Hv. apply list_elem_of_filter in Hv as [_ Hv]. by apply H2.
  - intros v Hv. destruct (H3 v Hv) as [Hnil|[Ht Hd]];
      [by apply not_elem_of_nil in Hnil|].
    split; [done|]. split; [done|].
    intros Hin. apply list_elem_of_filter in Hin as [Hn _]. done.
  - intros v Hdef Hv. apply list_elem_of_filter. split; [|by apply H2].
    intros Hrem. destruct (H3 v Hrem) as [Hnil|[_ Hd]];
      [by apply not_elem_of_nil in Hnil|congruence].
Qed.

Lemma getOutputMemRefs_keeps_arguments_witness :
  NoDup (getOutputMemRefs (λ v, bool_decide (100 ≤ v)%nat)
                          [100; 7; 100]%nat [7; 8]%nat).1 ∧
  (∀ v, v ∈ (getOutputMemRefs (λ v, bool_decide (100 ≤ v)%nat)
                              [100; 7; 100]%nat [7; 8]%nat).1 →
        v ∈ [7; 8]%nat ∨ v ∈ [100; 7; 100]%nat) ∧
  (∀ v, v ∈ (getOutputMemRefs (λ v, bool_decide (100 ≤ v)%nat)
                              [100; 7; 100]%nat [7; 8]%nat).2 →
        (λ v, bool_decide (100 ≤ v)%nat) v = true ∧ v ∈ [100; 7; 100]%nat ∧
        v ∉ (getOutputMemRefs (λ v, bool_decide (100 ≤ v)%nat)
                              [100; 7; 100]%nat [7; 8]%nat).1) ∧
  (∀ v, (λ v, bool_decide (100 ≤ v)%nat) v = false →
        v ∈ [7; 8]%nat ∨ v ∈ [100; 7; 100]%nat →
        v ∈ (getOutputMemRefs (λ v, bool_decide (100 ≤ v)%nat)
                              [100; 7; 100]%nat [7; 8]%nat).1).
Proof.
  apply (getOutputMemRefs_keeps_arguments (λ v, bool_decide (100 ≤ v)%nat)
           [100; 7; 100]%nat [7; 8]%nat).
  apply (bool_decide_unpack _). by vm_compute.
Defined.

Lemma string_length_app (a b : string) :
  String.length (a +:+ b) = (String.length a + String.length b)%nat.
Proof.
  induction a as [|c a IH]; [done|].
  change (S (String.length (a +:+ b))
          = S (String.length a + String.length b)). by rewrite IH.
Qed.

Lemma substring_full (s : string) : String.substring 0 (String.length s) s = s.
Proof. induction s as [|c s IH]; [done|]. simpl. by rewrite IH. Qed.

Lemma substr_app (prefix rest : string) :
  substr (prefix +:+ rest) (String.length prefix) = Some rest.
Proof.
  unfold substr. rewrite string_length_app.
  rewrite decide_True by lia. f_equal.
  replace (String.length prefix + String.length rest - String.length prefix)%nat
    with (String.length rest) by lia.
  induction prefix as [|c prefix IH]; [apply substring_full|].
  exact IH.
Qed.

Lemma outlineFuncName_fold (rest : list string) :
  ∀ (acc name : string),
    foldl (λ func_name stage_name, func_name +:+ "_" +:+ stage_name)
          acc (name :: rest)
    = acc +:+ "_" +:+ String.concat "_" (name :: rest).
Proof.
  induction rest as [|next rest IH]; intros acc name; [done|].
  change (foldl _ acc (name :: next :: rest))
    with (foldl (λ func_name stage_name, func_name +:+ "_" +:+ stage_name)
                (acc +:+ "_" +:+ name) (next :: rest)).
  rewrite IH.
  change (String.concat "_" (name :: next :: rest))
    with (name +:+ "_" +:+ String.concat "_" (next :: rest)).
  by rewrite !string_app_assoc.
Qed.

(** [runOutline] names the function it creates [Stage_] followed by the
    names of the outlined stages joined by underscores (lines 2371-2376), and
    [applyLoopTransformation] registers a function under its name without the
    first six characters (lines 2599-2602): a stage outlined alone is
    registered under its own name, which is the key [runSchedule] looks up;
    stages outlined together are registered under the joined names. *)
Theorem outlined_function_key (stage_name : string) (others : list string) :
  substr (outlineFuncName (stage_name :: others)) 6
  = Some (String.concat "_" (stage_name :: others)).
Proof.
  unfold outlineFuncName. rewrite outlineFuncName_fold.
  apply (substr_app "Stage_").
Qed.

(** ** Erasing the schedule *)

Lemma sublist_order {A} (s l : list A) (x y : nat) a u :
  sublist s l → s !! x = Some a → s !! y = Some u → (x < y)%nat →
  ∃ px py : nat, l !! px = Some a ∧ l !! py = Some u ∧ (px < py)%nat.
Proof.
  intros Hsub. revert x y.
  induction Hsub as [|z s l Hsub IH|z s l Hsub IH]; intros x y Hx Hy Hlt.
  - done.
  - destruct x as [|x]; destruct y as [|y]; try lia.
    + simpl in Hx, Hy. injection Hx as ->.
      assert (u ∈ l) as Hu.
      { eapply elem_of_sublist; [|exact Hsub]. by eapply list_elem_of_lookup_2. }
      apply list_elem_of_lookup in Hu as [py Hpy].
      exists 0%nat, (S py). split; [done|]. split; [done|lia].
    + simpl in Hx, Hy.
      destruct (IH x y Hx Hy) as (px & py & ? & ? & ?); [lia|].
      exists (S px), (S py). split; [done|]. split; [done|lia].
  - destruct (IH x y Hx Hy Hlt) as (px & py & ? & ? & ?).
    exists (S px), (S py). split; [done|]. split; [done|lia].
Qed.

(** [eraseScheduleOp] (lines 2479-2488) erases in a safe order.  In a
    function whose operations are distinct, where a user comes after the
    operation whose result it uses and the creation of a handle has no
    operand: no operation is erased twice, an erased operation that uses a
    result of another erased operation is erased before it, and the
    operations that remain are those that are neither schedule statements
    nor handles. *)
Theorem eraseScheduleOp_users_first (f : list BodyOp) :
  NoDup f →
  (∀ (i j : nat) a u v,
     f !! i = Some a → f !! j = Some u →
     v ∈ body_results a → v ∈ body_operands u → (i < j)%nat) →
  (∀ h, h ∈ f → body_class h = IsHandle → body_operands h = []) →
  NoDup (eraseOrder f (scheduleStatements f)) ∧
  (∀ (i j : nat) a u v,
     eraseOrder f (scheduleStatements f) !! i = Some a →
     eraseOrder f (scheduleStatements f) !! j = Some u →
     v ∈ body_results a → v ∈ body_operands u → (j < i)%nat) ∧
  eraseScheduleOps f (scheduleStatements f)
  = filter (λ op, body_class op = IsOther) f.
Proof.
  intros Hnd Hssa Hhandle.
  set (sched := scheduleStatements f).
  set (handles := filter (λ op, body_class op = IsHandle) f).
  assert (sublist sched f) as Hs by apply sublist_filter.
  assert (sublist handles f) as Hh by apply sublist_filter.
  assert (∀ o, o ∈ eraseOrder f sched ↔
               o ∈ f ∧ (body_class o = IsSchedule ∨ body_class o = IsHandle))
    as Hmem.
  { intros o. unfold eraseOrder. rewrite elem_of_app, elem_of_reverse.
    unfold sched, scheduleStatements. rewrite !list_elem_of_filter. tauto. }
  split; [|split].
  - unfold eraseOrder. apply NoDup_app. split; [|split].
    + rewrite reverse_Permutation. by eapply sublist_NoDup.
    + intros o Ho Ho'. rewrite elem_of_reverse in Ho.
      unfold sched, scheduleStatements in Ho.
      apply list_elem_of_filter in Ho as [Ho _].
      apply list_elem_of_filter in Ho' as [Ho' _]. congruence.
    + by eapply sublist_NoDup.
  - intros i j a u v Ha Hu Hva Hvu. unfold eraseOrder in Ha, Hu.
    assert (u ∈ f ∧ body_class u ≠ IsHandle) as [Huf Hclass].
    { assert (u ∈ f) as Huf.
      { assert (u ∈ eraseOrder f sched) as Hin
          by by eapply list_elem_of_lookup_2.
        by apply Hmem in Hin as [? _]. }
      split; [done|]. intros Hc. rewrite (Hhandle u Huf Hc) in Hvu.
      by apply not_elem_of_nil in Hvu. }
    destruct (decide (j < length (reverse sched))%nat) as [Hj|Hj].
    2:{ rewrite lookup_app_r in Hu by lia.
        apply list_elem_of_lookup_2, list_elem_of_filter in Hu as [? _].
        done. }
    rewrite lookup_app_l in Hu by done.
    destruct (decide (i < length (reverse sched))%nat) as [Hi|Hi]; [|lia].
    rewrite lookup_app_l in Ha by done.
    rewrite length_reverse in Hi, Hj.
    rewrite reverse_lookup in Ha, Hu by done.
    destruct (decide (j < i)%nat) as [|Hge]; [done|exfalso].
    assert (a ∈ f) as Haf.
    { eapply elem_of_sublist; [|exact Hs]. by eapply list_elem_of_lookup_2. }
    apply list_elem_of_lookup in Haf as [pa Hpa].
    apply list_elem_of_lookup in Huf as [pu Hpu].
    pose proof (Hssa pa pu a u v Hpa Hpu Hva Hvu) as Hlt.
    destruct (decide (i = j)) as [->|Hne].
    { assert (a = u) as -> by congruence.
      pose proof (NoDup_lookup _ _ _ _ Hnd Hpa Hpu). lia. }
    destruct (sublist_order sched f (length sched - S j) (length sched - S i)
                u a Hs Hu Ha) as (qu & qa & Hqu & Hqa & Hq); [lia|].
    pose proof (NoDup_lookup _ _ _ _ Hnd Hpa Hqa).
    pose proof (NoDup_lookup _ _ _ _ Hnd Hpu Hqu). lia.
  - unfold eraseScheduleOps. apply filter_ext_elem. intros o Ho.
    fold sched. rewrite Hmem.
    destruct (body_class o) eqn:Hc;
      (split;
       [intros H; try done; exfalso; apply H; tauto
       |intros H; try done; intros [_ [?|?]]; done]).
Qed.

Lemma eraseScheduleOp_users_first_witness :
  NoDup (eraseOrder eraseExampleBody (scheduleStatements eraseExampleBody)) ∧
  (∀ (i j : nat) a u v,
     eraseOrder eraseExampleBody (scheduleStatements eraseExampleBody) !! i
       = Some a →
     eraseOrder eraseExampleBody (scheduleStatements eraseExampleBody) !! j
       = Some u →
     v ∈ body_results a → v ∈ body_operands u → (j < i)%nat) ∧
  eraseScheduleOps eraseExampleBody (scheduleStatements eraseExampleBody)
  = filter (λ op, body_class op = IsOther) eraseExampleBody.
Proof.
  apply (eraseScheduleOp_users_first eraseExampleBody).
  - apply (bool_decide_unpack _). by vm_compute.
  - intros i j a u v Ha Hu Hva Hvu.
    destruct i as [|[|[|[|[|[|i]]]]]]; simpl in Ha; try discriminate Ha;
      injection Ha as <-; simpl in Hva;
      try (by apply not_elem_of_nil in Hva);
      (destruct j as [|[|[|[|[|[|j]]]]]]; simpl in Hu; try discriminate Hu;
       injection Hu as <-; simpl in Hvu;
       try (by apply not_elem_of_nil in Hvu); try lia);
      exfalso; revert Hva Hvu; rewrite !elem_of_cons, !elem_of_nil;
      intros; intuition congruence.
  - intros h Hh Hc.
    apply list_elem_of_In in Hh. simpl in Hh.
    destruct Hh as [<-|[<-|[<-|[<-|[<-|[<-|[]]]]]]]; try done.
Defined.

(** ** Compute-at *)

Lemma findProducerConsumer_same f name :
  ∀ acc,
    (∀ p c, acc = Some (p, c) → c = None) →
    ∀ p c,
      foldl (λ acc rootForOp,
               match rootForOp with
               | AffineFor l _ =>
                   '(producerFor, consumerFor) ← acc;
                   curr_name ← stage_name l;
                   if decide (name = curr_name)
                   then Some (Some rootForOp, consumerFor)
                   else if decide (name = curr_name)
                   then Some (producerFor, Some rootForOp)
                   else Some (producerFor, consumerFor)
               | _ => acc
               end) acc f = Some (p, c) →
      c = None.
Proof.
  induction f as [|o f IH]; intros acc Hacc p c; simpl.
  { apply Hacc. }
  apply IH. intros p' c'.
  destruct o as [l body| | | |]; try apply Hacc.
  destruct acc as [[p0 c0]|]; simpl; [|done].
  destruct (stage_name l) as [curr|]; simpl; [|done].
  specialize (Hacc p0 c0 eq_refl). subst c0.
  repeat case_decide; by intros [= <- <-].
Qed.

(** [runComputeAt] (lines 818-836): a stage cannot be computed at itself.
    When producer and consumer are the same stage the search of step 2 never
    records a consumer, since the second test is the [else] of the first, and
    the primitive fails with its error, without a change, whatever else the
    function holds (every outermost loop carrying a stage name). *)
Theorem runComputeAt_same_stage mergeLoops f op :
  compute_producer op = compute_consumer op →
  is_Some (findProducerConsumer f (compute_producer op) (compute_consumer op)) →
  runComputeAt mergeLoops f op
  = Some ([EmitError "Cannot find corresponding producer and consumer"],
          failure, f).
Proof.
  intros Hsame [[p c] Hfound]. unfold runComputeAt. rewrite Hfound. simpl.
  unfold findProducerConsumer in Hfound. rewrite <- Hsame in Hfound.
  apply findProducerConsumer_same in Hfound as ->.
  2:{ by intros ? ? [= <- <-]. }
  by destruct p.
Qed.

Lemma runComputeAt_same_stage_witness :
  runComputeAt recordDepth computeAtExampleFunc (mkComputeAtOp "c" "c" "x")
  = Some ([EmitError "Cannot find corresponding producer and consumer"],
          failure, computeAtExampleFunc).
Proof.
  apply (runComputeAt_same_stage recordDepth computeAtExampleFunc
           (mkComputeAtOp "c" "c" "x")).
  - reflexivity.
  - vm_compute. by eexists.
Defined.

Lemma countDepth_fold loop_name (loops : list AffineForOp) :
  ∀ (c0 r0 : nat),
    (foldl (λ '(cnt_depth, requested_depth) forOp,
              (S cnt_depth,
               if decide (loop_name = getLoopName forOp) then S cnt_depth
               else requested_depth))
           (c0, r0) loops).1 = (c0 + length loops)%nat ∧
    ((∀ l, l ∈ loops → getLoopName l ≠ loop_name) →
     (foldl (λ '(cnt_depth, requested_depth) forOp,
               (S cnt_depth,
                if decide (loop_name = getLoopName forOp) then S cnt_depth
                else requested_depth))
            (c0, r0) loops).2 = r0).
Proof.
  induction loops as [|x loops IH]; intros c0 r0; simpl.
  { split; [lia|done]. }
  destruct (IH (S c0) (if decide (loop_name = getLoopName x) then S c0 else r0))
    as [H1 H2].
  split; [rewrite H1; lia|].
  intros Hno. rewrite H2.
  - rewrite decide_False; [done|]. intros Heq. by apply (Hno x); [left|].
  - intros l Hl. apply Hno. by right.
Qed.

Lemma countDepth_found loop_name (pre post : list AffineForOp) l :
  getLoopName l = loop_name →
  (∀ l', l' ∈ post → getLoopName l' ≠ loop_name) →
  countDepth loop_name (pre ++ l :: post)
  = (length (pre ++ l :: post), S (length pre)).
Proof.
  intros Hl Hpost. unfold countDepth. rewrite foldl_app. simpl.
  destruct (foldl _ (0%nat, 0%nat) pre) as [c r] eqn:Hpre.
  pose proof (countDepth_fold loop_name pre 0 0) as [Hc _].
  rewrite Hpre in Hc. simpl in Hc. subst c.
  rewrite decide_True by done.
  pose proof (countDepth_fold loop_name post (S (length pre)) (S (length pre)))
    as [Hc Hr].
  destruct (foldl _ _ post) as [c' r'].
  simpl in Hc, Hr. rewrite Hc, (Hr Hpost), length_app. simpl. f_equal. lia.
Qed.

(** The walk visits the loops from the inside out; for the loop at
    position [i] of the walk, the last of its name, the count is the number
    of loops of the consumer minus [i]. *)
Lemma requestedDepth_walk_position consumerFor loop_name (i : nat) l :
  walkLoops consumerFor !! i = Some l →
  getLoopName l = loop_name →
  (∀ (j : nat) l', (i < j)%nat → walkLoops consumerFor !! j = Some l' →
                   getLoopName l' ≠ loop_name) →
  requestedDepth consumerFor loop_name
  = (length (walkLoops consumerFor) - i)%nat.
Proof.
  intros Hi Hname Hlast. unfold requestedDepth.
  rewrite <- (take_drop_middle _ _ _ Hi).
  rewrite (countDepth_found loop_name _ _ l Hname).
  2:{ intros l' Hl'. apply list_elem_of_lookup in Hl' as [k Hk].
      rewrite lookup_drop in Hk. apply (Hlast (S i + k)%nat l'); [lia|done]. }
  pose proof (lookup_lt_Some _ _ _ Hi) as Hlt.
  rewrite length_app, length_take. simpl. rewrite length_drop. lia.
Qed.

(** The walk of a perfect nest whose innermost body holds no loop visits
    the loops of the nest, innermost first. *)
Lemma walkLoops_perfect_nest :
  ∀ root l body, root = AffineFor l body →
    ∀ nest innerBody,
      getPerfectlyNestedLoops root = (nest, innerBody) →
      flat_map walkForOps innerBody = [] →
      walkLoops root = reverse nest.
Proof.
  fix IH 1. intros root.
  destruct root as [l body| | | |]; intros l0 body0 Heq; try discriminate.
  clear l0 body0 Heq. intros nest ib.
  destruct body as [|inner rest].
  { simpl. by intros [= <- <-] _. }
  destruct rest as [|o rest].
  2:{ rewrite walkLoops_AffineFor.
      destruct inner; simpl; intros [= <- <-] Hno;
        simpl in Hno; by rewrite Hno. }
  pose proof (IH inner) as IHinner.
  destruct inner as [l' body'| | | |];
    try (rewrite walkLoops_AffineFor; simpl; intros [= <- <-] Hno;
         simpl in Hno; first [by rewrite Hno | done]).
  rewrite getPerfectlyNestedLoops_nested.
  destruct (getPerfectlyNestedLoops (AffineFor l' body')) as [nest' ib'] eqn:E.
  intros [= <- <-] Hno.
  rewrite walkLoops_AffineFor, reverse_cons.
  f_equal.
  change (flat_map walkForOps [AffineFor l' body'])
    with (walkForOps (AffineFor l' body') ++ []).
  rewrite app_nil_r.
  by apply (IHinner l' body' eq_refl nest' ib').
Qed.

(** [runComputeAt] (lines 838-856): when the consumer is a perfect nest
    (each loop holds the next one and nothing else, and the body of the
    innermost one holds no loop), the requested depth is the nesting depth
    of the axis loop, counted from 1 at the outermost loop; among loops of
    the same name the outermost one counts. *)
Theorem runComputeAt_requested_depth consumerFor nest innerBody loop_name
    (d : nat) l :
  getPerfectlyNestedLoops consumerFor = (nest, innerBody) →
  flat_map walkForOps innerBody = [] →
  nest !! d = Some l →
  getLoopName l = loop_name →
  (∀ (j : nat) l', (j < d)%nat → nest !! j = Some l' →
                   getLoopName l' ≠ loop_name) →
  requestedDepth consumerFor loop_name = S d.
Proof.
  intros Hnest Hno Hd Hname Houter.
  assert (walkLoops consumerFor = reverse nest) as Hwalk.
  { destruct consumerFor as [l0 body0| | | |];
      try (simpl in Hnest; injection Hnest as <- <-; done).
    by apply (walkLoops_perfect_nest _ l0 body0 eq_refl nest innerBody). }
  pose proof (lookup_lt_Some _ _ _ Hd) as Hlt.
  rewrite (requestedDepth_walk_position consumerFor loop_name
             (length nest - S d) l).
  - rewrite Hwalk, length_reverse. lia.
  - rewrite Hwalk, reverse_lookup by lia.
    replace (length nest - S (length nest - S d))%nat with d by lia. done.
  - done.
  - intros j l' Hj Hl'. rewrite Hwalk in Hl'.
    pose proof (lookup_lt_Some _ _ _ Hl') as Hjlt.
    rewrite length_reverse in Hjlt.
    rewrite reverse_lookup in Hl' by done.
    apply (Houter (length nest - S j)%nat l'); [lia|done].
Qed.

Lemma runComputeAt_requested_depth_witness :
  requestedDepth
    (AffineFor (mkFor "y" (Some "c") 1 (ConstantBound 0) (ConstantBound 4)
                      1%nat [])
       [ AffineFor (mkFor "x" None 1 (ConstantBound 0) (ConstantBound 4)
                          2%nat [])
           [ AffineLoad 11%nat 100%nat (mkMap 1 [AffineDimExpr 0]) [2%nat] ] ])
    "x"
  = 2%nat.
Proof.
  apply (runComputeAt_requested_depth _
           [mkFor "y" (Some "c") 1 (ConstantBound 0) (ConstantBound 4) 1%nat [];
            mkFor "x" None 1 (ConstantBound 0) (ConstantBound 4) 2%nat []]
           [AffineLoad 11%nat 100%nat (mkMap 1 [AffineDimExpr 0]) [2%nat]]
           "x" 1
           (mkFor "x" None 1 (ConstantBound 0) (ConstantBound 4) 2%nat [])).
  - reflexivity.
  - reflexivity.
  - reflexivity.
  - reflexivity.
  - intros j l' Hj Hl'.
    destruct j as [|j]; [|lia].
    vm_compute in Hl'. injection Hl' as <-. vm_compute. discriminate.
Defined.

(** [runComputeAt] (lines 838-856): an axis that is no loop of the consumer
    is not reported.  When both stages are found and no loop of the consumer
    has the requested name, the primitive goes on to merge the stages with a
    requested depth of one more than the number of loops of the consumer. *)
Theorem runComputeAt_missing_axis mergeLoops f op producerFor consumerFor :
  findProducerConsumer f (compute_producer op) (compute_consumer op)
  = Some (Some producerFor, Some consumerFor) →
  (∀ l, l ∈ walkLoops consumerFor → getLoopName l ≠ compute_axis op) →
  runComputeAt mergeLoops f op
  = mergeLoops f producerFor consumerFor
      (length (walkLoops consumerFor) + 1)%nat.
Proof.
  intros Hfound Hno. unfold runComputeAt. rewrite Hfound. simpl.
  f_equal. unfold requestedDepth, countDepth.
  pose proof (countDepth_fold (compute_axis op) (walkLoops consumerFor) 0 0)
    as [Hc Hr].
  destruct (foldl _ _ _) as [c r]. simpl in Hc, Hr.
  rewrite Hc, (Hr Hno). lia.
Qed.

Lemma runComputeAt_missing_axis_witness :
  runComputeAt recordDepth computeAtExampleFunc (mkComputeAtOp "p" "c" "z")
  = recordDepth computeAtExampleFunc
      (AffineFor (mkFor "i" (Some "p") 1 (ConstantBound 0) (ConstantBound 4)
                        0%nat [])
         [ AffineStore 10%nat 100%nat (mkMap 1 [AffineDimExpr 0]) [0%nat] ])
      (AffineFor (mkFor "y" (Some "c") 1 (ConstantBound 0) (ConstantBound 4)
                        1%nat [])
         [ AffineFor (mkFor "x" None 1 (ConstantBound 0) (ConstantBound 4)
                            2%nat [])
             [ AffineLoad 11%nat 100%nat (mkMap 1 [AffineDimExpr 0])
                 [2%nat] ] ])
      (length (walkLoops
         (AffineFor (mkFor "y" (Some "c") 1 (ConstantBound 0) (ConstantBound 4)
                           1%nat [])
            [ AffineFor (mkFor "x" None 1 (ConstantBound 0) (ConstantBound 4)
                               2%nat [])
                [ AffineLoad 11%nat 100%nat (mkMap 1 [AffineDimExpr 0])
                    [2%nat] ] ])) + 1)%nat.
Proof.
  apply (runComputeAt_missing_axis recordDepth computeAtExampleFunc
           (mkComputeAtOp "p" "c" "z")).
  - vm_compute. reflexivity.
  - intros l Hl. apply list_elem_of_In in Hl. vm_compute in Hl.
    destruct Hl as [<-|[<-|[]]]; vm_compute; discriminate.
Defined.
